(** * Invoices plugin: cached TON transfer matching, invoice and wallet
      verification state machines, rate limiting.

    Shallow embedding of the [invoices] plugin, the module that defines the
    tools [inv_begin_verification], [inv_confirm_verification],
    [inv_register_agent], [inv_create], [inv_check] and [inv_receipt].

    Conventions of the embedding.
    - The SQLite tables with a single-column primary key are finite maps
      ([gmap string row]); [inv_transfers] is the list of its rows in insertion
      order with the composite key checked on insert.
    - JavaScript numbers that the code uses as integers (epoch milliseconds,
      counters, JSON integers) are [Z]; [BigInt] is [Z].
    - An ISO-8601 text produced by [Date.prototype.toISOString] is represented
      by the instant it denotes (epoch milliseconds, [IsoTime]); [Date.parse]
      of such a text gives that instant back.
    - Strings are byte strings; [trim] and [toLowerCase] act on ASCII.
    - [async] code is sequential: the tool body is a computation in a state
      and exception monad over a [World] holding the database, the clock,
      the scripted replies of the indexer and the random source.
    - The indexer is a script of replies that does not depend on the
      request sent: whatever a real indexer answers is one such script. *)

From Stdlib Require Import ZArith Lia Ascii String.
From stdpp Require Import base option gmap strings list fin_maps sorting pretty.

Open Scope Z_scope.

(* ====================================================================== *)
(** ** JavaScript primitives used by the plugin *)
(* ====================================================================== *)

Module JS.

(** A loosely typed JSON scalar: [null]/[undefined], an integer number or
    a string. *)
Inductive Val :=
| Null
| Num (z : Z)
| Str (s : string).

Definition code (c : ascii) : N := Ascii.N_of_ascii c.
Definition chr (n : N) : ascii := Ascii.ascii_of_N n.
Definition str1 (n : N) : string := String (chr n) EmptyString.

Definition between (lo hi : N) (c : ascii) : bool :=
  ((lo <=? code c) && (code c <=? hi))%N.

(** ASCII white space: TAB, LF, VT, FF, CR, SP. *)
Definition is_ws (c : ascii) : bool :=
  between 9 13 c || (code c =? 32)%N.
Definition is_digit (c : ascii) : bool := between 48 57 c.
Definition is_upper (c : ascii) : bool := between 65 90 c.
Definition is_lower (c : ascii) : bool := between 97 122 c.
Definition is_alnum (c : ascii) : bool :=
  is_digit c || is_upper c || is_lower c.

(** Truthiness of a string: non-empty. *)
Definition nonempty (s : string) : bool :=
  match s with EmptyString => false | String _ _ => true end.

(** Truthiness of a nullable string. *)
Definition truthy (o : option string) : bool :=
  match o with Some s => nonempty s | None => false end.

(** Truthiness of a number. *)
Definition truthyZ (z : Z) : bool := negb (z =? 0).
Definition truthyOZ (o : option Z) : bool :=
  match o with Some z => truthyZ z | None => false end.

Definition truthyVal (v : Val) : bool :=
  match v with Null => false | Num z => truthyZ z | Str s => nonempty s end.

(** [a ?? b] on scalars and on nullable values. *)
Definition nullishVal (a b : Val) : Val :=
  match a with Null => b | _ => a end.
Definition nullish {A} (a b : option A) : option A :=
  match a with Some _ => a | None => b end.

Fixpoint trimStart (s : string) : string :=
  match s with
  | String c r => if is_ws c then trimStart r else s
  | EmptyString => EmptyString
  end.

Definition trimEnd (s : string) : string :=
  String.rev (trimStart (String.rev s)).

Definition trim (s : string) : string := trimEnd (trimStart s).

Definition lower_char (c : ascii) : ascii :=
  if is_upper c then chr (code c + 32) else c.

Fixpoint toLowerCase (s : string) : string :=
  match s with
  | String c r => String (lower_char c) (toLowerCase r)
  | EmptyString => EmptyString
  end.

(** [s.slice(0, n)]. *)
Definition slice0 (n : nat) (s : string) : string := String.substring 0 n s.

(** [s.split(sep)[0]] for a one-character separator. *)
Fixpoint splitHead (sep : N) (s : string) : string :=
  match s with
  | String c r => if (code c =? sep)%N then EmptyString
                  else String c (splitHead sep r)
  | EmptyString => EmptyString
  end.

(** What follows the first separator, when there is one. *)
Fixpoint splitTail (sep : N) (s : string) : option string :=
  match s with
  | String c r => if (code c =? sep)%N then Some r else splitTail sep r
  | EmptyString => None
  end.

(** [String(z)] for an integer. *)
Definition ofZ (z : Z) : string := pretty z.

Definition toStr (v : Val) (dflt : string) : string :=
  match v with Null => dflt | Num z => ofZ z | Str s => s end.

(** Value of a digit in a base up to 16. *)
Definition digit_val (base : Z) (c : ascii) : option Z :=
  let v :=
    if is_digit c then Some (Z.of_N (code c) - 48)
    else if between 97 102 c then Some (Z.of_N (code c) - 87)
    else if between 65 70 c then Some (Z.of_N (code c) - 55)
    else None in
  match v with
  | Some d => if d <? base then Some d else None
  | None => None
  end.

Fixpoint digits (base : Z) (acc : Z) (s : string) : option Z :=
  match s with
  | EmptyString => Some acc
  | String c r =>
      match digit_val base c with
      | Some d => digits base (acc * base + d) r
      | None => None
      end
  end.

Definition digits1 (base : Z) (s : string) : option Z :=
  if nonempty s then digits base 0 s else None.

(** [StringToBigInt]: white space is trimmed, the empty text is [0n], a
    decimal literal may carry a sign, [0x]/[0o]/[0b] literals may not.
    [None] is the [SyntaxError]. *)
Definition StringToBigInt (s : string) : option Z :=
  match trim s with
  | EmptyString => Some 0
  | String c r as t =>
      if (code c =? 43)%N then digits1 10 r
      else if (code c =? 45)%N then Z.opp <$> digits1 10 r
      else if (code c =? 48)%N then
        match r with
        | String p q =>
            if ((code p =? 120) || (code p =? 88))%N then digits1 16 q
            else if ((code p =? 111) || (code p =? 79))%N then digits1 8 q
            else if ((code p =? 98) || (code p =? 66))%N then digits1 2 q
            else digits1 10 t
        | EmptyString => Some 0
        end
      else digits1 10 t
  end.

(** [BigInt(v)] inside a [try]: [None] when it throws. *)
Definition BigInt (v : Val) : option Z :=
  match v with
  | Null => None
  | Num z => Some z
  | Str s => StringToBigInt s
  end.

(** [Number(v)] restricted to integer results: [None] stands for [NaN]
    (and for the fractional and exponent literals, which the indexer does
    not send for the fields read here). *)
Definition Number (v : Val) : option Z :=
  match v with
  | Null => Some 0
  | Num z => Some z
  | Str s => StringToBigInt s
  end.

(** [s.padStart(n, "0")]. *)
Definition padStart0 (n : nat) (s : string) : string :=
  String.concat "" (replicate (n - String.length s) "0") +:+ s.

(** [s.replace(/0+$/, "")]. *)
Fixpoint dropZeros (s : string) : string :=
  match s with
  | String c r => if (code c =? 48)%N then dropZeros r else s
  | EmptyString => EmptyString
  end.
Definition stripTrailingZeros (s : string) : string :=
  String.rev (dropZeros (String.rev s)).

Fixpoint all_chars (p : ascii -> bool) (s : string) : bool :=
  match s with
  | String c r => p c && all_chars p r
  | EmptyString => true
  end.

Fixpoint filter_chars (p : ascii -> bool) (s : string) : string :=
  match s with
  | String c r => if p c then String c (filter_chars p r) else filter_chars p r
  | EmptyString => EmptyString
  end.

(** [s.replace(/\s+/g, "_")]. *)
Fixpoint wsRunsToUnderscore (inrun : bool) (s : string) : string :=
  match s with
  | String c r =>
      if is_ws c then
        if inrun then wsRunsToUnderscore true r
        else String (chr 95) (wsRunsToUnderscore true r)
      else String c (wsRunsToUnderscore false r)
  | EmptyString => EmptyString
  end.

Definition hex_digit (n : N) : ascii :=
  if (n <? 10)%N then chr (48 + n) else chr (55 + n).

(** [encodeURIComponent] on the bytes of the text. *)
Fixpoint encodeURIComponent (s : string) : string :=
  match s with
  | String c r =>
      let keep := is_alnum c ||
        existsb (N.eqb (code c)) [45; 95; 46; 33; 126; 42; 39; 40; 41]%N in
      if keep then String c (encodeURIComponent r)
      else String (chr 37) (String (hex_digit (code c / 16))
             (String (hex_digit (code c mod 16)) (encodeURIComponent r)))
  | EmptyString => EmptyString
  end.

(** [Date.prototype.toISOString]: a [RangeError] outside the range of
    [Date] ([None]). *)
Definition MAX_DATE : Z := 8640000000000000.
Definition toISOString (ms : Z) : option Z :=
  if (- MAX_DATE <=? ms) && (ms <=? MAX_DATE) then Some ms else None.

End JS.

(* ====================================================================== *)
(** ** Data model: the five tables *)
(* ====================================================================== *)

(** An ISO-8601 text written by [toISOString], as the instant it denotes. *)
Definition IsoTime := Z.

(** Row of [inv_agents] (key: [agent_id]). *)
Record Agent := mkAgent {
  ag_wallet_address : option string;
  ag_status : string;
  ag_challenge_tag : option string;
  ag_challenge_amount_ton : option string;
  ag_challenge_amount_nano : option string;
  ag_challenge_created_at : option IsoTime;
  ag_challenge_expires_at : option IsoTime;
  ag_verified_at : option IsoTime;
  ag_proof_event_id : option string;
  ag_proof_sender_wallet : option string;
  ag_updated_at : IsoTime
}.

(** Row of [inv_invoices] (key: [invoice_id]). *)
Record Invoice := mkInvoice {
  inv_created_at : IsoTime;
  inv_expires_at : option IsoTime;
  inv_amount_ton : string;
  inv_amount_nano : string;
  inv_recipient_wallet : string;
  inv_expected_sender_wallet : option string;
  inv_payer_agent : option string;
  inv_payer_agent_verified : option Z;
  inv_description : option string;
  inv_comment : string;
  inv_status : string;
  inv_strict_sender : option Z;
  inv_paid_at : option IsoTime;
  inv_tx_event_id : option string;
  inv_tx_sender_wallet : option string;
  inv_tx_amount_nano : option string;
  inv_tx_amount_ton : option string;
  inv_last_checked_at : option IsoTime
}.

(** Row of [inv_rate_limits] (key: ["tool:caller"]). *)
Record RateRow := mkRateRow {
  window_start : Z;
  count : Z
}.

(** Row of [inv_wallet_sync] (key: [wallet]). *)
Record WalletSync := mkWalletSync {
  last_sync_at : option Z;
  max_lt : option string;
  min_lt : option string;
  max_ts : option Z;
  min_ts : option Z
}.

(** Row of [inv_transfers] (key: [wallet], [event_id], [action_index]). *)
Record Transfer := mkTransfer {
  tr_wallet : string;
  tr_event_id : string;
  tr_action_index : Z;
  tr_lt : option string;
  tr_timestamp : option Z;
  tr_sender : option string;
  tr_recipient : option string;
  tr_amount_nano : option string;
  tr_comment : option string;
  tr_comment_tag : option string;
  tr_inserted_at : IsoTime
}.

Record DB := mkDB {
  agents : gmap string Agent;
  invoices : gmap string Invoice;
  rate_limits : gmap string RateRow;
  wallet_sync : gmap string WalletSync;
  transfers : list Transfer
}.

Definition emptyDB : DB := mkDB ∅ ∅ ∅ ∅ [].

Definition set_agents (f : gmap string Agent -> gmap string Agent) (db : DB) : DB :=
  mkDB (f (agents db)) (invoices db) (rate_limits db) (wallet_sync db) (transfers db).
Definition set_invoices (f : gmap string Invoice -> gmap string Invoice) (db : DB) : DB :=
  mkDB (agents db) (f (invoices db)) (rate_limits db) (wallet_sync db) (transfers db).
Definition set_rate_limits (f : gmap string RateRow -> gmap string RateRow) (db : DB) : DB :=
  mkDB (agents db) (invoices db) (f (rate_limits db)) (wallet_sync db) (transfers db).
Definition set_wallet_sync (f : gmap string WalletSync -> gmap string WalletSync) (db : DB) : DB :=
  mkDB (agents db) (invoices db) (rate_limits db) (f (wallet_sync db)) (transfers db).
Definition set_transfers (f : list Transfer -> list Transfer) (db : DB) : DB :=
  mkDB (agents db) (invoices db) (rate_limits db) (wallet_sync db) (f (transfers db)).

(** The composite primary key of a cached transfer. *)
Definition tr_key (r : Transfer) : string * string * Z :=
  (tr_wallet r, tr_event_id r, tr_action_index r).

(* ====================================================================== *)
(** ** Upstream events (the JSON the indexer returns) *)
(* ====================================================================== *)

(** [t.recipient] / [t.sender]: absent, a bare address, or an account object
    with an [address] field. *)
Inductive AddrField :=
| AddrAbsent
| AddrPlain (s : string)
| AddrAccount (address : string).

Record TonTransfer := mkTonTransfer {
  t_recipient : AddrField;
  t_sender : AddrField;
  t_amount : JS.Val;
  t_comment : option string
}.

Record Action := mkAction {
  a_type : string;
  a_TonTransfer : option TonTransfer
}.

Record Event := mkEvent {
  ev_event_id : option string;
  ev_id : option string;
  ev_lt : JS.Val;
  ev_event_lt : JS.Val;
  ev_timestamp : JS.Val;
  ev_utime : JS.Val;
  ev_time : JS.Val;
  ev_actions : option (list Action)
}.

(** [x?.address ?? x ?? null]. *)
Definition addr_of (a : AddrField) : option string :=
  match a with
  | AddrAbsent => None
  | AddrPlain s => Some s
  | AddrAccount s => Some s
  end.

(* ====================================================================== *)
(** ** Constants *)
(* ====================================================================== *)

Definition VERIFY_DEFAULT_TON : string := "0.01".
Definition VERIFY_TTL_MINUTES : Z := 60.
Definition EVENT_PAGE_LIMIT : Z := 50.
Definition EVENT_MAX_PAGES_NEW : nat := 3.
Definition EVENT_MAX_PAGES_OLD : nat := 6.
Definition SYNC_MIN_INTERVAL_MS : Z := 3000.
Definition RATE_DEFAULT_WINDOW_MS : Z := 60000.
Definition RATE_DEFAULT_MAX : Z := 60.

(** [AbortSignal.timeout(15000)] on every request. *)
Definition FETCH_TIMEOUT_MS : Z := 15000.

Definition RATE_TOOL_DEFAULTS (toolName : string) : option Z :=
  if String.eqb toolName "inv_begin_verification" then Some 10
  else if String.eqb toolName "inv_confirm_verification" then Some 10
  else if String.eqb toolName "inv_register_agent" then Some 10
  else if String.eqb toolName "inv_create" then Some 20
  else if String.eqb toolName "inv_check" then Some 20
  else if String.eqb toolName "inv_receipt" then Some 30
  else None.

(* ====================================================================== *)
(** ** Pure helpers *)
(* ====================================================================== *)

(** A thrown JavaScript error: its message and, for HTTP failures, the
    [status] property [tonapiFetch] attaches. *)
Record Err := mkErr {
  err_message : string;
  err_status : option Z
}.

Definition error (msg : string) : Err := mkErr msg None.

Definition parseIso (ts : option IsoTime) : option Z := ts.

Definition commentTag (comment : option string) : option string :=
  match comment with
  | None => None
  | Some c =>
      if JS.nonempty c then
        let head := JS.trim (JS.splitHead 124 c) in
        if JS.nonempty head then Some head else None
      else None
  end.

Definition eventTimeMs (ts : JS.Val) : option Z :=
  match ts with
  | JS.Null => None
  | _ => match JS.Number ts with
         | Some n => Some (n * 1000)
         | None => None
         end
  end.

Definition toBigIntSafe (val : JS.Val) : option Z := JS.BigInt val.

(** [toBigIntSafe] on a nullable TEXT column. *)
Definition toBigIntSafeText (val : option string) : option Z :=
  match val with
  | None => None
  | Some s => toBigIntSafe (JS.Str s)
  end.

Definition maxBigInt (a b : option Z) : option Z :=
  match a, b with
  | None, _ => b
  | _, None => a
  | Some x, Some y => if x >? y then a else b
  end.

Definition minBigInt (a b : option Z) : option Z :=
  match a, b with
  | None, _ => b
  | _, None => a
  | Some x, Some y => if x <? y then a else b
  end.

Definition NANO : Z := 1000000000.

(** [toNanoString] on the text of [amount]; [inl] is the thrown message. *)
Definition toNanoString (amount : option string) : string + string :=
  match amount with
  | None => inl "amount_ton is required"
  | Some a =>
      let raw := JS.trim a in
      let intPart := JS.splitHead 46 raw in
      let fracOpt := JS.splitTail 46 raw in
      let fracOk :=
        match fracOpt with
        | None => true
        | Some f => JS.nonempty f && JS.all_chars JS.is_digit f
        end in
      if JS.nonempty intPart && JS.all_chars JS.is_digit intPart && fracOk then
        let fracPart := default "" fracOpt in
        let frac := JS.slice0 9 (fracPart +:+ "000000000") in
        match JS.StringToBigInt intPart, JS.StringToBigInt frac with
        | Some i, Some f =>
            let nano := i * NANO + f in
            if nano <=? 0 then inl "amount_ton must be greater than 0"
            else inr (JS.ofZ nano)
        | _, _ => inl "Cannot convert to a BigInt"
        end
      else inl "amount_ton must be a positive number string"
  end.

Definition formatTon (nanoStr : option string) : option string :=
  match toBigIntSafeText nanoStr with
  | None => None
  | Some nano =>
      let intPart := Z.quot nano NANO in
      let frac := Z.rem nano NANO in
      let fracStr := JS.stripTrailingZeros (JS.padStart0 9 (JS.ofZ frac)) in
      if JS.nonempty fracStr then Some (JS.ofZ intPart +:+ "." +:+ fracStr)
      else Some (JS.ofZ intPart)
  end.

Definition tag_char (c : ascii) : bool :=
  JS.is_alnum c || existsb (N.eqb (JS.code c)) [95; 64; 46; 45]%N.

Definition sanitizeTag (value : option string) (maxLen : nat) : option string :=
  match value with
  | None => None
  | Some v =>
      if JS.nonempty v then
        let raw := JS.trim v in
        if JS.nonempty raw then
          Some (JS.slice0 maxLen
                  (JS.filter_chars tag_char (JS.wsRunsToUnderscore false raw)))
        else None
      else None
  end.

Definition buildInvoiceId (hex : string) : string := "inv_" +:+ hex.

Definition buildInvoiceComment (invoiceId : string) (payerAgent : option string) : string :=
  let tag := "INV#" +:+ invoiceId in
  match sanitizeTag payerAgent 32 with
  | Some payer => if JS.nonempty payer then tag +:+ "|payer:" +:+ payer else tag
  | None => tag
  end.

Definition buildVerificationTag (agentId : string) (hex : string) : string :=
  let safe :=
    match sanitizeTag (Some agentId) 24 with
    | Some s => if JS.nonempty s then s else "agent"
    | None => "agent"
    end in
  "REG#" +:+ safe +:+ "#" +:+ hex.

Record Links := mkLinks {
  ton_link : string;
  tonkeeper_link : string;
  tonhub_link : string
}.

Definition buildLinks (recipient amountNano comment : string) : Links :=
  let text := JS.encodeURIComponent comment in
  let tail := recipient +:+ "?amount=" +:+ amountNano +:+ "&text=" +:+ text in
  mkLinks ("ton://transfer/" +:+ tail)
          ("https://app.tonkeeper.com/transfer/" +:+ tail)
          ("https://tonhub.com/transfer/" +:+ tail).

(* ====================================================================== *)
(** ** The world a tool call runs in, and the monad of tool bodies *)
(* ====================================================================== *)

(** One reply of the indexer to [GET /v2/accounts/{wallet}/events]. *)
Inductive Reply :=
| ReplyEvents (events : option (list Event))   (* 200, [data.events] *)
| ReplyHttpError (status : Z) (text : string)  (* [!res.ok] *)
| ReplyFailure (message : string).             (* no response: timeout, reset, bad JSON *)

Record Response := mkResponse {
  latency : N;
  reply : Reply
}.

Record Request := mkRequest {
  rq_wallet : option string;
  rq_sort_order : string;
  rq_after_lt : option string;
  rq_before_lt : option string;
  rq_start_date : option Z;
  rq_end_date : option Z
}.

(** [~/.teleton/wallet.json]. *)
Inductive WalletFile :=
| WalletMissing
| WalletNoAddress
| WalletAddress (address : string).

Record World := mkWorld {
  w_db : DB;
  w_now : Z;                   (* what [Date.now()] returns *)
  w_lastRequestTime : Z;       (* the module variable [lastRequestTime] *)
  w_net : list Response;       (* replies the indexer will give, in order *)
  w_requests : list Request;   (* requests sent so far, latest first *)
  w_rand : list string;        (* hex texts [randomBytes] will give *)
  w_wallet_file : WalletFile
}.

Inductive Res (A : Type) :=
| Ok (a : A)
| Throw (e : Err).
Arguments Ok {A} a.
Arguments Throw {A} e.

Definition M (A : Type) : Type := World -> Res A * World.

#[global] Instance M_ret : MRet M := fun A a w => (Ok a, w).
#[global] Instance M_bind : MBind M := fun A B f m w =>
  match m w with
  | (Ok a, w') => f a w'
  | (Throw e, w') => (Throw e, w')
  end.

Definition throw {A} (e : Err) : M A := fun w => (Throw e, w).

(** [try { m } catch (err) { h err }]. *)
Definition try_catch {A} (m : M A) (h : Err -> M A) : M A := fun w =>
  match m w with
  | (Ok a, w') => (Ok a, w')
  | (Throw e, w') => h e w'
  end.

Definition getDb : M DB := fun w => (Ok (w_db w), w).

Definition modifyDb (f : DB -> DB) : M unit := fun w =>
  (Ok tt, mkWorld (f (w_db w)) (w_now w) (w_lastRequestTime w) (w_net w)
                  (w_requests w) (w_rand w) (w_wallet_file w)).

Definition Date_now : M Z := fun w => (Ok (w_now w), w).

(** [await new Promise(r => setTimeout(r, d))]. *)
Definition sleep (d : Z) : M unit := fun w =>
  (Ok tt, mkWorld (w_db w) (w_now w + Z.max 0 d) (w_lastRequestTime w) (w_net w)
                  (w_requests w) (w_rand w) (w_wallet_file w)).

(** [new Date(ms).toISOString()]. *)
Definition isoOf (ms : Z) : M IsoTime :=
  match JS.toISOString ms with
  | Some t => mret t
  | None => throw (error "Invalid time value")
  end.

(** [new Date().toISOString()]. *)
Definition nowIso : M IsoTime := now ← Date_now; isoOf now.

(** [randomBytes(n).toString("hex")]. *)
Definition randomHex (n : nat) : M string := fun w =>
  match w_rand w with
  | h :: rest =>
      (Ok h, mkWorld (w_db w) (w_now w) (w_lastRequestTime w) (w_net w)
                     (w_requests w) rest (w_wallet_file w))
  | [] => (Ok (String.concat "" (replicate (2 * n) "0")), w)
  end.

Definition getAgentWalletAddress : M string := fun w =>
  match w_wallet_file w with
  | WalletMissing =>
      (Throw (error "Agent wallet not found at ~/.teleton/wallet.json"), w)
  | WalletNoAddress => (Throw (error "wallet.json missing address field"), w)
  | WalletAddress a =>
      if JS.nonempty a then (Ok (JS.trim a), w)
      else (Throw (error "wallet.json missing address field"), w)
  end.

(* ====================================================================== *)
(** ** Access policy and rate limiter *)
(* ====================================================================== *)

(** What a tool receives as [context], with the values [config.yaml] holds
    for the keys the plugin reads. *)
Record Context := mkContext {
  senderId : option Z;
  admin_ids : list Z;                       (* config.telegram.admin_ids *)
  ctx_allowlist : option (list Z);          (* config.invoices.allowlist *)
  ctx_access : option string;               (* config.invoices.access *)
  ctx_mode : option string;                 (* config.invoices.mode *)
  ctx_rate_limit_window_ms : option Z;      (* config.invoices.rate_limit_window_ms *)
  ctx_rate_limit_max : option Z;            (* config.invoices.rate_limit_max *)
  ctx_rate_limits : gmap string Z;          (* config.invoices.rate_limits *)
  config_file : gmap string string          (* config.yaml, by key *)
}.

Definition getConfigValue (ctx : Context) (key : string) : option string :=
  config_file ctx !! key.

Definition getConfigBool (ctx : Context) (key : string) : option bool :=
  match getConfigValue ctx key with
  | None => None
  | Some val =>
      if JS.nonempty val then
        let v := JS.toLowerCase val in
        if existsb (String.eqb v) ["true"; "yes"; "1"] then Some true
        else if existsb (String.eqb v) ["false"; "no"; "0"] then Some false
        else None
      else None
  end.

Definition getConfigNumber (ctx : Context) (key : string) : option Z :=
  match getConfigValue ctx key with
  | None => None
  | Some val => if JS.nonempty val then JS.Number (JS.Str val) else None
  end.

(** [s.split(/[\s,]+/)] without the empty pieces. *)
Fixpoint tokens (cur : string) (s : string) : list string :=
  match s with
  | String c r =>
      if JS.is_ws c || (JS.code c =? 44)%N then
        (if JS.nonempty cur then [String.rev cur] else []) ++ tokens "" r
      else tokens (String c cur) r
  | EmptyString => if JS.nonempty cur then [String.rev cur] else []
  end.

Definition is_bracket (c : ascii) : bool :=
  ((JS.code c =? 91) || (JS.code c =? 93))%N.

Definition parseIdList (value : option string) : list Z :=
  match value with
  | None => []
  | Some v =>
      let cleaned := JS.filter_chars (fun c => negb (is_bracket c)) v in
      omap (fun p => match JS.Number (JS.Str p) with
                     | Some n => if 0 <? n then Some n else None
                     | None => None
                     end)
           (tokens "" cleaned)
  end.

Record Policy := mkPolicy {
  mode : string;
  allowlist : list Z;
  adminIds : list Z
}.

Definition opt_is (o : option string) (s : string) : bool :=
  match o with Some x => String.eqb x s | None => false end.

Definition is_true (o : option bool) : bool :=
  match o with Some true => true | _ => false end.

Definition nonnil {A} (l : list A) : bool :=
  match l with [] => false | _ => true end.

Definition getAccessPolicy (ctx : Context) : Policy :=
  let ctxMode := JS.nullish (ctx_access ctx) (ctx_mode ctx) in
  let fileAllowlist := parseIdList (getConfigValue ctx "invoices_allowlist") in
  let adminOnly := getConfigBool ctx "invoices_admin_only" in
  let openAccess := getConfigBool ctx "invoices_open" in
  let allowlist := default fileAllowlist (ctx_allowlist ctx) in
  let mode :=
    if is_true openAccess || opt_is ctxMode "open" then "open"
    else if is_true adminOnly || opt_is ctxMode "admin" then "admin"
    else if nonnil allowlist then "allowlist"
    else if nonnil (admin_ids ctx) then "admin"
    else "open" in
  mkPolicy mode allowlist (admin_ids ctx).

Inductive Access :=
| AccessOk (role : string)
| AccessDenied (error : string).

Definition includes (l : list Z) (x : Z) : bool := existsb (Z.eqb x) l.

Definition assertAccess (ctx : Context) (toolName : string) : Access :=
  match senderId ctx with
  | None => AccessDenied "senderId is missing"
  | Some sid =>
      if JS.truthyZ sid then
        let policy := getAccessPolicy ctx in
        if includes (adminIds policy) sid then AccessOk "admin"
        else if String.eqb (mode policy) "open" then AccessOk "open"
        else if String.eqb (mode policy) "allowlist" then
          if includes (allowlist policy) sid then AccessOk "allowlist"
          else AccessDenied ("Access denied for tool " +:+ toolName)
        else AccessDenied ("Admin only for tool " +:+ toolName)
      else AccessDenied "senderId is missing"
  end.

Record RateCfg := mkRateCfg {
  windowMs : Z;
  max : Z
}.

(** [a || b] on numbers that may be [NaN]/absent. *)
Definition orZ (a : option Z) (b : option Z) : option Z :=
  if JS.truthyOZ a then a else b.

Definition getRateLimitConfig (ctx : Context) (toolName : string) : RateCfg :=
  let windowMs :=
    default RATE_DEFAULT_WINDOW_MS
      (orZ (ctx_rate_limit_window_ms ctx)
         (orZ (getConfigNumber ctx "invoices_rate_limit_window_ms")
            (Some RATE_DEFAULT_WINDOW_MS))) in
  let defaultMax :=
    default RATE_DEFAULT_MAX
      (orZ (ctx_rate_limit_max ctx)
         (orZ (getConfigNumber ctx "invoices_rate_limit_max")
            (Some RATE_DEFAULT_MAX))) in
  let toolKey := "invoices_rate_limit_" +:+ toolName in
  let toolOverride :=
    default defaultMax
      (orZ (ctx_rate_limits ctx !! toolName)
         (orZ (getConfigNumber ctx toolKey)
            (orZ (RATE_TOOL_DEFAULTS toolName) (Some defaultMax)))) in
  mkRateCfg (Z.max 1000 windowMs) (Z.max 1 toolOverride).

Inductive RateResult :=
| Allowed (remaining : Z)
| Rejected (retryAfterMs : Z).

(** [checkRateLimit(db, senderId, toolName, cfg)]. *)
Definition checkRateLimit (sender : Z) (toolName : string) (cfg : RateCfg) : M RateResult :=
  let key := toolName +:+ ":" +:+ JS.ofZ sender in
  now ← Date_now;
  db ← getDb;
  let fresh :=
    _ ← modifyDb (set_rate_limits <[key := mkRateRow now 1]>);
    mret (Allowed (max cfg - 1)) in
  match rate_limits db !! key with
  | None => fresh
  | Some row =>
      if now - window_start row >=? windowMs cfg then fresh
      else if count row >=? max cfg then
        mret (Rejected (windowMs cfg - (now - window_start row)))
      else
        _ ← modifyDb (set_rate_limits <[key := mkRateRow (window_start row) (count row + 1)]>);
        mret (Allowed (max cfg - count row - 1))
  end.

(* ====================================================================== *)
(** ** Cache, ingestion, sync engine and matcher *)
(* ====================================================================== *)

Record Stats := mkStats {
  st_min_lt : option string;
  st_max_lt : option string;
  st_min_ts : option Z;
  st_max_ts : option Z
}.

(** [ORDER BY timestamp ASC]: SQLite puts NULL first. *)
Definition ts_le (a b : Transfer) : Prop :=
  match tr_timestamp a, tr_timestamp b with
  | None, _ => True
  | Some _, None => False
  | Some x, Some y => x <= y
  end.

#[global] Instance ts_le_dec : RelDecision ts_le.
Proof.
  intros a b. unfold ts_le.
  destruct (tr_timestamp a) as [x|], (tr_timestamp b) as [y|];
    [apply Z_le_dec | right; tauto | left; exact I | left; exact I].
Defined.

Definition optZ_le (lo : option Z) (t : Z) : bool :=
  match lo with Some a => a <=? t | None => false end.

(** The [WHERE] clause of [stmtTransferQuery]; a NULL parameter makes its
    comparison fail. *)
Definition query_where (wallet tag : option string) (startMs : option Z) (endMs : option Z)
    (r : Transfer) : bool :=
  match wallet, tag, tr_timestamp r with
  | Some w, Some tg, Some t =>
      String.eqb (tr_wallet r) w &&
      match tr_comment_tag r with Some x => String.eqb x tg | None => false end &&
      optZ_le startMs t &&
      match endMs with Some e => t <=? e | None => false end
  | _, _, _ => false
  end.

Definition stmtTransferQuery (db : DB) (wallet tag : option string)
    (startMs : option Z) (endMs : option Z) (limit : nat) : list Transfer :=
  take limit (merge_sort ts_le (filter (fun r => query_where wallet tag startMs endMs r = true)
                                       (transfers db))).

Definition key_eqb (k1 k2 : string * string * Z) : bool :=
  String.eqb k1.1.1 k2.1.1 && String.eqb k1.1.2 k2.1.2 && (k1.2 =? k2.2).

(** [INSERT OR IGNORE INTO inv_transfers]. *)
Definition stmtTransferInsert (row : Transfer) (rows : list Transfer) : list Transfer :=
  if existsb (fun r => key_eqb (tr_key r) (tr_key row)) rows then rows
  else rows ++ [row].

(** [stmtWalletSyncUpsert]; a row whose key is NULL can never be selected
    again and is left out. *)
Definition stmtWalletSyncUpsert (wallet : option string) (row : WalletSync) (db : DB) : DB :=
  match wallet with
  | Some w => set_wallet_sync <[w := row]> db
  | None => db
  end.

Definition getWalletSync (db : DB) (wallet : option string) : option WalletSync :=
  match wallet with
  | Some w => wallet_sync db !! w
  | None => None
  end.

Section Plugin.

(** [Address.parse(str).toRawString()] of [@ton/core] when the package
    could be loaded ([None] inside: the parse throws). *)
Variable Address : option (string -> option string).

(** The TONAPI key, from the environment or [config.yaml]. *)
Variable API_KEY : option string.

Definition RATE_LIMIT_MS : Z := if JS.truthy API_KEY then 1000 else 4000.

Definition normalizeAddress (addr : option string) : option string :=
  match addr with
  | None => None
  | Some a =>
      if JS.nonempty a then
        let str := JS.trim a in
        if JS.nonempty str then
          match Address with
          | Some parse =>
              match parse str with
              | Some raw => Some raw
              | None => Some (JS.toLowerCase str)
              end
          | None => Some (JS.toLowerCase str)
          end
        else None
      else None
  end.

Definition sameAddress (a b : option string) : bool :=
  match normalizeAddress a, normalizeAddress b with
  | Some na, Some nb => JS.nonempty na && JS.nonempty nb && String.eqb na nb
  | _, _ => false
  end.

(** *** Event source adapter *)

Definition tonapiFetch (rq : Request) : M (option (list Event)) :=
  fun w =>
    let now := w_now w in
    let elapsed := now - w_lastRequestTime w in
    let t0 := if elapsed <? RATE_LIMIT_MS then now + (RATE_LIMIT_MS - elapsed) else now in
    let sent rest t1 :=
      mkWorld (w_db w) t1 t0 rest (rq :: w_requests w) (w_rand w) (w_wallet_file w) in
    match w_net w with
    | [] => (Throw (error "fetch failed"), sent [] t0)
    | r :: rest =>
        if FETCH_TIMEOUT_MS <? Z.of_N (latency r) then
          (Throw (error "The operation was aborted due to timeout"),
           sent rest (t0 + FETCH_TIMEOUT_MS))
        else
        let w' := sent rest (t0 + Z.of_N (latency r)) in
        match reply r with
        | ReplyEvents evs => (Ok evs, w')
        | ReplyHttpError status text =>
            (Throw (mkErr ("TONAPI error: " +:+ JS.ofZ status +:+ " " +:+ JS.slice0 200 text)
                          (Some status)), w')
        | ReplyFailure msg => (Throw (error msg), w')
        end
    end.

Definition retryable (status : option Z) : bool :=
  match status with
  | None => true
  | Some s => existsb (Z.eqb s) [429; 500; 502; 503; 504; 522]
  end.

(** The [while (attempt < maxAttempts)] loop of [tonapiFetchWithRetry];
    [left] is [maxAttempts - attempt]. *)
Fixpoint retryLoop (rq : Request) (maxAttempts : Z) (left : nat) (attempt : Z)
    (lastErr : Err) : M (option (list Event)) :=
  match left with
  | O => throw lastErr
  | S left' =>
      try_catch (tonapiFetch rq) (fun err =>
        let attempt := attempt + 1 in
        if negb (retryable (err_status err)) || (attempt >=? maxAttempts)
        then throw err
        else
          _ ← sleep (300 * 2 ^ (attempt - 1));
          retryLoop rq maxAttempts left' attempt err)
  end.

Definition tonapiFetchWithRetry (rq : Request) : M (option (list Event)) :=
  retryLoop rq 3 3 0 (error "null").

(** *** Ingestion *)

(** One iteration of the loop over [actions]. *)
Definition ingestAction (wallet : option string) (eventId : option string)
    (ltVal : JS.Val) (tsMs : option Z) (nowIso : IsoTime) (i : Z) (action : Action)
    (rows : list Transfer) : list Transfer :=
  if negb (String.eqb (a_type action) "TonTransfer") then rows else
  match a_TonTransfer action with
  | None => rows
  | Some t =>
      let recipient := addr_of (t_recipient t) in
      if negb (sameAddress recipient wallet) then rows else
      let sender := addr_of (t_sender t) in
      let amount := JS.toStr (t_amount t) "0" in
      let comment := default "" (t_comment t) in
      let tag := commentTag (Some comment) in
      match wallet with
      | None => rows
      | Some w =>
          stmtTransferInsert
            (mkTransfer w
               (default (JS.toStr ltVal "ev" +:+ "_" +:+ JS.ofZ i) eventId)
               i
               (if JS.truthyVal ltVal then Some (JS.toStr ltVal "") else None)
               tsMs
               (normalizeAddress sender)
               (normalizeAddress recipient)
               (Some amount)
               (Some comment)
               tag
               nowIso)
            rows
      end
  end.

Fixpoint ingestActions (wallet : option string) (eventId : option string)
    (ltVal : JS.Val) (tsMs : option Z) (nowIso : IsoTime) (i : Z)
    (actions : list Action) (rows : list Transfer) : list Transfer :=
  match actions with
  | [] => rows
  | a :: rest =>
      ingestActions wallet eventId ltVal tsMs nowIso (i + 1) rest
        (ingestAction wallet eventId ltVal tsMs nowIso i a rows)
  end.

Definition ev_eventId (ev : Event) : option string :=
  JS.nullish (ev_event_id ev) (ev_id ev).
Definition ev_ltVal (ev : Event) : JS.Val :=
  JS.nullishVal (ev_lt ev) (ev_event_lt ev).
Definition ev_tsMs (ev : Event) : option Z :=
  eventTimeMs (JS.nullishVal (ev_timestamp ev) (JS.nullishVal (ev_utime ev) (ev_time ev))).

(** The running minima and maxima of [ingestEvents]. *)
Record Acc := mkAcc {
  minLt : option Z;
  maxLt : option Z;
  minTs : option Z;
  maxTs : option Z
}.

Definition accEvent (ev : Event) (a : Acc) : Acc :=
  let tsMs := ev_tsMs ev in
  let '(mnT, mxT) :=
    match tsMs with
    | Some t =>
        (Some (match minTs a with None => t | Some m => Z.min m t end),
         Some (match maxTs a with None => t | Some m => Z.max m t end))
    | None => (minTs a, maxTs a)
    end in
  let ltBig := toBigIntSafe (ev_ltVal ev) in
  let '(mnL, mxL) :=
    match ltBig with
    | Some _ => (minBigInt (minLt a) ltBig, maxBigInt (maxLt a) ltBig)
    | None => (minLt a, maxLt a)
    end in
  mkAcc mnL mxL mnT mxT.

(** The body of [for (const ev of events)]: rows inserted and statistics. *)
Fixpoint ingestLoop (wallet : option string) (nowIso : IsoTime) (events : list Event)
    (rows : list Transfer) (a : Acc) : list Transfer * Acc :=
  match events with
  | [] => (rows, a)
  | ev :: rest =>
      let rows' :=
        ingestActions wallet (ev_eventId ev) (ev_ltVal ev) (ev_tsMs ev) nowIso 0
          (default [] (ev_actions ev)) rows in
      ingestLoop wallet nowIso rest rows' (accEvent ev a)
  end.

Definition statsOf (a : Acc) : Stats :=
  mkStats (JS.ofZ <$> minLt a) (JS.ofZ <$> maxLt a) (minTs a) (maxTs a).

Definition ingestRows (wallet : option string) (nowIso : IsoTime) (events : list Event)
    (rows : list Transfer) : list Transfer :=
  (ingestLoop wallet nowIso events rows (mkAcc None None None None)).1.

Definition ingestEvents (wallet : option string) (events : list Event) : M Stats :=
  nowIso ← nowIso;
  db ← getDb;
  let '(rows, a) :=
    ingestLoop wallet nowIso events (transfers db) (mkAcc None None None None) in
  _ ← modifyDb (set_transfers (fun _ => rows));
  mret (statsOf a).

(** *** Watermark *)

Definition updateWalletSync (wallet : option string) (stats : Stats) : M unit :=
  db ← getDb;
  let current := getWalletSync db wallet in
  let maxLt := current ≫= max_lt in
  let minLt := current ≫= min_lt in
  let maxTs := current ≫= max_ts in
  let minTs := current ≫= min_ts in
  let maxLt := if JS.truthy (st_max_lt stats) then st_max_lt stats else maxLt in
  let minLt := if JS.truthy (st_min_lt stats) then st_min_lt stats else minLt in
  let maxTs := if JS.truthyOZ (st_max_ts stats) then st_max_ts stats else maxTs in
  let minTs := if JS.truthyOZ (st_min_ts stats) then st_min_ts stats else minTs in
  now ← Date_now;
  modifyDb (stmtWalletSyncUpsert wallet (mkWalletSync (Some now) maxLt minLt maxTs minTs)).

(** *** Matcher over the cache *)

(** The test a row passes in the loop of [queryCachedTransfer]. *)
Definition row_passes (minAmountNano : Z) (expectedSender : option string)
    (strictSender : bool) (row : Transfer) : bool :=
  match toBigIntSafeText (tr_amount_nano row) with
  | None => false
  | Some amountVal =>
      if amountVal <? minAmountNano then false
      else if JS.truthy expectedSender && strictSender
              && negb (sameAddress (tr_sender row) expectedSender) then false
      else true
  end.

Fixpoint firstPassing (minAmountNano : Z) (expectedSender : option string)
    (strictSender : bool) (rows : list Transfer) : option Transfer :=
  match rows with
  | [] => None
  | row :: rest =>
      if row_passes minAmountNano expectedSender strictSender row then Some row
      else firstPassing minAmountNano expectedSender strictSender rest
  end.

Definition queryCachedTransfer (db : DB) (wallet tag : option string)
    (startMs : option Z) (endMs : option Z) (minAmountNano : Z)
    (expectedSender : option string) (strictSender : bool) : option Transfer :=
  firstPassing minAmountNano expectedSender strictSender
    (stmtTransferQuery db wallet tag startMs endMs 50).

(** *** Sync engine *)

(** [String(b)] of a nullable BigInt. *)
Definition strOfBig (b : option Z) : string :=
  match b with Some z => JS.ofZ z | None => "null" end.

(** The four statistics updates both sync loops share. *)
Definition mergeStats (stats pageStats : Stats) : Stats :=
  mkStats
    (if JS.truthy (st_min_lt pageStats) then
       if JS.truthy (st_min_lt stats)
       then Some (strOfBig (minBigInt (toBigIntSafeText (st_min_lt stats))
                                      (toBigIntSafeText (st_min_lt pageStats))))
       else st_min_lt pageStats
     else st_min_lt stats)
    (if JS.truthy (st_max_lt pageStats) then
       if JS.truthy (st_max_lt stats)
       then Some (strOfBig (maxBigInt (toBigIntSafeText (st_max_lt stats))
                                      (toBigIntSafeText (st_max_lt pageStats))))
       else st_max_lt pageStats
     else st_max_lt stats)
    (match st_min_ts pageStats with
     | Some p => match st_min_ts stats with
                 | Some s => if JS.truthyZ s then Some (Z.min s p) else Some p
                 | None => Some p
                 end
     | None => st_min_ts stats
     end)
    (match st_max_ts pageStats with
     | Some p => match st_max_ts stats with
                 | Some s => if JS.truthyZ s then Some (Z.max s p) else Some p
                 | None => Some p
                 end
     | None => st_max_ts stats
     end).

Definition emptyStats : Stats := mkStats None None None None.

Definition date_param (ms : option Z) : option Z :=
  match ms with
  | Some t => if JS.truthyZ t then Some (t / 1000) else None
  | None => None
  end.

Definition lenZ {A} (l : list A) : Z := Z.of_nat (length l).

(** The [while (page < EVENT_MAX_PAGES_NEW)] loop; [pages] is what is left
    of the page budget. *)
Fixpoint syncNewLoop (wallet : option string) (startMs endMs : option Z) (pages : nat)
    (afterLt : option string) (anyEvents : Z) (stats : Stats) : M (Z * Stats) :=
  match pages with
  | O => mret (anyEvents, stats)
  | S pages' =>
      let asc := JS.truthy afterLt in
      let rq := mkRequest wallet (if asc then "asc" else "desc")
                  (if asc then afterLt else None) None
                  (date_param startMs) (date_param endMs) in
      data ← tonapiFetchWithRetry rq;
      let events := default [] data in
      if lenZ events =? 0 then mret (anyEvents, stats) else
      pageStats ← ingestEvents wallet events;
      let afterLt := if JS.truthy (st_max_lt pageStats) then st_max_lt pageStats else afterLt in
      let stats := mergeStats stats pageStats in
      let anyEvents := anyEvents + lenZ events in
      if negb (JS.truthy afterLt) then mret (anyEvents, stats)
      else if lenZ events <? EVENT_PAGE_LIMIT then mret (anyEvents, stats)
      else syncNewLoop wallet startMs endMs pages' afterLt anyEvents stats
  end.

Definition syncNewEvents (wallet : option string) (startMs endMs : option Z) : M Z :=
  db ← getDb;
  let afterLt := getWalletSync db wallet ≫= max_lt in
  '(anyEvents, stats) ← syncNewLoop wallet startMs endMs EVENT_MAX_PAGES_NEW afterLt 0 emptyStats;
  _ ← (if 0 <? anyEvents then updateWalletSync wallet stats else mret tt);
  mret anyEvents.

(** The [while (page < EVENT_MAX_PAGES_OLD)] loop. *)
Fixpoint syncOlderLoop (wallet : option string) (startMs endMs : option Z) (pages : nat)
    (beforeLt : option string) (anyEvents : Z) (stats : Stats) : M (Z * Stats) :=
  match pages with
  | O => mret (anyEvents, stats)
  | S pages' =>
      let rq := mkRequest wallet "desc" None beforeLt
                  (date_param startMs) (date_param endMs) in
      data ← tonapiFetchWithRetry rq;
      let events := default [] data in
      if lenZ events =? 0 then mret (anyEvents, stats) else
      pageStats ← ingestEvents wallet events;
      let beforeLt := if JS.truthy (st_min_lt pageStats) then st_min_lt pageStats else beforeLt in
      let stats := mergeStats stats pageStats in
      let anyEvents := anyEvents + lenZ events in
      let reached :=
        match st_min_ts pageStats, startMs with
        | Some m, Some s => JS.truthyZ m && JS.truthyZ s && (m <=? s)
        | _, _ => false
        end in
      if reached then mret (anyEvents, stats)
      else if lenZ events <? EVENT_PAGE_LIMIT then mret (anyEvents, stats)
      else if negb (JS.truthy beforeLt) then mret (anyEvents, stats)
      else syncOlderLoop wallet startMs endMs pages' beforeLt anyEvents stats
  end.

Definition syncOlderEvents (wallet : option string) (startMs endMs : option Z) : M Z :=
  db ← getDb;
  let beforeLt := getWalletSync db wallet ≫= min_lt in
  if negb (JS.truthy beforeLt) then mret 0 else
  '(anyEvents, stats) ← syncOlderLoop wallet startMs endMs EVENT_MAX_PAGES_OLD beforeLt 0 emptyStats;
  _ ← (if 0 <? anyEvents then updateWalletSync wallet stats else mret tt);
  mret anyEvents.

(** *** Matcher with sync on miss *)

Record Criteria := mkCriteria {
  c_tag : option string;
  c_minAmountNano : Z;
  c_expectedSender : option string;
  c_strictSender : bool;
  c_startMs : option Z;
  c_endMs : option Z
}.

Record Found := mkFound {
  f_match : option Transfer;
  f_source : string
}.

Definition cached (wallet : option string) (c : Criteria) : M (option Transfer) :=
  db ← getDb;
  mret (queryCachedTransfer db wallet (c_tag c) (c_startMs c) (c_endMs c)
          (c_minAmountNano c) (c_expectedSender c) (c_strictSender c)).

Definition findTransferWithSync (wallet : option string) (c : Criteria) : M Found :=
  hit ← cached wallet c;
  match hit with
  | Some row => mret (mkFound (Some row) "cache")
  | None =>
      db ← getDb;
      now ← Date_now;
      let throttled :=
        match getWalletSync db wallet ≫= last_sync_at with
        | Some l => JS.truthyZ l && (now - l <? SYNC_MIN_INTERVAL_MS)
        | None => false
        end in
      if throttled then mret (mkFound None "throttled") else
      _ ← syncNewEvents wallet (c_startMs c) (c_endMs c);
      hitNew ← cached wallet c;
      match hitNew with
      | Some row => mret (mkFound (Some row) "sync_new")
      | None =>
          db ← getDb;
          let shouldFetchOlder :=
            match getWalletSync db wallet ≫= min_ts with
            | Some m =>
                negb (JS.truthyZ m) ||
                match c_startMs c with
                | Some s => JS.truthyZ s && (m >? s)
                | None => false
                end
            | None => true
            end in
          _ ← (if shouldFetchOlder
               then _ ← syncOlderEvents wallet (c_startMs c) (c_endMs c); mret tt
               else mret tt);
          hitOld ← cached wallet c;
          match hitOld with
          | Some row => mret (mkFound (Some row) "sync_old")
          | None => mret (mkFound None "not_found")
          end
      end
  end.

(* ==================================================================== *)
(** ** Tools *)
(* ==================================================================== *)

(** The [data] objects the tools return, one constructor per shape. *)
Inductive Data :=
| BeginData (agent_id wallet_address status challenge_tag amount_ton amount_nano
             recipient_wallet : string) (created_at expires_at : IsoTime) (links : Links)
| AgentVerifiedData (agent_id status : string) (wallet_address : option string)
    (verified_at : option IsoTime) (proof_event_id : option string)
| AgentExpiredData (agent_id : string) (challenge_expires_at : option IsoTime)
| AgentWaitingData (agent_id status : string) (expected_wallet challenge_tag : option string)
| AgentNowVerifiedData (agent_id : string) (wallet_address : option string)
    (verified_at : IsoTime) (proof_event_id : string) (proof_sender_wallet : option string)
| InvoiceCreatedData (invoice_id : string) (inv : Invoice) (identity_level : string)
    (links : Links)
| InvoicePaidData (invoice_id status : string) (paid_at : option IsoTime)
    (tx_event_id tx_sender_wallet tx_amount_ton : option string)
| InvoiceExpiredData (invoice_id : string) (expires_at : option IsoTime)
| InvoiceMissingData (invoice_id status : string) (strict_sender : bool)
    (expected_sender_wallet : option string) (cache_source : string)
| InvoiceNowPaidData (invoice_id : string) (paid_at : IsoTime) (tx_event_id : string)
    (tx_sender_wallet tx_amount_ton : option string) (identity_level : string)
    (strict_sender : bool) (cache_source : string)
| ReceiptData (invoice_id : string) (inv : Invoice) (identity_level : string).

(** The [status] field of a [data] object. *)
Definition data_status (d : Data) : string :=
  match d with
  | BeginData _ _ st _ _ _ _ _ _ _ => st
  | AgentVerifiedData _ st _ _ _ => st
  | AgentExpiredData _ _ => "expired"
  | AgentWaitingData _ st _ _ => st
  | AgentNowVerifiedData _ _ _ _ _ => "verified"
  | InvoiceCreatedData _ _ _ _ => "pending"
  | InvoicePaidData _ st _ _ _ _ => st
  | InvoiceExpiredData _ _ => "expired"
  | InvoiceMissingData _ st _ _ _ => st
  | InvoiceNowPaidData _ _ _ _ _ _ _ _ => "paid"
  | ReceiptData _ inv _ => inv_status inv
  end.

Inductive ToolResult :=
| Success (data : Data)           (* { success: true, data } *)
| Failure (error : string).       (* { success: false, error } *)

(** [String(err.message || err).slice(0, 500)]. *)
Definition catchMessage (e : Err) : string :=
  JS.slice0 500 (if JS.nonempty (err_message e) then err_message e else "Error").

(** The outer [try { ... } catch (err) { return { success: false, ... } }]. *)
Definition run_tool (body : M ToolResult) (w : World) : ToolResult * World :=
  match body w with
  | (Ok r, w') => (r, w')
  | (Throw e, w') => (Failure (catchMessage e), w')
  end.

(** The prologue every tool shares: access policy, then rate limit. *)
Definition guarded (toolName : string) (ctx : Context) (body : M ToolResult) : M ToolResult :=
  match assertAccess ctx toolName with
  | AccessDenied e => mret (Failure e)
  | AccessOk _ =>
      rl ← checkRateLimit (default 0 (senderId ctx)) toolName
             (getRateLimitConfig ctx toolName);
      match rl with
      | Rejected ms =>
          mret (Failure ("Rate limit exceeded. Retry in " +:+ JS.ofZ ms +:+ "ms."))
      | Allowed _ => body
      end
  end.

Definition liftNano (r : string + string) : M string :=
  match r with
  | inr s => mret s
  | inl msg => throw (error msg)
  end.

(** [BigInt(text)] outside a [try]. *)
Definition BigIntOrThrow (s : string) : M Z :=
  match JS.StringToBigInt s with
  | Some z => mret z
  | None => throw (error ("Cannot convert " +:+ s +:+ " to a BigInt"))
  end.

Definition trimOr (o : option string) : string := JS.trim (default "" o).

(** *** inv_begin_verification (and its alias inv_register_agent) *)

Record BeginParams := mkBeginParams {
  bp_agent_id : option string;
  bp_wallet_address : option string;
  bp_amount_ton : option string;
  bp_expires_in_minutes : option Z
}.

(** [stmtAgentUpsert]: insert, or overwrite every column on conflict. *)
Definition stmtAgentUpsert (agentId : string) (row : Agent) (db : DB) : DB :=
  set_agents <[agentId := row]> db.

Definition invBeginVerification_body (params : BeginParams) : M ToolResult :=
  let agentId := trimOr (bp_agent_id params) in
  let wallet := trimOr (bp_wallet_address params) in
  if negb (JS.nonempty agentId) then mret (Failure "agent_id is required") else
  if negb (JS.nonempty wallet) then mret (Failure "wallet_address is required") else
  if (64 <? Z.of_nat (String.length agentId)) then
    mret (Failure "agent_id is too long (max 64)") else
  let amountTon :=
    if JS.truthy (bp_amount_ton params) then trimOr (bp_amount_ton params)
    else VERIFY_DEFAULT_TON in
  amountNano ← liftNano (toNanoString (Some amountTon));
  code ← randomHex 4;
  let challengeTag := buildVerificationTag agentId code in
  now ← nowIso;
  let ttl := default VERIFY_TTL_MINUTES (bp_expires_in_minutes params) in
  ms ← Date_now;
  expiresAt ← isoOf (ms + ttl * 60000);
  _ ← modifyDb (stmtAgentUpsert agentId
         (mkAgent (Some wallet) "pending" (Some challengeTag) (Some amountTon)
                  (Some amountNano) (Some now) (Some expiresAt) None None None now));
  recipient ← getAgentWalletAddress;
  let links := buildLinks recipient amountNano challengeTag in
  mret (Success (BeginData agentId wallet "pending" challengeTag amountTon amountNano
                   recipient now expiresAt links)).

Definition invBeginVerification (params : BeginParams) (ctx : Context)
    : World -> ToolResult * World :=
  run_tool (guarded "inv_begin_verification" ctx (invBeginVerification_body params)).

(** [invRegisterAgent.execute] is [invBeginVerification.execute] itself. *)
Definition invRegisterAgent := invBeginVerification.

(** *** inv_confirm_verification *)

(** [parseIso(x) && Date.now() > parseIso(x)]. *)
Definition pastExpiry (expires_at : option IsoTime) (now : Z) : bool :=
  match parseIso expires_at with
  | Some e => JS.truthyZ e && (now >? e)
  | None => false
  end.

(** [stmtAgentVerify]. *)
Definition stmtAgentVerify (verifiedAt : IsoTime) (eventId : string)
    (sender : option string) (now : IsoTime) (agentId : string) (db : DB) : DB :=
  set_agents (alter (fun a =>
    mkAgent (ag_wallet_address a) "verified" (ag_challenge_tag a)
            (ag_challenge_amount_ton a) (ag_challenge_amount_nano a)
            (ag_challenge_created_at a) (ag_challenge_expires_at a)
            (Some verifiedAt) (Some eventId) sender now) agentId) db.

(** [match.timestamp ? new Date(Number(match.timestamp) * 1000).toISOString()
                      : new Date().toISOString()]. *)
Definition matchTime (row : Transfer) : M IsoTime :=
  match tr_timestamp row with
  | Some t => if JS.truthyZ t then isoOf (t * 1000) else nowIso
  | None => nowIso
  end.

Definition invConfirmVerification_body (agent_id : option string) : M ToolResult :=
  let agentId := trimOr agent_id in
  if negb (JS.nonempty agentId) then mret (Failure "agent_id is required") else
  db ← getDb;
  match agents db !! agentId with
  | None => mret (Failure ("agent_id " +:+ agentId +:+ " not found"))
  | Some agent =>
      if String.eqb (ag_status agent) "verified" then
        mret (Success (AgentVerifiedData agentId (ag_status agent) (ag_wallet_address agent)
                         (ag_verified_at agent) (ag_proof_event_id agent)))
      else
      now ← Date_now;
      if pastExpiry (ag_challenge_expires_at agent) now then
        mret (Success (AgentExpiredData agentId (ag_challenge_expires_at agent)))
      else
      file ← getAgentWalletAddress;
      let recipient := normalizeAddress (Some file) in
      let tag := ag_challenge_tag agent in
      amountNanoMin ← BigIntOrThrow (default "0" (ag_challenge_amount_nano agent));
      let startMs := parseIso (ag_challenge_created_at agent) in
      now ← Date_now;
      let endMs := default now (parseIso (ag_challenge_expires_at agent)) in
      result ← findTransferWithSync recipient
                 (mkCriteria tag amountNanoMin (ag_wallet_address agent) true
                             startMs (Some endMs));
      match f_match result with
      | None =>
          let status :=
            if String.eqb (f_source result) "throttled" then "throttled" else "pending" in
          mret (Success (AgentWaitingData agentId status (ag_wallet_address agent) tag))
      | Some row =>
          verifiedAt ← matchTime row;
          now ← nowIso;
          _ ← modifyDb (stmtAgentVerify verifiedAt (tr_event_id row) (tr_sender row)
                          now agentId);
          mret (Success (AgentNowVerifiedData agentId (ag_wallet_address agent) verifiedAt
                           (tr_event_id row) (tr_sender row)))
      end
  end.

Definition invConfirmVerification (agent_id : option string) (ctx : Context)
    : World -> ToolResult * World :=
  run_tool (guarded "inv_confirm_verification" ctx (invConfirmVerification_body agent_id)).

(** *** inv_create *)

Record CreateParams := mkCreateParams {
  cp_amount_ton : option string;
  cp_description : option string;
  cp_payer_agent : option string;
  cp_payer_wallet : option string;
  cp_recipient_wallet : option string;
  cp_expires_in_minutes : option Z;
  cp_invoice_id : option string;
  cp_strict_sender : option bool;
  cp_allow_unverified_payer : option bool
}.

(** [p ? String(p).trim() : null]. *)
Definition trimmedOrNull (o : option string) : option string :=
  if JS.truthy o then Some (trimOr o) else None.

(** [stmtInvoiceInsert]; [recipient_wallet] is NOT NULL. *)
Definition stmtInvoiceInsert (invoiceId : string) (created : IsoTime)
    (expires : option IsoTime) (amountTon amountNano : string) (recipient : option string)
    (expectedSender payerAgent : option string) (payerVerified : Z)
    (description : option string) (comment : string) (strict : bool) : M Invoice :=
  match recipient with
  | None => throw (error "NOT NULL constraint failed: inv_invoices.recipient_wallet")
  | Some r =>
      let inv := mkInvoice created expires amountTon amountNano r expectedSender payerAgent
                   (Some payerVerified) description comment "pending"
                   (Some (if strict then 1 else 0)) None None None None None None in
      _ ← modifyDb (set_invoices <[invoiceId := inv]>);
      mret inv
  end.

(** What the [if (payerAgent)] block decides. *)
Inductive PayerCheck :=
| PayerReject (error : string)
| PayerAccept (expectedSender : option string) (payerVerified : Z) (strictSender : bool).

Definition checkPayer (db : DB) (payerAgent payerWallet : option string)
    (allowUnverified strictSender : bool) : PayerCheck :=
  let expectedSender := if JS.truthy payerWallet then payerWallet else None in
  match payerAgent with
  | Some pa =>
      if JS.nonempty pa then
        let verifiedRow :=
          match agents db !! pa with
          | Some row =>
              if String.eqb (ag_status row) "verified" && JS.truthy (ag_wallet_address row)
              then Some row else None
          | None => None
          end in
        match verifiedRow with
        | Some row =>
            if JS.truthy payerWallet && negb (sameAddress payerWallet (ag_wallet_address row))
            then PayerReject "payer_wallet does not match verified agent wallet"
            else PayerAccept (normalizeAddress (ag_wallet_address row)) 1 strictSender
        | None =>
            if negb (JS.truthy payerWallet) then
              if negb allowUnverified then
                PayerReject "payer_agent is not verified. Run inv_begin_verification first or set allow_unverified_payer=true."
              else PayerAccept expectedSender 0 false
            else PayerAccept expectedSender 0 strictSender
        end
      else PayerAccept expectedSender 0 strictSender
  | None => PayerAccept expectedSender 0 strictSender
  end.

Definition identityLevelOf (expectedSender : option string) (payerVerified : bool) : string :=
  if JS.truthy expectedSender then
    if payerVerified then "wallet_verified" else "wallet"
  else "comment_only".

Definition invCreate_body (params : CreateParams) : M ToolResult :=
  amountNano ← liftNano (toNanoString (cp_amount_ton params));
  let amountTon := trimOr (cp_amount_ton params) in
  recipient ← (if JS.truthy (cp_recipient_wallet params)
               then mret (normalizeAddress (Some (trimOr (cp_recipient_wallet params))))
               else file ← getAgentWalletAddress; mret (normalizeAddress (Some file)));
  let payerAgent := trimmedOrNull (cp_payer_agent params) in
  let payerWallet :=
    if JS.truthy (cp_payer_wallet params)
    then normalizeAddress (Some (trimOr (cp_payer_wallet params))) else None in
  let allowUnverified := default false (cp_allow_unverified_payer params) in
  db ← getDb;
  match checkPayer db payerAgent payerWallet allowUnverified
          (default true (cp_strict_sender params)) with
  | PayerReject e => mret (Failure e)
  | PayerAccept expectedSender payerVerified strictSender =>
      if strictSender && negb (JS.truthy expectedSender) then
        mret (Failure "strict_sender requires payer_wallet or verified payer_agent")
      else
      invoiceId ← (if JS.truthy (cp_invoice_id params)
                   then mret (trimOr (cp_invoice_id params))
                   else hex ← randomHex 8; mret (buildInvoiceId hex));
      if negb (JS.nonempty invoiceId) then mret (Failure "invoice_id is invalid") else
      db ← getDb;
      if bool_decide (is_Some (invoices db !! invoiceId)) then
        mret (Failure ("invoice_id " +:+ invoiceId +:+ " already exists"))
      else
      let comment := buildInvoiceComment invoiceId payerAgent in
      now ← nowIso;
      expiresAt ← (match cp_expires_in_minutes params with
                   | Some n =>
                       if JS.truthyZ n
                       then ms ← Date_now; t ← isoOf (ms + n * 60000); mret (Some t)
                       else mret None
                   | None => mret None
                   end);
      inv ← stmtInvoiceInsert invoiceId now expiresAt amountTon amountNano recipient
              expectedSender payerAgent payerVerified
              (trimmedOrNull (cp_description params)) comment strictSender;
      let links := buildLinks (inv_recipient_wallet inv) amountNano comment in
      let identityLevel :=
        if JS.truthy expectedSender then
          if payerVerified =? 1 then "wallet_verified" else "wallet"
        else if negb (JS.truthy payerAgent) && negb strictSender then "none"
        else "comment_only" in
      mret (Success (InvoiceCreatedData invoiceId inv identityLevel links))
  end.

Definition invCreate (params : CreateParams) (ctx : Context)
    : World -> ToolResult * World :=
  run_tool (guarded "inv_create" ctx (invCreate_body params)).

(** *** inv_check *)

Definition stmtInvoiceUpdateStatus (status : string) (invoiceId : string) (db : DB) : DB :=
  set_invoices (alter (fun i =>
    mkInvoice (inv_created_at i) (inv_expires_at i) (inv_amount_ton i) (inv_amount_nano i)
      (inv_recipient_wallet i) (inv_expected_sender_wallet i) (inv_payer_agent i)
      (inv_payer_agent_verified i) (inv_description i) (inv_comment i) status
      (inv_strict_sender i) (inv_paid_at i) (inv_tx_event_id i) (inv_tx_sender_wallet i)
      (inv_tx_amount_nano i) (inv_tx_amount_ton i) (inv_last_checked_at i)) invoiceId) db.

Definition stmtInvoiceUpdateLastCheck (at_ : IsoTime) (invoiceId : string) (db : DB) : DB :=
  set_invoices (alter (fun i =>
    mkInvoice (inv_created_at i) (inv_expires_at i) (inv_amount_ton i) (inv_amount_nano i)
      (inv_recipient_wallet i) (inv_expected_sender_wallet i) (inv_payer_agent i)
      (inv_payer_agent_verified i) (inv_description i) (inv_comment i) (inv_status i)
      (inv_strict_sender i) (inv_paid_at i) (inv_tx_event_id i) (inv_tx_sender_wallet i)
      (inv_tx_amount_nano i) (inv_tx_amount_ton i) (Some at_)) invoiceId) db.

Definition stmtInvoiceMarkPaid (paidAt : IsoTime) (eventId : string)
    (sender amountNano amountTon : option string) (invoiceId : string) (db : DB) : DB :=
  set_invoices (alter (fun i =>
    mkInvoice (inv_created_at i) (inv_expires_at i) (inv_amount_ton i) (inv_amount_nano i)
      (inv_recipient_wallet i) (inv_expected_sender_wallet i) (inv_payer_agent i)
      (inv_payer_agent_verified i) (inv_description i) (inv_comment i) "paid"
      (inv_strict_sender i) (Some paidAt) (Some eventId) sender amountNano amountTon
      (inv_last_checked_at i)) invoiceId) db.

Definition invCheck_body (invoice_id : option string) : M ToolResult :=
  let invoiceId := trimOr invoice_id in
  if negb (JS.nonempty invoiceId) then mret (Failure "invoice_id is required") else
  db ← getDb;
  match invoices db !! invoiceId with
  | None => mret (Failure ("invoice_id " +:+ invoiceId +:+ " not found"))
  | Some invoice =>
      if String.eqb (inv_status invoice) "paid" then
        mret (Success (InvoicePaidData invoiceId (inv_status invoice) (inv_paid_at invoice)
                         (inv_tx_event_id invoice) (inv_tx_sender_wallet invoice)
                         (inv_tx_amount_ton invoice)))
      else
      now ← Date_now;
      if pastExpiry (inv_expires_at invoice) now then
        _ ← modifyDb (stmtInvoiceUpdateStatus "expired" invoiceId);
        mret (Success (InvoiceExpiredData invoiceId (inv_expires_at invoice)))
      else
      let strictSender := bool_decide (inv_strict_sender invoice = Some 1) in
      if strictSender && negb (JS.truthy (inv_expected_sender_wallet invoice)) then
        mret (Failure "invoice is missing expected_sender_wallet")
      else
      let tag := "INV#" +:+ invoiceId in
      amountNanoMin ← BigIntOrThrow (inv_amount_nano invoice);
      let startMs := default 0 (parseIso (Some (inv_created_at invoice))) in
      now ← Date_now;
      let endMs := default now (parseIso (inv_expires_at invoice)) in
      result ← findTransferWithSync (Some (inv_recipient_wallet invoice))
                 (mkCriteria (Some tag) amountNanoMin (inv_expected_sender_wallet invoice)
                             strictSender (Some startMs) (Some endMs));
      at_ ← nowIso;
      _ ← modifyDb (stmtInvoiceUpdateLastCheck at_ invoiceId);
      match f_match result with
      | None =>
          let status :=
            if String.eqb (f_source result) "throttled" then "throttled" else "not_found" in
          mret (Success (InvoiceMissingData invoiceId status strictSender
                           (inv_expected_sender_wallet invoice) (f_source result)))
      | Some row =>
          paidAt ← matchTime row;
          let paidAmountTon := formatTon (tr_amount_nano row) in
          _ ← modifyDb (stmtInvoiceMarkPaid paidAt (tr_event_id row) (tr_sender row)
                          (tr_amount_nano row) paidAmountTon invoiceId);
          let identityLevel :=
            identityLevelOf (inv_expected_sender_wallet invoice)
              (bool_decide (inv_payer_agent_verified invoice = Some 1)) in
          mret (Success (InvoiceNowPaidData invoiceId paidAt (tr_event_id row) (tr_sender row)
                           paidAmountTon identityLevel strictSender (f_source result)))
      end
  end.

Definition invCheck (invoice_id : option string) (ctx : Context)
    : World -> ToolResult * World :=
  run_tool (guarded "inv_check" ctx (invCheck_body invoice_id)).

(** *** inv_receipt *)

Definition invReceipt_body (invoice_id : option string) : M ToolResult :=
  let invoiceId := trimOr invoice_id in
  if negb (JS.nonempty invoiceId) then mret (Failure "invoice_id is required") else
  db ← getDb;
  match invoices db !! invoiceId with
  | None => mret (Failure ("invoice_id " +:+ invoiceId +:+ " not found"))
  | Some invoice =>
      if negb (String.eqb (inv_status invoice) "paid") then
        mret (Failure ("invoice_id " +:+ invoiceId +:+ " is not paid (status: "
                       +:+ inv_status invoice +:+ ")"))
      else
        mret (Success (ReceiptData invoiceId invoice
                (identityLevelOf (inv_expected_sender_wallet invoice)
                   (bool_decide (inv_payer_agent_verified invoice = Some 1)))))
  end.

Definition invReceipt (invoice_id : option string) (ctx : Context)
    : World -> ToolResult * World :=
  run_tool (guarded "inv_receipt" ctx (invReceipt_body invoice_id)).

(** *** The tool surface: one call, and sequences of calls *)

Inductive Call :=
| CallBeginVerification (params : BeginParams) (ctx : Context)
| CallRegisterAgent (params : BeginParams) (ctx : Context)
| CallConfirmVerification (agent_id : option string) (ctx : Context)
| CallCreate (params : CreateParams) (ctx : Context)
| CallCheck (invoice_id : option string) (ctx : Context)
| CallReceipt (invoice_id : option string) (ctx : Context).

Definition execute (c : Call) : World -> ToolResult * World :=
  match c with
  | CallBeginVerification p ctx => invBeginVerification p ctx
  | CallRegisterAgent p ctx => invRegisterAgent p ctx
  | CallConfirmVerification a ctx => invConfirmVerification a ctx
  | CallCreate p ctx => invCreate p ctx
  | CallCheck i ctx => invCheck i ctx
  | CallReceipt i ctx => invReceipt i ctx
  end.

(** Between two calls everything but the database may change: the clock,
    what the indexer will answer, the random source, the wallet file. *)
Definition same_db (w w' : World) : Prop := w_db w = w_db w'.

(** [w'] is the world after one tool call made in some world that has the
    database of [w]. *)
Inductive step (w w' : World) : Prop :=
| step_call (c : Call) (w0 : World) :
    same_db w w0 -> w' = (execute c w0).2 -> step w w'.

Inductive steps : World -> World -> Prop :=
| steps_refl w : steps w w
| steps_next w w' w'' : steps w w' -> step w' w'' -> steps w w''.

End Plugin.

(* ====================================================================== *)
(** * Vocabulary of the properties *)
(* ====================================================================== *)

Section Vocabulary.

Context (Address : option (string -> option string)) (API_KEY : option string).

(** The same world with the clock reading [t]. *)
Definition at_time (t : Z) (w : World) : World :=
  mkWorld (w_db w) t (w_lastRequestTime w) (w_net w) (w_requests w) (w_rand w)
          (w_wallet_file w).

(** The same world over another database. *)
Definition with_db (db : DB) (w : World) : World :=
  mkWorld db (w_now w) (w_lastRequestTime w) (w_net w) (w_requests w) (w_rand w)
          (w_wallet_file w).

(** The constraints of a query, as the specification words them: the tag,
    the time window, the minimum amount and, in strict mode with an
    expected sender, the sender. *)
Definition qualifies (wallet tag : string) (startMs endMs minAmountNano : Z)
    (expectedSender : option string) (strictSender : bool) (r : Transfer) : Prop :=
  tr_wallet r = wallet ∧
  tr_comment_tag r = Some tag ∧
  (∃ t, tr_timestamp r = Some t ∧ startMs ≤ t ≤ endMs) ∧
  (∃ a, toBigIntSafeText (tr_amount_nano r) = Some a ∧ minAmountNano ≤ a) ∧
  (strictSender = true → JS.truthy expectedSender = true →
     sameAddress Address (tr_sender r) expectedSender = true).

(** The key of the counter of a (tool, caller). *)
Definition rate_key (toolName : string) (sender : Z) : string :=
  toolName +:+ ":" +:+ JS.ofZ sender.

(** Calls of [checkRateLimit] for one (tool, caller) arriving at the given
    clock readings, one after the other. *)
Fixpoint rate_calls (sender : Z) (toolName : string) (cfg : RateCfg) (times : list Z)
    (w : World) : list (Res RateResult) * World :=
  match times with
  | [] => ([], w)
  | t :: rest =>
      let r := checkRateLimit sender toolName cfg (at_time t w) in
      let rs := rate_calls sender toolName cfg rest r.2 in
      (r.1 :: rs.1, rs.2)
  end.

(** The call returned and was let through. *)
Definition is_allowed (r : Res RateResult) : Prop :=
  match r with Ok (Allowed _) => True | _ => False end.

(** A row with key [k] is cached. *)
Definition present (k : string * string * Z) (rows : list Transfer) : bool :=
  existsb (λ r, key_eqb (tr_key r) k) rows.

(** The primary key [ingestAction] tries to insert, when it inserts. *)
Definition action_key (wallet eventId : option string) (ltVal : JS.Val) (i : Z)
    (action : Action) : option (string * string * Z) :=
  if negb (String.eqb (a_type action) "TonTransfer") then None else
  match a_TonTransfer action with
  | None => None
  | Some t =>
      if negb (sameAddress Address (addr_of (t_recipient t)) wallet) then None else
      match wallet with
      | None => None
      | Some w => Some (w, default (JS.toStr ltVal "ev" +:+ "_" +:+ JS.ofZ i) eventId, i)
      end
  end.

(** The keys a run over [actions], numbered from [i], tries to insert. *)
Fixpoint keys_actions (wallet eventId : option string) (ltVal : JS.Val) (i : Z)
    (actions : list Action) : list (string * string * Z) :=
  match actions with
  | [] => []
  | a :: rest =>
      match action_key wallet eventId ltVal i a with
      | Some k => [k]
      | None => []
      end ++ keys_actions wallet eventId ltVal (i + 1) rest
  end.

(** The keys one event tries to insert. *)
Definition keys_event (wallet : option string) (ev : Event) : list (string * string * Z) :=
  keys_actions wallet (ev_eventId ev) (ev_ltVal ev) 0 (default [] (ev_actions ev)).

(** Every key of [ks] is cached. *)
Definition covered (ks : list (string * string * Z)) (rows : list Transfer) : Prop :=
  Forall (λ k, present k rows = true) ks.

(** The cache with the rows that have no timestamp taken out. *)
Definition without_null_timestamps (db : DB) : DB :=
  set_transfers (filter (λ r, is_Some (tr_timestamp r))) db.

(** The shapes of result that report a fresh match. *)
Definition fresh_match (res : ToolResult) : Prop :=
  match res with
  | Success (InvoiceNowPaidData _ _ _ _ _ _ _ _) => True
  | Success (AgentNowVerifiedData _ _ _ _ _) => True
  | _ => False
  end.

(** The row a fresh "paid" or "verified" result was settled by. *)
Definition settled_by (res : ToolResult) (row : Transfer) : Prop :=
  match res with
  | Success (InvoiceNowPaidData _ _ ev snd amt _ _ _) =>
      tr_event_id row = ev ∧ tr_sender row = snd ∧ formatTon (tr_amount_nano row) = amt
  | Success (AgentNowVerifiedData _ _ _ ev snd) =>
      tr_event_id row = ev ∧ tr_sender row = snd
  | _ => False
  end.

(** A fresh match was settled by a row that has a timestamp. *)
Definition settled_with_timestamp (res : ToolResult) : Prop :=
  fresh_match res → ∃ row t, settled_by res row ∧ tr_timestamp row = Some t.

(** A transfer that the matcher hands back was found by
    [queryCachedTransfer] in some state of the cache. *)
Definition from_cache (wallet : option string) (c : Criteria) (row : Transfer) : Prop :=
  ∃ db, queryCachedTransfer Address db wallet (c_tag c) (c_startMs c) (c_endMs c)
          (c_minAmountNano c) (c_expectedSender c) (c_strictSender c) = Some row.

(** The call is let through by the access policy and the rate limiter. *)
Definition guards_pass (toolName : string) (ctx : Context) (w : World) : bool :=
  match assertAccess ctx toolName with
  | AccessOk _ =>
      match (checkRateLimit (default 0 (senderId ctx)) toolName
               (getRateLimitConfig ctx toolName) w).1 with
      | Ok (Allowed _) => true
      | _ => false
      end
  | AccessDenied _ => false
  end.

(** The world the body of a tool starts in: the rate counter is updated. *)
Definition after_rate (toolName : string) (ctx : Context) (w : World) : World :=
  (checkRateLimit (default 0 (senderId ctx)) toolName (getRateLimitConfig ctx toolName) w).2.

(** The invoice [id] is stored as [inv]. *)
Definition holds_paid (id : string) (inv : Invoice) (db : DB) : Prop :=
  invoices db !! id = Some inv.

(** The agent [a] is stored as [row]. *)
Definition holds_verified (a : string) (row : Agent) (db : DB) : Prop :=
  agents db !! a = Some row.

(** The answer is "expired", for a challenge and for an invoice. *)
Definition is_agent_expired (r : ToolResult) : Prop :=
  match r with Success (AgentExpiredData _ _) => True | _ => False end.

Definition is_invoice_expired (r : ToolResult) : Prop :=
  match r with Success (InvoiceExpiredData _ _) => True | _ => False end.

(** Whether a call is [inv_begin_verification] or its alias. *)
Definition issues_challenge (c : Call) : bool :=
  match c with
  | CallBeginVerification _ _ | CallRegisterAgent _ _ => true
  | _ => false
  end.

(** The record a successful [inv_begin_verification] leaves for its agent. *)
Definition fresh_challenge (r : Agent) : Prop :=
  ag_status r = "pending" ∧ ag_verified_at r = None ∧
  ag_proof_event_id r = None ∧ ag_proof_sender_wallet r = None.

(** The statement under test: through any sequence of tool calls, an
    agent stored as 'verified' is never stored as 'pending' later. *)
Definition verified_never_pending : Prop :=
  ∀ w w' a row,
    steps Address API_KEY w w' →
    agents (w_db w) !! a = Some row → ag_status row = "verified" →
    ag_status <$> agents (w_db w') !! a ≠ Some "pending".

(** The error [tonapiFetch] throws for a reply of the indexer, if any. *)
Definition response_error (r : Response) : option Err :=
  if FETCH_TIMEOUT_MS <? Z.of_N (latency r)
  then Some (error "The operation was aborted due to timeout")
  else
    match reply r with
    | ReplyEvents _ => None
    | ReplyHttpError status text =>
        Some (mkErr ("TONAPI error: " +:+ JS.ofZ status +:+ " " +:+ JS.slice0 200 text)
                    (Some status))
    | ReplyFailure msg => Some (error msg)
    end.

(** The next three replies are failures, the first two of a kind that is
    retried: all three attempts of [tonapiFetchWithRetry] fail, with the
    error returned. *)
Definition exhausts_retries (net : list Response) : option Err :=
  match net with
  | r1 :: r2 :: r3 :: _ =>
      match response_error r1, response_error r2, response_error r3 with
      | Some e1, Some e2, Some e3 =>
          if retryable (err_status e1) && retryable (err_status e2) then Some e3 else None
      | _, _, _ => None
      end
  | _ => None
  end.

(** [findTransferWithSync] answers "throttled" from this state. *)
Definition sync_throttled (db : DB) (wallet : option string) (now : Z) : bool :=
  match getWalletSync db wallet ≫= last_sync_at with
  | Some l => JS.truthyZ l && (now - l <? SYNC_MIN_INTERVAL_MS)
  | None => false
  end.

(** A result that reports "nothing yet" rather than an error. *)
Definition transient (r : ToolResult) : Prop :=
  match r with
  | Success d => data_status d = "pending" ∨ data_status d = "throttled" ∨
                 data_status d = "not_found"
  | Failure _ => False
  end.

(** The invoice is one for which [inv_check] goes to the indexer: pending,
    not expired, well formed, not in the cache, and the wallet was not
    synced within the last moments. *)
Definition check_reaches_indexer (w : World) (id : string) (inv : Invoice) : Prop :=
  id ≠ "" ∧
  invoices (w_db w) !! id = Some inv ∧
  inv_status inv = "pending" ∧
  pastExpiry (inv_expires_at inv) (w_now w) = false ∧
  bool_decide (inv_strict_sender inv = Some 1)
    && negb (JS.truthy (inv_expected_sender_wallet inv)) = false ∧
  (∃ m, JS.StringToBigInt (inv_amount_nano inv) = Some m ∧
        queryCachedTransfer Address (w_db w) (Some (inv_recipient_wallet inv))
          (Some ("INV#" +:+ id)) (Some (inv_created_at inv))
          (Some (default (w_now w) (inv_expires_at inv))) m
          (inv_expected_sender_wallet inv)
          (bool_decide (inv_strict_sender inv = Some 1)) = None) ∧
  sync_throttled (w_db w) (Some (inv_recipient_wallet inv)) (w_now w) = false.

(** The same for a challenge and [inv_confirm_verification]. *)
Definition confirm_reaches_indexer (w : World) (id : string) (agent : Agent) : Prop :=
  id ≠ "" ∧
  agents (w_db w) !! id = Some agent ∧
  ag_status agent = "pending" ∧
  pastExpiry (ag_challenge_expires_at agent) (w_now w) = false ∧
  ∃ file m,
    getAgentWalletAddress w = (Ok file, w) ∧
    JS.StringToBigInt (default "0" (ag_challenge_amount_nano agent)) = Some m ∧
    queryCachedTransfer Address (w_db w) (normalizeAddress Address (Some file))
      (ag_challenge_tag agent) (ag_challenge_created_at agent)
      (Some (default (w_now w) (ag_challenge_expires_at agent))) m
      (ag_wallet_address agent) true = None ∧
    sync_throttled (w_db w) (normalizeAddress Address (Some file)) (w_now w) = false.

(** The statement under test: with the retries exhausted, both tools
    still answer pending, throttled or not_found. *)
Definition exhausted_retries_stay_transient : Prop :=
  (∀ invoice_id ctx w inv e,
     guards_pass "inv_check" ctx w = true →
     check_reaches_indexer w (trimOr invoice_id) inv →
     exhausts_retries (w_net w) = Some e →
     transient (invCheck Address API_KEY invoice_id ctx w).1) ∧
  (∀ agent_id ctx w agent e,
     guards_pass "inv_confirm_verification" ctx w = true →
     confirm_reaches_indexer w (trimOr agent_id) agent →
     exhausts_retries (w_net w) = Some e →
     transient (invConfirmVerification Address API_KEY agent_id ctx w).1).

(** [hoare I m Q]: run from a database satisfying [I], the computation [m]
    leaves a database satisfying [I], and a value it returns satisfies [Q]
    (nothing is said of the value when it throws). *)
Definition hoare {A} (I : DB -> Prop) (m : M A) (Q : A -> Prop) : Prop :=
  ∀ w, I (w_db w) → I (w_db (m w).2) ∧ ∀ a, (m w).1 = Ok a → Q a.

(** [m] never writes to the database. *)
Definition db_const {A} (m : M A) : Prop := ∀ w, w_db (m w).2 = w_db w.

(** [triple P m Q]: from a database satisfying [P], when [m] returns [a] it
    leaves a database [db] with [Q a db]. *)
Definition triple {A} (P : DB -> Prop) (m : M A) (Q : A -> DB -> Prop) : Prop :=
  ∀ w, P (w_db w) → ∀ a, (m w).1 = Ok a → Q a (w_db (m w).2).

End Vocabulary.

Arguments after_rate : simpl never.

(* ====================================================================== *)
(** * Worked instances: the data *)
(* ====================================================================== *)

Module Instances.

(** An open-access caller with the default limits, except two calls of
    [inv_check] per window. *)
Definition ctx0 : Context :=
  mkContext (Some 7) [] None None None None None {[ "inv_check" := 2 ]} ∅.

Definition invoice_a1 (status : string) : Invoice :=
  mkInvoice 1000 (Some 900000) "1.5" "1500000000" "w1" None None (Some 0) None
            "INV#a1" status (Some 0) None None None None None None.

Definition paid_a1 : Invoice :=
  mkInvoice 1000 (Some 900000) "1.5" "1500000000" "w1" None None (Some 0) None
            "INV#a1" "paid" (Some 0) (Some 5000000) (Some "ev1") (Some "s1")
            (Some "1500000000") (Some "1.5") None.

Definition transfer (event_id : string) (ts : option Z) (sender amount : string)
    : Transfer :=
  mkTransfer "w1" event_id 0 (Some "5") ts (Some sender) (Some "w1") (Some amount)
             (Some "INV#a1") (Some "INV#a1") 77.

Definition early_other : Transfer := transfer "ev1" (Some 4000) "s2" "1500000000".
Definition later_expected : Transfer := transfer "ev2" (Some 6000) "s1" "1500000000".
Definition too_small : Transfer := transfer "ev3" (Some 3000) "s1" "1000000000".

Definition cache3 : DB := mkDB ∅ ∅ ∅ ∅ [later_expected; too_small; early_other].

Definition world (db : DB) (now : Z) (net : list Response) : World :=
  mkWorld db now 0 net [] [] (WalletAddress "W1").

Definition busy : Response := mkResponse 5 (ReplyHttpError 503 "busy").

Definition agent_alice (status : string) : Agent :=
  mkAgent (Some "s1") status (Some "REG#alice#00000000") (Some "0.01") (Some "10000000")
          (Some 1000) (Some 900000)
          (if String.eqb status "verified" then Some 5000000 else None)
          (if String.eqb status "verified" then Some "ev1" else None)
          (if String.eqb status "verified" then Some "s1" else None) 1000.

(** An event whose only time field does not parse, with one transfer to
    the wallet. *)
Definition untimed_event : Event :=
  mkEvent (Some "ev9") None (JS.Num 9) JS.Null (JS.Str "soon") JS.Null JS.Null
    (Some [mkAction "TonTransfer"
             (Some (mkTonTransfer (AddrAccount "W1") (AddrPlain "S1") (JS.Num 1500000000)
                      (Some "INV#a1")))]).

Definition older_event : Event :=
  mkEvent (Some "ev40") None (JS.Num 40) JS.Null (JS.Num 4000) JS.Null JS.Null (Some []).

Definition newer_event : Event :=
  mkEvent (Some "ev110") None (JS.Num 110) JS.Null (JS.Num 9500) JS.Null JS.Null (Some []).

Definition synced : DB :=
  mkDB ∅ ∅ ∅ {[ "w1" := mkWalletSync (Some 1000) (Some "100") (Some "50")
                           (Some 9000000) (Some 5000000) ]} [].

End Instances.

Import Instances.

(* ====================================================================== *)
(** * The helpers exported for tests *)
(* ====================================================================== *)

(** What [createInMemoryRateLimiter(windowMs, max)] answers. *)
Inductive MemResult :=
| MemAllowed
| MemRejected (retryAfterMs : Z).

(** One call [limiter(key)] of the closure [createInMemoryRateLimiter]
    returns, on its [Map] store, with the clock reading [now]. *)
Definition createInMemoryRateLimiter (windowMs max : Z) (key : string) (now : Z)
    (store : gmap string RateRow) : MemResult * gmap string RateRow :=
  match store !! key with
  | None => (MemAllowed, <[key := mkRateRow now 1]> store)
  | Some row =>
      if now - window_start row >=? windowMs
      then (MemAllowed, <[key := mkRateRow now 1]> store)
      else if count row >=? max
      then (MemRejected (windowMs - (now - window_start row)), store)
      else (MemAllowed, <[key := mkRateRow (window_start row) (count row + 1)]> store)
  end.

(** [eventWithinWindow(evMs, createdAt, expiresAt)]. *)
Definition eventWithinWindow (evMs : option Z) (createdAt expiresAt : option IsoTime) : bool :=
  match evMs with
  | None => false
  | Some ev =>
      if negb (JS.truthyZ ev) then false
      else if match parseIso createdAt with
              | Some c => JS.truthyZ c && (ev <? c)
              | None => false
              end then false
      else if match parseIso expiresAt with
              | Some e => JS.truthyZ e && (ev >? e)
              | None => false
              end then false
      else true
  end.

(** The [params] of [extractTonTransfers]. *)
Record ExtractParams := mkExtractParams {
  xp_recipientWallet : option string;
  xp_tag : option string;
  xp_amountNanoMin : Z;
  xp_expectedSender : option string;
  xp_strictSender : bool;
  xp_createdAt : option IsoTime;
  xp_expiresAt : option IsoTime
}.

Record MatchRec := mkMatchRec {
  m_event_id : option string;
  m_timestamp : JS.Val;
  m_sender : option string;
  m_amount_nano : string;
  m_comment : string
}.

Record Mismatch := mkMismatch {
  mm_event_id : option string;
  mm_reason : string;
  mm_sender : option string;
  mm_amount_nano : string;
  mm_comment : string
}.

(** What one action adds to [matches] or [mismatches]; [None] when
    [BigInt(t.amount ?? 0)] throws. *)
Inductive Extracted :=
| Skipped
| Matched (m : MatchRec)
| Mismatched (m : Mismatch).

Section Extract.

Context (Address : option (string -> option string)).

Definition extractAction (params : ExtractParams) (ev : Event) (action : Action)
    : option Extracted :=
  if negb (String.eqb (a_type action) "TonTransfer") then Some Skipped else
  match a_TonTransfer action with
  | None => Some Skipped
  | Some t =>
      let recipient := addr_of (t_recipient t) in
      if negb (sameAddress Address recipient (xp_recipientWallet params)) then Some Skipped else
      let comment := default "" (t_comment t) in
      if negb (JS.nonempty comment) then Some Skipped else
      if negb (bool_decide (commentTag (Some comment) = xp_tag params)) then Some Skipped else
      let tsMs := eventTimeMs (JS.nullishVal (ev_timestamp ev)
                                 (JS.nullishVal (ev_utime ev) (ev_time ev))) in
      let sender := addr_of (t_sender t) in
      if negb (eventWithinWindow tsMs (xp_createdAt params) (xp_expiresAt params)) then
        Some (Mismatched (mkMismatch (ev_event_id ev) "outside_time_window" sender
                            (JS.toStr (t_amount t) "0") comment))
      else
      match JS.BigInt (JS.nullishVal (t_amount t) (JS.Num 0)) with
      | None => None
      | Some amountNano =>
          if amountNano <? xp_amountNanoMin params then
            Some (Mismatched (mkMismatch (ev_event_id ev) "amount_too_low" sender
                                (JS.ofZ amountNano) comment))
          else if JS.truthy (xp_expectedSender params) && xp_strictSender params
                  && negb (sameAddress Address sender (xp_expectedSender params)) then
            Some (Mismatched (mkMismatch (ev_event_id ev) "sender_mismatch" sender
                                (JS.ofZ amountNano) comment))
          else
            Some (Matched (mkMatchRec (ev_event_id ev)
                             (JS.nullishVal (ev_timestamp ev) (ev_utime ev))
                             sender (JS.ofZ amountNano) comment))
      end
  end.

(** The two loops; the lists grow at the end, as [push] does. *)
Fixpoint extractActions (params : ExtractParams) (ev : Event) (actions : list Action)
    (acc : list MatchRec * list Mismatch) : option (list MatchRec * list Mismatch) :=
  match actions with
  | [] => Some acc
  | a :: rest =>
      match extractAction params ev a with
      | None => None
      | Some Skipped => extractActions params ev rest acc
      | Some (Matched m) => extractActions params ev rest (acc.1 ++ [m], acc.2)
      | Some (Mismatched m) => extractActions params ev rest (acc.1, acc.2 ++ [m])
      end
  end.

Fixpoint extractEvents (params : ExtractParams) (events : list Event)
    (acc : list MatchRec * list Mismatch) : option (list MatchRec * list Mismatch) :=
  match events with
  | [] => Some acc
  | ev :: rest =>
      match extractActions params ev (default [] (ev_actions ev)) acc with
      | None => None
      | Some acc' => extractEvents params rest acc'
      end
  end.

Definition extractTonTransfers (events : list Event) (params : ExtractParams)
    : option (list MatchRec * list Mismatch) :=
  extractEvents params events ([], []).

End Extract.

(* ====================================================================== *)
(** * Vocabulary of the further properties *)
(* ====================================================================== *)

(** The tool a call runs as, and the context it carries.  The alias
    [inv_register_agent] shares the [execute] of [inv_begin_verification],
    and with it the tool name that function passes to the guards. *)
Definition call_tool (c : Call) : string :=
  match c with
  | CallBeginVerification _ _ | CallRegisterAgent _ _ => "inv_begin_verification"
  | CallConfirmVerification _ _ => "inv_confirm_verification"
  | CallCreate _ _ => "inv_create"
  | CallCheck _ _ => "inv_check"
  | CallReceipt _ _ => "inv_receipt"
  end.

Definition call_ctx (c : Call) : Context :=
  match c with
  | CallBeginVerification _ ctx | CallRegisterAgent _ ctx
  | CallConfirmVerification _ ctx | CallCreate _ ctx
  | CallCheck _ ctx | CallReceipt _ ctx => ctx
  end.

(** The decisions of the two limiters correspond. *)
Definition same_decision (m : MemResult) (r : Res RateResult) : Prop :=
  match m, r with
  | MemAllowed, Ok (Allowed _) => True
  | MemRejected a, Ok (Rejected b) => a = b
  | _, _ => False
  end.

(** [row] pays the invoice [inv], stored under [id], for a check made at
    [now]: it went to the recipient wallet with the tag INV#<id>, inside the
    window from creation to expiry (to [now] without an expiry), with at
    least the amount and, for a strict invoice, from the expected sender. *)
Definition pays_invoice (Address : option (string -> option string)) (id : string)
    (inv : Invoice) (now : Z) (row : Transfer) : Prop :=
  ∃ m, JS.StringToBigInt (inv_amount_nano inv) = Some m ∧
       qualifies Address (inv_recipient_wallet inv) ("INV#" +:+ id) (inv_created_at inv)
         (default now (inv_expires_at inv)) m (inv_expected_sender_wallet inv)
         (bool_decide (inv_strict_sender inv = Some 1)) row.

(** The stored invoice carries [row] as its proof of payment. *)
Definition settled_invoice (inv : Invoice) (paidAt : IsoTime) (row : Transfer) : Prop :=
  inv_status inv = "paid" ∧ inv_paid_at inv = Some paidAt ∧
  inv_tx_event_id inv = Some (tr_event_id row) ∧ inv_tx_sender_wallet inv = tr_sender row ∧
  inv_tx_amount_nano inv = tr_amount_nano row.

(** [row] answers the challenge of [agent] for a confirmation made at
    [now], the plugin's own wallet being [file]: it went to that wallet with
    the challenge tag, inside the window of the challenge, with at least the
    challenge amount, from the wallet the agent claims. *)
Definition answers_challenge (Address : option (string -> option string)) (agent : Agent)
    (file : string) (now : Z) (row : Transfer) : Prop :=
  ∃ rcp tag c m,
    normalizeAddress Address (Some file) = Some rcp ∧
    ag_challenge_tag agent = Some tag ∧
    ag_challenge_created_at agent = Some c ∧
    JS.StringToBigInt (default "0" (ag_challenge_amount_nano agent)) = Some m ∧
    qualifies Address rcp tag c (default now (ag_challenge_expires_at agent)) m
      (ag_wallet_address agent) true row.

(** The stored agent carries [row] as its proof of ownership. *)
Definition verified_agent (a : Agent) (verifiedAt : IsoTime) (row : Transfer) : Prop :=
  ag_status a = "verified" ∧ ag_verified_at a = Some verifiedAt ∧
  ag_proof_event_id a = Some (tr_event_id row) ∧ ag_proof_sender_wallet a = tr_sender row.

(** The terms of an invoice: every column [inv_create] writes and no
    later statement names. *)
Definition same_terms (a b : Invoice) : Prop :=
  inv_created_at a = inv_created_at b ∧ inv_expires_at a = inv_expires_at b ∧
  inv_amount_ton a = inv_amount_ton b ∧ inv_amount_nano a = inv_amount_nano b ∧
  inv_recipient_wallet a = inv_recipient_wallet b ∧
  inv_expected_sender_wallet a = inv_expected_sender_wallet b ∧
  inv_payer_agent a = inv_payer_agent b ∧
  inv_payer_agent_verified a = inv_payer_agent_verified b ∧
  inv_description a = inv_description b ∧ inv_comment a = inv_comment b ∧
  inv_strict_sender a = inv_strict_sender b.

(** What holds of every invoice the tools store under [id]. *)
Definition well_formed_invoice (id : string) (i : Invoice) : Prop :=
  id ≠ "" ∧
  (inv_status i = "pending" ∨ inv_status i = "expired" ∨ inv_status i = "paid") ∧
  (inv_status i = "paid" → is_Some (inv_paid_at i) ∧ is_Some (inv_tx_event_id i)) ∧
  (inv_status i = "pending" → inv_paid_at i = None ∧ inv_tx_event_id i = None) ∧
  (∃ n, JS.StringToBigInt (inv_amount_nano i) = Some n ∧ 0 < n) ∧
  (inv_strict_sender i = Some 0 ∨ inv_strict_sender i = Some 1) ∧
  (inv_strict_sender i = Some 1 → JS.truthy (inv_expected_sender_wallet i) = true) ∧
  (∃ payer, inv_comment i = buildInvoiceComment id payer).

Definition invoices_well_formed (db : DB) : Prop :=
  ∀ id i, invoices db !! id = Some i → well_formed_invoice id i.

(** The invoice stored under [id] still has the terms of [inv], and is no
    longer pending if [inv] was not. *)
Definition keeps_terms (id : string) (inv : Invoice) (db : DB) : Prop :=
  ∃ inv', invoices db !! id = Some inv' ∧ same_terms inv inv' ∧
          (inv_status inv ≠ "pending" → inv_status inv' ≠ "pending").

(** What holds of every agent the tools store under [id]. *)
Definition well_formed_agent (id : string) (a : Agent) : Prop :=
  id ≠ "" ∧ (String.length id ≤ 64)%nat ∧
  (ag_status a = "pending" ∨ ag_status a = "verified") ∧
  (ag_status a = "verified" → is_Some (ag_verified_at a) ∧ is_Some (ag_proof_event_id a)) ∧
  (ag_status a = "pending" →
     ag_verified_at a = None ∧ ag_proof_event_id a = None ∧
     ag_proof_sender_wallet a = None) ∧
  JS.truthy (ag_wallet_address a) = true ∧
  (∃ hex, ag_challenge_tag a = Some (buildVerificationTag id hex)) ∧
  (∃ n, 0 < n ∧ ag_challenge_amount_nano a = Some (JS.ofZ n)) ∧
  is_Some (ag_challenge_created_at a) ∧ is_Some (ag_challenge_expires_at a).

Definition agents_well_formed (db : DB) : Prop :=
  ∀ id a, agents db !! id = Some a → well_formed_agent id a.

(** A row as [ingestEvents] writes it: the tag is the tag of the stored
    comment, the recipient is the wallet in normal form, and the time, when
    there is one, is a number of seconds times 1000. *)
Definition ingested (Address : option (string -> option string)) (row : Transfer) : Prop :=
  tr_comment_tag row = commentTag (tr_comment row) ∧
  is_Some (tr_comment row) ∧ is_Some (tr_amount_nano row) ∧
  tr_recipient row = normalizeAddress Address (Some (tr_wallet row)) ∧
  is_Some (tr_recipient row) ∧
  0 ≤ tr_action_index row ∧
  (∀ t, tr_timestamp row = Some t → ∃ n, t = n * 1000).

Definition cache_ingested (Address : option (string -> option string)) (db : DB) : Prop :=
  Forall (ingested Address) (transfers db).

(** A computation that leaves the whole world as it was. *)
Definition pure_world {A} (m : M A) : Prop := ∀ w, (m w).2 = w.

(** What [inv_create] leaves as it was: everything but the invoices, the
    rate counters and the random source. *)
Definition create_frame (w w' : World) : Prop :=
  agents (w_db w') = agents (w_db w) ∧ transfers (w_db w') = transfers (w_db w) ∧
  wallet_sync (w_db w') = wallet_sync (w_db w) ∧
  w_requests w' = w_requests w ∧ w_net w' = w_net w ∧ w_now w' = w_now w.

(** A character that is neither white space nor the separator [|]. *)
Definition plain_char (c : ascii) : bool :=
  negb (JS.is_ws c) && negb (JS.code c =? 124)%N.

(** What [extractTonTransfers] promises of a match and of a mismatch. *)
Definition sound_match (Address : option (string -> option string)) (params : ExtractParams)
    (events : list Event) (m : MatchRec) : Prop :=
  m_comment m ≠ "" ∧ commentTag (Some (m_comment m)) = xp_tag params ∧
  (∃ a, JS.StringToBigInt (m_amount_nano m) = Some a ∧ xp_amountNanoMin params ≤ a) ∧
  (xp_strictSender params = true → JS.truthy (xp_expectedSender params) = true →
     sameAddress Address (m_sender m) (xp_expectedSender params) = true) ∧
  ∃ ev, ev ∈ events ∧ m_event_id m = ev_event_id ev ∧
        m_timestamp m = JS.nullishVal (ev_timestamp ev) (ev_utime ev) ∧
        eventWithinWindow (ev_tsMs ev) (xp_createdAt params) (xp_expiresAt params) = true.

Definition sound_mismatch (params : ExtractParams) (m : Mismatch) : Prop :=
  (mm_reason m = "outside_time_window" ∨ mm_reason m = "amount_too_low" ∨
   mm_reason m = "sender_mismatch") ∧
  mm_comment m ≠ "" ∧ commentTag (Some (mm_comment m)) = xp_tag params.

(** [m] sends at most [n] requests, all of them for [wallet]. *)
Definition sends_at_most {A} (wallet : option string) (n : nat) (m : M A) : Prop :=
  ∀ w, ∃ l, w_requests (m w).2 = l ++ w_requests w ∧ (length l ≤ n)%nat ∧
            Forall (λ rq, rq_wallet rq = wallet) l.

(** [m] sends at most [n] requests, all of them for one wallet. *)
Definition sends_for_one_wallet {A} (n : nat) (m : World -> A * World) : Prop :=
  ∀ w, ∃ wallet l, w_requests (m w).2 = l ++ w_requests w ∧ (length l ≤ n)%nat ∧
                   Forall (λ rq, rq_wallet rq = wallet) l.

(** The running statistics of [ingestEvents] bound the time [t], and the
    logical time [l]. *)
Definition ts_bounds (a : Acc) (t : Z) : Prop :=
  ∃ lo hi, minTs a = Some lo ∧ maxTs a = Some hi ∧ lo ≤ t ≤ hi.

Definition lt_bounds (a : Acc) (l : Z) : Prop :=
  ∃ lo hi, minLt a = Some lo ∧ maxLt a = Some hi ∧ lo ≤ l ≤ hi.

(** ** Further instances *)

(** A pending invoice with three cached transfers, and a pending challenge
    with a cached transfer that answers it. *)
Definition paying_world : World :=
  world (mkDB ∅ {[ "a1" := invoice_a1 "pending" ]} ∅ ∅
           [later_expected; too_small; early_other]) 10000 [busy].

Definition answer_alice : Transfer :=
  mkTransfer "w1" "ev7" 0 (Some "5") (Some 4000) (Some "s1") (Some "w1") (Some "10000000")
             (Some "REG#alice#00000000") (Some "REG#alice#00000000") 77.

Definition answering_world : World :=
  world (mkDB {[ "alice" := agent_alice "pending" ]} ∅ ∅ ∅ [answer_alice]) 10000 [busy].

Definition ctx_open : Context := mkContext (Some 7) [] None None None None None ∅ ∅.

Definition create_params : CreateParams :=
  mkCreateParams (Some "1.5") None None None (Some "W1") (Some 10) (Some "a2") (Some false)
                 None.

Definition paid_world : World :=
  world (mkDB ∅ {[ "a1" := paid_a1 ]} ∅ ∅ []) 10000 [busy].

Definition verified_world : World :=
  world (mkDB {[ "alice" := agent_alice "verified" ]} ∅ ∅ ∅ []) 10000 [busy].

(** The same agent asks for a new challenge while [wallet.json] is
    missing. *)
Definition begin_alice : BeginParams := mkBeginParams (Some "alice") (Some "s9") None None.

Definition walletless_world : World :=
  mkWorld (mkDB {[ "alice" := agent_alice "verified" ]} ∅ ∅ ∅ []) 10000 0 [] [] ["0badcafe"]
          WalletMissing.

(** An event with a time, carrying a transfer that pays invoice a1. *)
Definition paying_event : Event :=
  mkEvent (Some "ev5") None (JS.Num 5) JS.Null (JS.Num 4) JS.Null JS.Null
    (Some [mkAction "TonTransfer"
             (Some (mkTonTransfer (AddrAccount "W1") (AddrPlain "S1") (JS.Num 1500000000)
                      (Some "INV#a1|payer:bob")))]).

Definition extract_a1 : ExtractParams :=
  mkExtractParams (Some "w1") (Some "INV#a1") 1500000000 None false (Some 1000)
                  (Some 900000).

(* ====================================================================== *)
(** * Properties *)
(* ====================================================================== *)

(** ** Matching over the cache *)

#[global] Instance ts_le_trans : Transitive ts_le.
Proof.
  intros a b c. unfold ts_le.
  destruct (tr_timestamp a), (tr_timestamp b), (tr_timestamp c); try tauto; lia.
Qed.

#[global] Instance ts_le_total : Total ts_le.
Proof.
  intros a b. unfold ts_le.
  destruct (tr_timestamp a), (tr_timestamp b); try tauto; lia.
Qed.

Section Matching.

Context (Address : option (string -> option string)).

Lemma firstPassing_split minA exp strict rows row :
  firstPassing Address minA exp strict rows = Some row →
  ∃ l1 l2, rows = l1 ++ row :: l2 ∧
           Forall (λ r, row_passes Address minA exp strict r = false) l1 ∧
           row_passes Address minA exp strict row = true.
Proof.
  induction rows as [|r rows IH]; simpl; [discriminate|].
  destruct (row_passes Address minA exp strict r) eqn:Hr.
  - intros [= ->]. exists [], rows. auto.
  - intros H. destruct (IH H) as (l1 & l2 & -> & Hl1 & Hp).
    exists (r :: l1), l2. auto.
Qed.

Lemma query_where_spec wallet tag startMs endMs r :
  query_where (Some wallet) (Some tag) (Some startMs) (Some endMs) r = true ↔
  tr_wallet r = wallet ∧ tr_comment_tag r = Some tag ∧
  ∃ t, tr_timestamp r = Some t ∧ startMs ≤ t ≤ endMs.
Proof.
  unfold query_where, optZ_le.
  destruct (tr_timestamp r) as [t|], (tr_comment_tag r) as [x|]; simpl;
    rewrite ?andb_true_iff, ?andb_false_r, ?String.eqb_eq, ?Z.leb_le.
  - split.
    + intros [[[-> ->] ?] ?]. eauto with lia.
    + intros (-> & [= ->] & t' & [= <-] & ? & ?). auto.
  - split; [intros [[[_ [=]] _] _] | intros (_ & [=] & _)].
  - split; [intros [=] | intros (_ & _ & t' & [=] & _)].
  - split; [intros [=] | intros (_ & [=] & _)].
Qed.

Lemma row_passes_spec minA exp strict r :
  row_passes Address minA exp strict r = true ↔
  (∃ a, toBigIntSafeText (tr_amount_nano r) = Some a ∧ minA ≤ a) ∧
  (strict = true → JS.truthy exp = true →
     sameAddress Address (tr_sender r) exp = true).
Proof.
  unfold row_passes.
  destruct (toBigIntSafeText (tr_amount_nano r)) as [a|].
  - destruct (Z.ltb_spec a minA).
    + split; [discriminate | intros [(a' & [= <-] & ?) _]; lia].
    + destruct (JS.truthy exp), strict,
        (sameAddress Address (tr_sender r) exp); simpl; split;
        try discriminate; try (intros _; split; [eauto | auto]);
        try (intros [_ Hs]; discriminate Hs; reflexivity); auto.
      all: intros [_ Hs]; specialize (Hs eq_refl eq_refl); discriminate.
  - split; [discriminate | intros [(a' & [=] & _) _]].
Qed.

Lemma qualifies_iff wallet tag startMs endMs minA exp strict r :
  qualifies Address wallet tag startMs endMs minA exp strict r ↔
  query_where (Some wallet) (Some tag) (Some startMs) (Some endMs) r = true ∧
  row_passes Address minA exp strict r = true.
Proof.
  rewrite query_where_spec, row_passes_spec. unfold qualifies. tauto.
Qed.

(** What the SQL statement returns: a sorted prefix of the rows that pass
    the [WHERE] clause. *)
Lemma stmtTransferQuery_prefix db wallet tag startMs endMs limit :
  ∃ rest,
    merge_sort ts_le (filter (λ r, query_where wallet tag startMs endMs r = true)
                             (transfers db))
    = stmtTransferQuery db wallet tag startMs endMs limit ++ rest.
Proof.
  unfold stmtTransferQuery. eexists. symmetry. apply take_drop.
Qed.

Lemma in_sorted_query db wallet tag startMs endMs r :
  r ∈ merge_sort ts_le (filter (λ r, query_where wallet tag startMs endMs r = true)
                               (transfers db)) ↔
  r ∈ transfers db ∧ query_where wallet tag startMs endMs r = true.
Proof.
  rewrite merge_sort_Permutation, list_elem_of_filter. tauto.
Qed.

(** C1. Whenever [queryCachedTransfer] returns a cached transfer, that
    transfer is a row of the cache with the given wallet and tag, a
    timestamp inside [[startMs, endMs]], an amount of at least the minimum
    and, in strict mode with an expected sender, the expected sender; and
    no cached transfer that satisfies the same constraints has an earlier
    timestamp.  With [strictSender = false] the sender plays no part. *)
Theorem queryCachedTransfer_earliest_qualifying
    db wallet tag startMs endMs minAmountNano expectedSender strictSender row :
  queryCachedTransfer Address db (Some wallet) (Some tag) (Some startMs) (Some endMs)
    minAmountNano expectedSender strictSender = Some row →
  row ∈ transfers db ∧
  qualifies Address wallet tag startMs endMs minAmountNano expectedSender strictSender row ∧
  ∀ other,
    other ∈ transfers db →
    qualifies Address wallet tag startMs endMs minAmountNano expectedSender strictSender other →
    ∃ t t', tr_timestamp row = Some t ∧ tr_timestamp other = Some t' ∧ t ≤ t'.
Proof.
  unfold queryCachedTransfer. intros Hq.
  destruct (firstPassing_split _ _ _ _ _ Hq) as (l1 & l2 & Hrows & Hl1 & Hpass).
  destruct (stmtTransferQuery_prefix db (Some wallet) (Some tag) (Some startMs)
              (Some endMs) 50) as [rest Hsorted].
  rewrite Hrows in Hsorted.
  assert (Hin : row ∈ transfers db ∧
                query_where (Some wallet) (Some tag) (Some startMs) (Some endMs) row = true).
  { apply in_sorted_query. rewrite Hsorted. set_solver. }
  destruct Hin as [Hin Hw].
  split; [exact Hin|]. split; [apply qualifies_iff; auto|].
  intros other Hoin Hoq. apply qualifies_iff in Hoq as [How Hop].
  assert (Hos : other ∈ (l1 ++ row :: l2) ++ rest).
  { rewrite <- Hsorted. apply in_sorted_query. auto. }
  pose proof (StronglySorted_merge_sort ts_le
    (filter (λ r, query_where (Some wallet) (Some tag) (Some startMs) (Some endMs) r = true)
            (transfers db))) as Hss.
  rewrite Hsorted, <- app_assoc in Hss. simpl in Hss.
  apply StronglySorted_app_1_r in Hss.
  apply StronglySorted_cons in Hss as [Hle _].
  apply query_where_spec in Hw as (_ & _ & t & Ht & _).
  apply query_where_spec in How as (_ & _ & t' & Ht' & _).
  exists t, t'. split; [exact Ht|]. split; [exact Ht'|].
  rewrite <- app_assoc in Hos. simpl in Hos.
  apply elem_of_app in Hos as [Hbad | Hos].
  - rewrite Forall_forall in Hl1. rewrite (Hl1 _ Hbad) in Hop. discriminate.
  - apply elem_of_cons in Hos as [-> | Hos].
    + rewrite Ht in Ht'. injection Ht' as <-. lia.
    + rewrite Forall_forall in Hle. specialize (Hle _ Hos).
      unfold ts_le in Hle. rewrite Ht, Ht' in Hle. exact Hle.
Qed.

End Matching.

(** ** Rate limiter *)

Section RateLimit.

Context (sender : Z) (toolName : string) (cfg : RateCfg).

Local Abbreviation key := (rate_key toolName sender).
Local Abbreviation check := (checkRateLimit sender toolName cfg).

Lemma rate_fresh w :
  (rate_limits (w_db w) !! key = None ∨
   ∃ row, rate_limits (w_db w) !! key = Some row ∧
          windowMs cfg ≤ w_now w - window_start row) →
  check w = (Ok (Allowed (max cfg - 1)),
             with_db (set_rate_limits <[key := mkRateRow (w_now w) 1]> (w_db w)) w).
Proof.
  intros H. unfold checkRateLimit, mbind, M_bind, Date_now, getDb. simpl.
  fold key. destruct H as [-> | (row & -> & Hw)]; [reflexivity|].
  destruct (Z.geb_spec (w_now w - window_start row) (windowMs cfg)); [reflexivity | lia].
Qed.

Lemma rate_incr w row :
  rate_limits (w_db w) !! key = Some row →
  w_now w - window_start row < windowMs cfg →
  count row < max cfg →
  check w = (Ok (Allowed (max cfg - count row - 1)),
             with_db (set_rate_limits
                        <[key := mkRateRow (window_start row) (count row + 1)]> (w_db w)) w).
Proof.
  intros Hrow Hw Hc. unfold checkRateLimit, mbind, M_bind, Date_now, getDb. simpl.
  fold key. rewrite Hrow.
  destruct (Z.geb_spec (w_now w - window_start row) (windowMs cfg)); [lia|].
  destruct (Z.geb_spec (count row) (max cfg)); [lia | reflexivity].
Qed.

Lemma rate_reject w row :
  rate_limits (w_db w) !! key = Some row →
  w_now w - window_start row < windowMs cfg →
  max cfg ≤ count row →
  check w = (Ok (Rejected (windowMs cfg - (w_now w - window_start row))), w).
Proof.
  intros Hrow Hw Hc. unfold checkRateLimit, mbind, M_bind, Date_now, getDb. simpl.
  fold key. rewrite Hrow.
  destruct (Z.geb_spec (w_now w - window_start row) (windowMs cfg)); [lia|].
  destruct (Z.geb_spec (count row) (max cfg)); [reflexivity | lia].
Qed.

(** Calls inside the window of a row that still has room are all allowed
    and counted. *)
Lemma rate_calls_in_window times : ∀ w t0 c,
  rate_limits (w_db w) !! key = Some (mkRateRow t0 c) →
  c + Z.of_nat (length times) ≤ max cfg →
  Forall (λ t, t - t0 < windowMs cfg) times →
  Forall is_allowed (rate_calls sender toolName cfg times w).1 ∧
  rate_limits (w_db (rate_calls sender toolName cfg times w).2) !! key
    = Some (mkRateRow t0 (c + Z.of_nat (length times))).
Proof.
  induction times as [|t times IH]; intros w t0 c Hrow Hc Hin.
  - simpl. rewrite Z.add_0_r. auto.
  - apply Forall_cons in Hin as [Ht Hin]. simpl length in Hc.
    cbn [rate_calls fst snd].
    rewrite (rate_incr (at_time t w) (mkRateRow t0 c)); simpl; [| exact Hrow | lia | lia].
    destruct (IH (with_db (set_rate_limits <[key := mkRateRow t0 (c + 1)]> (w_db w))
                          (at_time t w)) t0 (c + 1)) as [Hall Hfin].
    + simpl. apply lookup_insert_eq.
    + lia.
    + exact Hin.
    + split; [constructor; [exact I | exact Hall]|].
      rewrite Hfin. f_equal. f_equal. simpl length. lia.
Qed.

End RateLimit.

Lemma getRateLimitConfig_bounds ctx toolName :
  1000 ≤ windowMs (getRateLimitConfig ctx toolName) ∧
  1 ≤ max (getRateLimitConfig ctx toolName).
Proof. unfold getRateLimitConfig. simpl. lia. Qed.

(** C7. For a (tool, caller) key with the configured window [W] and maximum
    [N]: when a call at [t0] opens a window (no counter yet, or the previous
    window has elapsed) and [N - 1] more calls arrive inside that window, all
    [N] calls are allowed; the next call at a time [t] still inside the
    window is rejected, with retry-after [W - (t - t0)], which is strictly
    positive, and leaves the database as it is; and a call at a time at
    least [W] after [t0] is allowed again, the counter restarting at 1 with
    that time as the new window start. *)
Theorem rate_limit_fixed_window ctx sender toolName w t0 rest t :
  let cfg := getRateLimitConfig ctx toolName in
  let key := rate_key toolName sender in
  (rate_limits (w_db w) !! key = None ∨
   ∃ row, rate_limits (w_db w) !! key = Some row ∧ windowMs cfg ≤ t0 - window_start row) →
  Z.of_nat (length rest) = max cfg - 1 →
  Forall (λ ti, ti - t0 < windowMs cfg) rest →
  let run := rate_calls sender toolName cfg (t0 :: rest) w in
  Forall is_allowed run.1 ∧
  (t - t0 < windowMs cfg →
     checkRateLimit sender toolName cfg (at_time t run.2)
       = (Ok (Rejected (windowMs cfg - (t - t0))), at_time t run.2) ∧
     0 < windowMs cfg - (t - t0)) ∧
  (windowMs cfg ≤ t - t0 →
     let again := checkRateLimit sender toolName cfg (at_time t run.2) in
     again.1 = Ok (Allowed (max cfg - 1)) ∧
     rate_limits (w_db again.2) !! key = Some (mkRateRow t 1)).
Proof.
  intros cfg key Hopen Hlen Hin run.
  destruct (getRateLimitConfig_bounds ctx toolName) as [HW HN]. fold cfg in HW, HN.
  clearbody cfg. subst run. cbn [rate_calls fst snd].
  rewrite (rate_fresh sender toolName cfg (at_time t0 w)) by exact Hopen.
  cbn [fst snd].
  set (w1 := with_db _ _).
  destruct (rate_calls_in_window sender toolName cfg rest w1 t0 1) as [Hall Hrow].
  { subst w1. simpl. apply lookup_insert_eq. }
  { lia. }
  { exact Hin. }
  replace (1 + Z.of_nat (length rest)) with (max cfg) in Hrow by lia.
  split; [constructor; [exact I | exact Hall]|]. split.
  - intros Ht. split; [|lia].
    rewrite (rate_reject sender toolName cfg _ (mkRateRow t0 (max cfg))); simpl;
      [reflexivity | exact Hrow | lia | lia].
  - intros Ht. cbv zeta.
    rewrite (rate_fresh sender toolName cfg).
    + simpl. split; [reflexivity | apply lookup_insert_eq].
    + right. exists (mkRateRow t0 (max cfg)). simpl. split; [exact Hrow | lia].
Qed.

(** ** A small program logic for tool bodies *)

Section Logic.

Context (I : DB -> Prop).

Lemma hoare_ret {A} (a : A) (Q : A -> Prop) : Q a → hoare I (mret a) Q.
Proof. intros HQ w HI. split; [exact HI|]. intros a' [= <-]. exact HQ. Qed.

Lemma hoare_throw {A} (e : Err) (Q : A -> Prop) : hoare I (throw e) Q.
Proof. intros w HI. split; [exact HI|]. intros a' [=]. Qed.

Lemma hoare_bind {A B} (m : M A) (f : A -> M B) (R : A -> Prop) (Q : B -> Prop) :
  hoare I m R → (∀ a, R a → hoare I (f a) Q) → hoare I (m ≫= f) Q.
Proof.
  intros Hm Hf w HI. unfold mbind, M_bind.
  destruct (Hm w HI) as [HI' HR]. destruct (m w) as [[a|e] w']; simpl in *.
  - apply (Hf a (HR a eq_refl) w' HI').
  - split; [exact HI'|]. intros b [=].
Qed.

Lemma hoare_weaken {A} (m : M A) (Q Q' : A -> Prop) :
  hoare I m Q → (∀ a, Q a → Q' a) → hoare I m Q'.
Proof. intros Hm HQ w HI. destruct (Hm w HI). split; auto. Qed.

Lemma hoare_getDb : hoare I getDb I.
Proof. intros w HI. split; [exact HI|]. intros a [= <-]. exact HI. Qed.

Lemma hoare_bind_getDb {B} (f : DB -> M B) (Q : B -> Prop) :
  (∀ db, I db → hoare I (f db) Q) → hoare I (getDb ≫= f) Q.
Proof. intros Hf. apply (hoare_bind _ _ I); [apply hoare_getDb | exact Hf]. Qed.

Lemma hoare_modifyDb (f : DB -> DB) :
  (∀ db, I db → I (f db)) → hoare I (modifyDb f) (λ _, True).
Proof. intros Hf w HI. split; [apply Hf, HI | auto]. Qed.

Lemma hoare_try_catch {A} (m : M A) (h : Err -> M A) (Q : A -> Prop) :
  hoare I m Q → (∀ e, hoare I (h e) Q) → hoare I (try_catch m h) Q.
Proof.
  intros Hm Hh w HI. unfold try_catch.
  destruct (Hm w HI) as [HI' HQ]. destruct (m w) as [[a|e] w']; simpl in *.
  - split; [exact HI'|]. intros a' [= <-]. auto.
  - apply (Hh e w' HI').
Qed.

Lemma hoare_db_const {A} (m : M A) : db_const m → hoare I m (λ _, True).
Proof. intros Hm w HI. rewrite Hm. auto. Qed.

End Logic.

Lemma db_const_Date_now : db_const Date_now.
Proof. intros w. reflexivity. Qed.

Lemma db_const_sleep d : db_const (sleep d).
Proof. intros w. reflexivity. Qed.

Lemma db_const_isoOf ms : db_const (isoOf ms).
Proof. intros w. unfold isoOf. destruct (JS.toISOString ms); reflexivity. Qed.

Lemma db_const_nowIso : db_const nowIso.
Proof.
  intros w. unfold nowIso, mbind, M_bind, Date_now. simpl. apply db_const_isoOf.
Qed.

Lemma db_const_randomHex n : db_const (randomHex n).
Proof. intros w. unfold randomHex. destruct (w_rand w); reflexivity. Qed.

Lemma db_const_getAgentWalletAddress : db_const getAgentWalletAddress.
Proof.
  intros w. unfold getAgentWalletAddress.
  destruct (w_wallet_file w) as [| |a]; try reflexivity.
  destruct (JS.nonempty a); reflexivity.
Qed.

Lemma db_const_liftNano r : db_const (liftNano r).
Proof. intros w. destruct r; reflexivity. Qed.

Lemma db_const_BigIntOrThrow s : db_const (BigIntOrThrow s).
Proof. intros w. unfold BigIntOrThrow. destruct (JS.StringToBigInt s); reflexivity. Qed.

Lemma db_const_tonapiFetch API_KEY rq : db_const (tonapiFetch API_KEY rq).
Proof.
  intros w. unfold tonapiFetch.
  destruct (w_net w) as [|r rest]; [reflexivity|].
  destruct (FETCH_TIMEOUT_MS <? Z.of_N (latency r)); [reflexivity|].
  destruct (reply r); reflexivity.
Qed.

Create HintDb hoare.
#[global] Hint Resolve hoare_ret hoare_throw hoare_getDb : hoare.
#[global] Hint Resolve db_const_Date_now db_const_sleep db_const_isoOf db_const_nowIso
  db_const_randomHex db_const_getAgentWalletAddress db_const_liftNano
  db_const_BigIntOrThrow db_const_tonapiFetch : hoare.
#[global] Hint Extern 2 (hoare _ _ (λ _, True)) =>
  (apply hoare_db_const; solve [auto with hoare]) : hoare.

(** One structural step on a goal [hoare I m Q]. *)
Ltac hstep :=
  lazymatch goal with
  | |- hoare _ (mret _) _ => apply hoare_ret
  | |- hoare _ (throw _) _ => apply hoare_throw
  | |- hoare _ (getDb ≫= _) _ => apply hoare_bind_getDb; intros ? ?
  | |- hoare _ (_ ≫= _) _ =>
      eapply (hoare_bind _ _ _ (λ _, True)); [solve [auto with hoare] | intros ? _]
  | |- hoare _ (if ?b then _ else _) _ => destruct b eqn:?
  | |- hoare _ (match ?x with _ => _ end) _ => destruct x eqn:?
  end.

(** ** Frame: what the sync engine and the guards leave alone *)

Section Frame.

Context (Address : option (string -> option string)) (API_KEY : option string).
Context (I : DB -> Prop).

(** [I] only looks at the agents and the invoices. *)
Hypothesis I_frame :
  ∀ db db', agents db = agents db' → invoices db = invoices db' → I db → I db'.

Lemma hoare_frame_modify (f : DB -> DB) :
  (∀ db, agents db = agents (f db)) → (∀ db, invoices db = invoices (f db)) →
  hoare I (modifyDb f) (λ _, True).
Proof.
  intros Ha Hi. apply hoare_modifyDb. intros db. apply I_frame; auto.
Qed.

Lemma hoare_retryLoop rq maxAttempts left attempt lastErr :
  hoare I (retryLoop API_KEY rq maxAttempts left attempt lastErr) (λ _, True).
Proof.
  revert attempt lastErr. induction left as [|left IH]; intros attempt lastErr; simpl.
  - apply hoare_throw.
  - apply hoare_try_catch; [auto with hoare|].
    intros e. cbv zeta. hstep; [apply hoare_throw|]. hstep. apply IH.
Qed.

Lemma hoare_tonapiFetchWithRetry rq :
  hoare I (tonapiFetchWithRetry API_KEY rq) (λ _, True).
Proof. apply hoare_retryLoop. Qed.

Lemma hoare_ingestEvents wallet events :
  hoare I (ingestEvents Address wallet events) (λ _, True).
Proof.
  unfold ingestEvents. hstep. hstep. hstep.
  eapply (hoare_bind _ _ _ (λ _, True)).
  - apply hoare_frame_modify; reflexivity.
  - intros _ _. apply hoare_ret. exact Logic.I.
Qed.

Lemma hoare_updateWalletSync wallet stats :
  hoare I (updateWalletSync wallet stats) (λ _, True).
Proof.
  unfold updateWalletSync. hstep. cbv zeta. hstep.
  apply hoare_frame_modify; intros db'; destruct wallet; reflexivity.
Qed.

Hint Resolve hoare_tonapiFetchWithRetry hoare_ingestEvents hoare_updateWalletSync : hoare.

Lemma hoare_syncNewLoop wallet startMs endMs pages afterLt anyEvents stats :
  hoare I (syncNewLoop Address API_KEY wallet startMs endMs pages afterLt anyEvents stats)
        (λ _, True).
Proof.
  revert afterLt anyEvents stats.
  induction pages as [|pages IH]; intros afterLt anyEvents stats; simpl.
  - apply hoare_ret. exact Logic.I.
  - hstep. cbv zeta. hstep; [apply hoare_ret; exact Logic.I|].
    hstep. cbv zeta. hstep; [apply hoare_ret; exact Logic.I|].
    hstep; [apply hoare_ret; exact Logic.I|]. apply IH.
Qed.

Lemma hoare_syncOlderLoop wallet startMs endMs pages beforeLt anyEvents stats :
  hoare I (syncOlderLoop Address API_KEY wallet startMs endMs pages beforeLt anyEvents stats)
        (λ _, True).
Proof.
  revert beforeLt anyEvents stats.
  induction pages as [|pages IH]; intros beforeLt anyEvents stats; simpl.
  - apply hoare_ret. exact Logic.I.
  - hstep. cbv zeta. hstep; [apply hoare_ret; exact Logic.I|].
    hstep. cbv zeta.
    repeat (hstep; [apply hoare_ret; exact Logic.I|]). apply IH.
Qed.

Hint Resolve hoare_syncNewLoop hoare_syncOlderLoop : hoare.

Lemma hoare_syncNewEvents wallet startMs endMs :
  hoare I (syncNewEvents Address API_KEY wallet startMs endMs) (λ _, True).
Proof.
  unfold syncNewEvents. hstep. cbv zeta. hstep. hstep.
  eapply (hoare_bind _ _ _ (λ _, True)).
  - hstep; auto with hoare.
  - intros _ _. apply hoare_ret. exact Logic.I.
Qed.

Lemma hoare_syncOlderEvents wallet startMs endMs :
  hoare I (syncOlderEvents Address API_KEY wallet startMs endMs) (λ _, True).
Proof.
  unfold syncOlderEvents. hstep. cbv zeta. hstep; [apply hoare_ret; exact Logic.I|].
  hstep. hstep.
  eapply (hoare_bind _ _ _ (λ _, True)).
  - hstep; auto with hoare.
  - intros _ _. apply hoare_ret. exact Logic.I.
Qed.

Hint Resolve hoare_syncNewEvents hoare_syncOlderEvents : hoare.

Lemma hoare_cached wallet c :
  hoare I (cached Address wallet c)
        (λ o, ∀ row, o = Some row → from_cache Address wallet c row).
Proof.
  unfold cached. hstep. apply hoare_ret. intros row Hrow. exists db. exact Hrow.
Qed.

Lemma hoare_findTransferWithSync wallet c :
  hoare I (findTransferWithSync Address API_KEY wallet c)
        (λ found, ∀ row, f_match found = Some row → from_cache Address wallet c row).
Proof.
  unfold findTransferWithSync.
  eapply hoare_bind; [apply hoare_cached|]. intros hit Hhit.
  destruct hit as [row|].
  { apply hoare_ret. simpl. intros r [= <-]. auto. }
  hstep. hstep. cbv zeta. hstep; [apply hoare_ret; simpl; discriminate|].
  hstep.
  eapply hoare_bind; [apply hoare_cached|]. intros hitNew HhitNew.
  destruct hitNew as [row|].
  { apply hoare_ret. simpl. intros r [= <-]. auto. }
  hstep. cbv zeta.
  eapply (hoare_bind _ _ _ (λ _, True)).
  { hstep; [|apply hoare_ret; exact Logic.I]. hstep. apply hoare_ret. exact Logic.I. }
  intros _ _.
  eapply hoare_bind; [apply hoare_cached|]. intros hitOld HhitOld.
  destruct hitOld as [row|]; apply hoare_ret; simpl; [intros r [= <-]; auto | discriminate].
Qed.

Lemma hoare_checkRateLimit sender toolName cfg :
  hoare I (checkRateLimit sender toolName cfg) (λ _, True).
Proof.
  unfold checkRateLimit. hstep. hstep. cbv zeta.
  assert (Hfresh : ∀ now,
    hoare I (modifyDb (set_rate_limits
               <[toolName +:+ ":" +:+ JS.ofZ sender := mkRateRow now 1]>)
             ≫= λ _, mret (Allowed (max cfg - 1))) (λ _, True)).
  { intros now. eapply (hoare_bind _ _ _ (λ _, True)).
    - apply hoare_frame_modify; reflexivity.
    - intros _ _. apply hoare_ret. exact Logic.I. }
  hstep; [|apply Hfresh].
  hstep; [apply Hfresh|].
  hstep; [apply hoare_ret; exact Logic.I|].
  eapply (hoare_bind _ _ _ (λ _, True)).
  - apply hoare_frame_modify; reflexivity.
  - intros _ _. apply hoare_ret. exact Logic.I.
Qed.

Lemma hoare_guarded toolName ctx body (Q : ToolResult -> Prop) :
  hoare I body Q → (∀ e, Q (Failure e)) → hoare I (guarded toolName ctx body) Q.
Proof.
  intros Hbody HQ. unfold guarded. hstep; [|apply hoare_ret; apply HQ].
  eapply (hoare_bind _ _ _ (λ _, True)); [apply hoare_checkRateLimit|].
  intros rl _. destruct rl; [exact Hbody | apply hoare_ret; apply HQ].
Qed.

End Frame.

(** ** Ingestion *)

Lemma key_eqb_eq k1 k2 : key_eqb k1 k2 = true ↔ k1 = k2.
Proof.
  destruct k1 as [[a b] c], k2 as [[a' b'] c']. unfold key_eqb. simpl.
  rewrite !andb_true_iff, !String.eqb_eq, Z.eqb_eq.
  split; [intros [[-> ->] ->]; reflexivity | intros [= -> -> ->]; auto].
Qed.

Lemma present_spec k rows : present k rows = true ↔ k ∈ tr_key <$> rows.
Proof.
  unfold present. rewrite existsb_exists, list_elem_of_fmap. split.
  - intros (r & Hin & Heq). apply key_eqb_eq in Heq. exists r.
    split; [auto | by apply list_elem_of_In].
  - intros (r & -> & Hin). exists r. split; [by apply list_elem_of_In | by apply key_eqb_eq].
Qed.

Lemma present_app k l1 l2 : present k (l1 ++ l2) = present k l1 || present k l2.
Proof. apply existsb_app. Qed.

Lemma stmtTransferInsert_present row rows :
  present (tr_key row) rows = true → stmtTransferInsert row rows = rows.
Proof. unfold stmtTransferInsert, present. intros ->. reflexivity. Qed.

Lemma stmtTransferInsert_fresh row rows :
  present (tr_key row) rows = false → stmtTransferInsert row rows = rows ++ [row].
Proof. unfold stmtTransferInsert, present. intros ->. reflexivity. Qed.

Lemma stmtTransferInsert_has row rows :
  present (tr_key row) (stmtTransferInsert row rows) = true.
Proof.
  destruct (present (tr_key row) rows) eqn:Hp.
  - rewrite stmtTransferInsert_present; auto.
  - rewrite stmtTransferInsert_fresh, present_app by auto. simpl.
    replace (key_eqb (tr_key row) (tr_key row)) with true
      by (symmetry; by apply key_eqb_eq).
    apply orb_true_r.
Qed.

Lemma stmtTransferInsert_NoDup row rows :
  NoDup (tr_key <$> rows) → NoDup (tr_key <$> stmtTransferInsert row rows).
Proof.
  intros Hnd. destruct (present (tr_key row) rows) eqn:Hp.
  - rewrite stmtTransferInsert_present; auto.
  - rewrite stmtTransferInsert_fresh by auto. rewrite fmap_app. simpl.
    apply NoDup_app. split; [exact Hnd|]. split.
    + intros k Hk Hk'. apply list_elem_of_singleton in Hk'. subst k.
      apply present_spec in Hk. congruence.
    + apply NoDup_singleton.
Qed.

Section Ingestion.

Context (Address : option (string -> option string)).

(** [ingestAction] is one [INSERT OR IGNORE] of a row with that key and
    the timestamp of the event, or nothing. *)
Lemma ingestAction_cases wallet eventId ltVal tsMs nowIso i action rows :
  match action_key Address wallet eventId ltVal i action with
  | None => ingestAction Address wallet eventId ltVal tsMs nowIso i action rows = rows
  | Some k =>
      ∃ row, tr_key row = k ∧ tr_timestamp row = tsMs ∧ tr_action_index row = i ∧
             ingestAction Address wallet eventId ltVal tsMs nowIso i action rows
             = stmtTransferInsert row rows
  end.
Proof.
  unfold action_key, ingestAction.
  destruct (negb (String.eqb (a_type action) "TonTransfer")); [reflexivity|].
  destruct (a_TonTransfer action) as [t|]; [|reflexivity].
  destruct (negb (sameAddress Address (addr_of (t_recipient t)) wallet)); [reflexivity|].
  destruct wallet as [w|]; [|reflexivity].
  eexists. split; [|split; [|split]]. 4: reflexivity. all: reflexivity.
Qed.

Lemma ingestAction_prefix wallet eventId ltVal tsMs nowIso i action rows :
  ∃ extra, ingestAction Address wallet eventId ltVal tsMs nowIso i action rows
           = rows ++ extra ∧
           Forall (λ r, tr_action_index r = i ∧ tr_timestamp r = tsMs) extra.
Proof.
  pose proof (ingestAction_cases wallet eventId ltVal tsMs nowIso i action rows) as H.
  destruct (action_key Address wallet eventId ltVal i action) as [k|].
  - destruct H as (row & Hk & Hts & Hi & ->).
    destruct (present (tr_key row) rows) eqn:Hp.
    + rewrite stmtTransferInsert_present by auto. exists []. by rewrite app_nil_r.
    + rewrite stmtTransferInsert_fresh by auto. exists [row]. split; [done|].
      repeat constructor; auto.
  - rewrite H. exists []. by rewrite app_nil_r.
Qed.

Lemma ingestAction_NoDup wallet eventId ltVal tsMs nowIso i action rows :
  NoDup (tr_key <$> rows) →
  NoDup (tr_key <$> ingestAction Address wallet eventId ltVal tsMs nowIso i action rows).
Proof.
  intros Hnd.
  pose proof (ingestAction_cases wallet eventId ltVal tsMs nowIso i action rows) as H.
  destruct (action_key Address wallet eventId ltVal i action) as [k|].
  - destruct H as (row & _ & _ & _ & ->). by apply stmtTransferInsert_NoDup.
  - by rewrite H.
Qed.

Lemma covered_app_rows ks rows extra : covered ks rows → covered ks (rows ++ extra).
Proof.
  unfold covered. intros H. eapply Forall_impl; [exact H|].
  simpl. intros k Hk. rewrite present_app, Hk. reflexivity.
Qed.

Lemma ingestActions_prefix wallet eventId ltVal tsMs nowIso actions : ∀ i rows,
  ∃ extra, ingestActions Address wallet eventId ltVal tsMs nowIso i actions rows
           = rows ++ extra ∧
           Forall (λ r, i ≤ tr_action_index r ∧ tr_timestamp r = tsMs) extra.
Proof.
  induction actions as [|a actions IH]; intros i rows; simpl.
  - exists []. by rewrite app_nil_r.
  - destruct (ingestAction_prefix wallet eventId ltVal tsMs nowIso i a rows)
      as (e1 & -> & H1).
    destruct (IH (i + 1) (rows ++ e1)) as (e2 & -> & H2).
    exists (e1 ++ e2). rewrite app_assoc. split; [done|].
    apply Forall_app. split.
    + eapply Forall_impl; [exact H1|]. simpl. intros r [-> ?]. split; [lia | done].
    + eapply Forall_impl; [exact H2|]. simpl. intros r [? ?]. split; [lia | done].
Qed.

Lemma ingestActions_noop wallet eventId ltVal tsMs nowIso actions : ∀ i rows,
  covered (keys_actions Address wallet eventId ltVal i actions) rows →
  ingestActions Address wallet eventId ltVal tsMs nowIso i actions rows = rows.
Proof.
  induction actions as [|a actions IH]; intros i rows Hc; simpl; [reflexivity|].
  simpl in Hc. apply Forall_app in Hc as [Ha Hrest].
  pose proof (ingestAction_cases wallet eventId ltVal tsMs nowIso i a rows) as H.
  destruct (action_key Address wallet eventId ltVal i a) as [k|].
  - destruct H as (row & Hk & _ & _ & ->).
    rewrite <- Hk in Ha. rewrite Forall_singleton in Ha.
    rewrite stmtTransferInsert_present by exact Ha. by apply IH.
  - rewrite H. by apply IH.
Qed.

Lemma ingestActions_covers wallet eventId ltVal tsMs nowIso actions : ∀ i rows,
  covered (keys_actions Address wallet eventId ltVal i actions)
          (ingestActions Address wallet eventId ltVal tsMs nowIso i actions rows).
Proof.
  induction actions as [|a actions IH]; intros i rows; simpl; [constructor|].
  apply Forall_app. split; [|apply IH].
  pose proof (ingestAction_cases wallet eventId ltVal tsMs nowIso i a rows) as H.
  destruct (action_key Address wallet eventId ltVal i a) as [k|]; [|constructor].
  destruct H as (row & Hk & _ & _ & Heq). apply Forall_singleton.
  destruct (ingestActions_prefix wallet eventId ltVal tsMs nowIso actions (i + 1)
              (ingestAction Address wallet eventId ltVal tsMs nowIso i a rows))
    as (extra & -> & _).
  rewrite present_app, Heq, <- Hk, stmtTransferInsert_has. reflexivity.
Qed.

Lemma ingestActions_NoDup wallet eventId ltVal tsMs nowIso actions : ∀ i rows,
  NoDup (tr_key <$> rows) →
  NoDup (tr_key <$> ingestActions Address wallet eventId ltVal tsMs nowIso i actions rows).
Proof.
  induction actions as [|a actions IH]; intros i rows Hnd; simpl; [exact Hnd|].
  apply IH. by apply ingestAction_NoDup.
Qed.

Lemma ingestLoop_prefix wallet nowIso events : ∀ rows a,
  ∃ extra, (ingestLoop Address wallet nowIso events rows a).1 = rows ++ extra.
Proof.
  induction events as [|ev events IH]; intros rows a; simpl.
  - exists []. by rewrite app_nil_r.
  - destruct (ingestActions_prefix wallet (ev_eventId ev) (ev_ltVal ev) (ev_tsMs ev)
                nowIso (default [] (ev_actions ev)) 0 rows) as (e1 & -> & _).
    destruct (IH (rows ++ e1) (accEvent ev a)) as (e2 & ->).
    exists (e1 ++ e2). by rewrite app_assoc.
Qed.

Lemma ingestLoop_noop wallet nowIso events : ∀ rows a,
  covered (concat (keys_event Address wallet <$> events)) rows →
  (ingestLoop Address wallet nowIso events rows a).1 = rows.
Proof.
  induction events as [|ev events IH]; intros rows a Hc; simpl; [reflexivity|].
  simpl in Hc. apply Forall_app in Hc as [Hev Hrest].
  rewrite ingestActions_noop by exact Hev. by apply IH.
Qed.

Lemma ingestLoop_covers wallet nowIso events : ∀ rows a,
  covered (concat (keys_event Address wallet <$> events))
          (ingestLoop Address wallet nowIso events rows a).1.
Proof.
  induction events as [|ev events IH]; intros rows a; simpl; [constructor|].
  apply Forall_app. split; [|apply IH].
  destruct (ingestLoop_prefix wallet nowIso events
              (ingestActions Address wallet (ev_eventId ev) (ev_ltVal ev) (ev_tsMs ev)
                 nowIso 0 (default [] (ev_actions ev)) rows) (accEvent ev a))
    as (extra & ->).
  apply covered_app_rows, ingestActions_covers.
Qed.

Lemma ingestLoop_NoDup wallet nowIso events : ∀ rows a,
  NoDup (tr_key <$> rows) →
  NoDup (tr_key <$> (ingestLoop Address wallet nowIso events rows a).1).
Proof.
  induction events as [|ev events IH]; intros rows a Hnd; simpl; [exact Hnd|].
  apply IH. by apply ingestActions_NoDup.
Qed.

(** The cache after [ingestEvents]: unchanged when the call throws, the
    result of the loop when it returns. *)
Lemma ingestEvents_transfers wallet events w :
  transfers (w_db (ingestEvents Address wallet events w).2) =
  match (ingestEvents Address wallet events w).1 with
  | Ok _ => ingestRows Address wallet (w_now w) events (transfers (w_db w))
  | Throw _ => transfers (w_db w)
  end.
Proof.
  unfold ingestEvents, ingestRows, nowIso, isoOf, mbind, M_bind, Date_now, getDb. simpl.
  unfold JS.toISOString.
  destruct ((- JS.MAX_DATE <=? w_now w) && (w_now w <=? JS.MAX_DATE)); simpl;
    [|reflexivity].
  destruct (ingestLoop Address wallet (w_now w) events (transfers (w_db w))
              {| minLt := None; maxLt := None; minTs := None; maxTs := None |});
    reflexivity.
Qed.

(** C8. Ingestion is idempotent: after [ingestEvents] has run on a list
    of events, running it again on the same events, at any later time,
    leaves the cached transfer rows exactly as they were after the first
    run; and a cache in which each (wallet, event_id, action_index) key has
    at most one row stays so. *)
Theorem ingestEvents_idempotent wallet events w stats w' :
  (ingestEvents Address wallet events w).1 = Ok stats →
  w_db w' = w_db (ingestEvents Address wallet events w).2 →
  transfers (w_db (ingestEvents Address wallet events w').2)
    = transfers (w_db (ingestEvents Address wallet events w).2) ∧
  (NoDup (tr_key <$> transfers (w_db w)) →
   NoDup (tr_key <$> transfers (w_db (ingestEvents Address wallet events w).2))).
Proof.
  intros Hok Hdb.
  pose proof (ingestEvents_transfers wallet events w) as H1. rewrite Hok in H1.
  pose proof (ingestEvents_transfers wallet events w') as H2.
  rewrite Hdb, H1 in H2. split.
  - rewrite H2, H1. destruct (ingestEvents Address wallet events w').1; [|reflexivity].
    unfold ingestRows. apply ingestLoop_noop, ingestLoop_covers.
  - intros Hnd. rewrite H1. unfold ingestRows. by apply ingestLoop_NoDup.
Qed.

End Ingestion.

(** ** From tool bodies to tool calls *)

Lemma run_tool_hoare (I : DB -> Prop) (body : M ToolResult) (Q : ToolResult -> Prop) :
  hoare I body Q → (∀ e, Q (Failure e)) →
  ∀ w, I (w_db w) → I (w_db (run_tool body w).2) ∧ Q (run_tool body w).1.
Proof.
  intros Hb HQ w HI. unfold run_tool. destruct (Hb w HI) as [HI' Hres].
  destruct (body w) as [[r|e] w']; simpl in *; auto.
Qed.

Lemma hoare_true_modifyDb (f : DB -> DB) : hoare (λ _, True) (modifyDb f) (λ _, True).
Proof. apply hoare_modifyDb. auto. Qed.

Lemma frame_true (db db' : DB) :
  agents db = agents db' → invoices db = invoices db' → True → True.
Proof. auto. Qed.

#[global] Hint Resolve hoare_true_modifyDb : hoare.

Lemma hoare_matchTime (I : DB -> Prop) row : hoare I (matchTime row) (λ _, True).
Proof.
  unfold matchTime. destruct (tr_timestamp row) as [t|]; [destruct (JS.truthyZ t)|];
    auto with hoare.
Qed.

#[global] Hint Resolve hoare_matchTime : hoare.

(** ** Transfers without a timestamp *)

Section NullTimestamp.

Context (Address : option (string -> option string)) (API_KEY : option string).

Lemma query_where_timestamp wallet tag startMs endMs r :
  query_where wallet tag startMs endMs r = true → ∃ t, tr_timestamp r = Some t.
Proof.
  unfold query_where. destruct wallet, tag, (tr_timestamp r); try discriminate. eauto.
Qed.

Lemma firstPassing_in minA exp strict rows row :
  firstPassing Address minA exp strict rows = Some row → row ∈ rows.
Proof.
  intros H. destruct (firstPassing_split Address _ _ _ _ _ H) as (l1 & l2 & -> & _).
  set_solver.
Qed.

Lemma queryCachedTransfer_timestamp db wallet tag startMs endMs minA exp strict row :
  queryCachedTransfer Address db wallet tag startMs endMs minA exp strict = Some row →
  ∃ t, tr_timestamp row = Some t.
Proof.
  unfold queryCachedTransfer. intros H. apply firstPassing_in in H.
  destruct (stmtTransferQuery_prefix db wallet tag startMs endMs 50) as [rest Hs].
  assert (Hin : row ∈ merge_sort ts_le
            (filter (λ r, query_where wallet tag startMs endMs r = true) (transfers db))).
  { rewrite Hs. set_solver. }
  apply in_sorted_query in Hin as [_ Hw]. by eapply query_where_timestamp.
Qed.

Lemma stmtTransferQuery_without_null db wallet tag startMs endMs limit :
  stmtTransferQuery (without_null_timestamps db) wallet tag startMs endMs limit
  = stmtTransferQuery db wallet tag startMs endMs limit.
Proof.
  unfold stmtTransferQuery, without_null_timestamps. simpl.
  f_equal. f_equal. rewrite list_filter_filter. apply list_filter_iff.
  intros r. split; [tauto|]. intros H. split; [exact H|].
  destruct (query_where_timestamp _ _ _ _ _ H) as [t ->]. eauto.
Qed.

Lemma ingestActions_inserts wallet eventId ltVal tsMs nowIso actions : ∀ i rows n a k,
  actions !! n = Some a →
  action_key Address wallet eventId ltVal (i + Z.of_nat n) a = Some k →
  present k rows = false →
  ∃ row, row ∈ ingestActions Address wallet eventId ltVal tsMs nowIso i actions rows ∧
         tr_key row = k ∧ tr_timestamp row = tsMs.
Proof.
  induction actions as [|a0 actions IH]; intros i rows n a k Hn Hk Hp; [discriminate|].
  simpl. destruct n as [|n].
  - injection Hn as ->. rewrite Z.add_0_r in Hk.
    pose proof (ingestAction_cases Address wallet eventId ltVal tsMs nowIso i a rows) as H.
    rewrite Hk in H. destruct H as (row & Hrk & Hts & _ & ->).
    rewrite stmtTransferInsert_fresh by (by rewrite Hrk).
    destruct (ingestActions_prefix Address wallet eventId ltVal tsMs nowIso actions
                (i + 1) (rows ++ [row])) as (extra & -> & _).
    exists row. split; [set_solver | auto].
  - simpl in Hn.
    destruct (ingestAction_prefix Address wallet eventId ltVal tsMs nowIso i a0 rows)
      as (e1 & -> & He1).
    apply (IH (i + 1) (rows ++ e1) n a k Hn).
    + replace (i + 1 + Z.of_nat n) with (i + Z.of_nat (S n)) by lia. exact Hk.
    + rewrite present_app, Hp. simpl.
      apply not_true_iff_false. intros Hin.
      apply existsb_exists in Hin as (r & Hr & Heq).
      apply key_eqb_eq in Heq. apply list_elem_of_In in Hr.
      rewrite Forall_forall in He1. destruct (He1 r Hr) as [Hidx _].
      unfold action_key in Hk.
      destruct (negb (String.eqb (a_type a) "TonTransfer")); [discriminate|].
      destruct (a_TonTransfer a) as [t|]; [|discriminate].
      destruct (negb (sameAddress Address (addr_of (t_recipient t)) wallet));
        [discriminate|].
      destruct wallet as [w0|]; [|discriminate].
      injection Hk as <-. unfold tr_key in Heq. injection Heq as _ _ Hi.
      rewrite Hidx in Hi. lia.
Qed.

Lemma from_cache_timestamp wallet c row :
  from_cache Address wallet c row → ∃ t, tr_timestamp row = Some t.
Proof. intros [db H]. by eapply queryCachedTransfer_timestamp. Qed.

Lemma invCheck_body_settled invoice_id :
  hoare (λ _, True) (invCheck_body Address API_KEY invoice_id) settled_with_timestamp.
Proof.
  assert (Hno : ∀ r, ¬ fresh_match r → settled_with_timestamp r).
  { intros r Hr Hf. contradiction. }
  unfold invCheck_body. cbv zeta.
  hstep; [apply hoare_ret, Hno; simpl; tauto|].
  hstep. hstep; [|apply hoare_ret, Hno; simpl; tauto].
  hstep; [apply hoare_ret, Hno; simpl; tauto|].
  hstep. hstep.
  { hstep. apply hoare_ret, Hno; simpl; tauto. }
  hstep; [apply hoare_ret, Hno; simpl; tauto|].
  hstep. hstep.
  eapply hoare_bind;
    [apply (hoare_findTransferWithSync Address API_KEY _ frame_true)|].
  intros result Hres. hstep. hstep.
  destruct (f_match result) as [row|] eqn:Hm;
    [|apply hoare_ret, Hno; simpl; tauto].
  hstep. hstep. apply hoare_ret. intros _.
  destruct (from_cache_timestamp _ _ _ (Hres row Hm)) as [t Ht].
  exists row, t. simpl. auto.
Qed.

Lemma invConfirmVerification_body_settled agent_id :
  hoare (λ _, True) (invConfirmVerification_body Address API_KEY agent_id)
        settled_with_timestamp.
Proof.
  assert (Hno : ∀ r, ¬ fresh_match r → settled_with_timestamp r).
  { intros r Hr Hf. contradiction. }
  unfold invConfirmVerification_body. cbv zeta.
  hstep; [apply hoare_ret, Hno; simpl; tauto|].
  hstep. hstep; [|apply hoare_ret, Hno; simpl; tauto].
  hstep; [apply hoare_ret, Hno; simpl; tauto|].
  hstep. hstep; [apply hoare_ret, Hno; simpl; tauto|].
  hstep. hstep. hstep.
  eapply hoare_bind;
    [apply (hoare_findTransferWithSync Address API_KEY _ frame_true)|].
  intros result Hres.
  destruct (f_match result) as [row|] eqn:Hm;
    [|apply hoare_ret, Hno; simpl; tauto].
  hstep. hstep. hstep. apply hoare_ret. intros _.
  destruct (from_cache_timestamp _ _ _ (Hres row Hm)) as [t Ht].
  exists row, t. simpl. auto.
Qed.


End NullTimestamp.

(** ** Calls that pass the guards *)

Lemma guarded_pass toolName ctx body w :
  guards_pass toolName ctx w = true →
  guarded toolName ctx body w = body (after_rate toolName ctx w).
Proof.
  unfold guards_pass, guarded, after_rate, mbind, M_bind.
  destruct (assertAccess ctx toolName); [|discriminate].
  destruct (checkRateLimit _ _ _ w) as [[[n|ms]|e] w']; simpl; try discriminate.
  reflexivity.
Qed.

Lemma checkRateLimit_frame sender toolName cfg w :
  let w' := (checkRateLimit sender toolName cfg w).2 in
  agents (w_db w') = agents (w_db w) ∧ invoices (w_db w') = invoices (w_db w) ∧
  transfers (w_db w') = transfers (w_db w) ∧ wallet_sync (w_db w') = wallet_sync (w_db w) ∧
  w_now w' = w_now w ∧ w_net w' = w_net w ∧ w_requests w' = w_requests w ∧
  w_wallet_file w' = w_wallet_file w ∧ w_rand w' = w_rand w.
Proof.
  unfold checkRateLimit, mbind, M_bind, Date_now, getDb. simpl.
  destruct (rate_limits (w_db w) !! _) as [row|]; simpl; [|repeat split].
  destruct (w_now w - window_start row >=? windowMs cfg); simpl; [repeat split|].
  destruct (count row >=? max cfg); simpl; repeat split.
Qed.

Lemma after_rate_frame toolName ctx w :
  let w' := after_rate toolName ctx w in
  agents (w_db w') = agents (w_db w) ∧ invoices (w_db w') = invoices (w_db w) ∧
  transfers (w_db w') = transfers (w_db w) ∧ wallet_sync (w_db w') = wallet_sync (w_db w) ∧
  w_now w' = w_now w ∧ w_net w' = w_net w ∧ w_requests w' = w_requests w ∧
  w_wallet_file w' = w_wallet_file w ∧ w_rand w' = w_rand w.
Proof. apply checkRateLimit_frame. Qed.

(** ** Paid invoices *)

Section PaidTerminal.

Context (Address : option (string -> option string)) (API_KEY : option string).
Context (id : string) (inv : Invoice).
Hypothesis Hpaid : inv_status inv = "paid".

Lemma holds_paid_frame db db' :
  agents db = agents db' → invoices db = invoices db' → (holds_paid id inv) db → (holds_paid id inv) db'.
Proof. unfold holds_paid. intros _ <-. auto. Qed.

Lemma paid_alter_other (f : Invoice -> Invoice) other db :
  other ≠ id → (holds_paid id inv) db → (holds_paid id inv) (set_invoices (alter f other) db).
Proof. unfold holds_paid. simpl. intros Hne H. by rewrite lookup_alter_ne. Qed.

Lemma invBeginVerification_body_paid params :
  hoare (holds_paid id inv) (invBeginVerification_body params) (λ _, True).
Proof.
  unfold invBeginVerification_body. cbv zeta.
  repeat (hstep; [apply hoare_ret; exact Logic.I|]).
  hstep. hstep. hstep. hstep. hstep.
  eapply (hoare_bind _ _ _ (λ _, True)).
  { apply hoare_modifyDb. auto. }
  intros _ _. hstep. apply hoare_ret. exact Logic.I.
Qed.

Lemma invConfirmVerification_body_paid agent_id :
  hoare (holds_paid id inv) (invConfirmVerification_body Address API_KEY agent_id) (λ _, True).
Proof.
  unfold invConfirmVerification_body. cbv zeta.
  hstep; [apply hoare_ret; exact Logic.I|].
  hstep. hstep; [|apply hoare_ret; exact Logic.I].
  hstep; [apply hoare_ret; exact Logic.I|].
  hstep. hstep; [apply hoare_ret; exact Logic.I|].
  hstep. hstep. hstep.
  eapply hoare_bind; [apply (hoare_findTransferWithSync _ _ _ holds_paid_frame)|].
  intros result _. hstep; [|apply hoare_ret; exact Logic.I].
  hstep. hstep.
  eapply (hoare_bind _ _ _ (λ _, True)).
  { apply hoare_modifyDb. auto. }
  intros _ _. apply hoare_ret. exact Logic.I.
Qed.

Lemma invCreate_body_paid params :
  hoare (holds_paid id inv) (invCreate_body Address params) (λ _, True).
Proof.
  unfold invCreate_body. cbv zeta.
  hstep.
  eapply (hoare_bind _ _ _ (λ _, True)).
  { hstep; [apply hoare_ret; exact Logic.I|]. hstep. apply hoare_ret. exact Logic.I. }
  intros recipient _. hstep. hstep; [apply hoare_ret; exact Logic.I|].
  hstep; [apply hoare_ret; exact Logic.I|].
  eapply (hoare_bind _ _ _ (λ _, True)).
  { hstep; [apply hoare_ret; exact Logic.I|]. hstep. apply hoare_ret. exact Logic.I. }
  intros invoiceId _. hstep; [apply hoare_ret; exact Logic.I|].
  apply hoare_bind_getDb. intros db2 Hdb2.
  destruct (bool_decide (is_Some (invoices db2 !! invoiceId))) eqn:Hex;
    [apply hoare_ret; exact Logic.I|].
  assert (Hne : invoiceId ≠ id).
  { intros ->. apply bool_decide_eq_false in Hex. apply Hex.
    unfold holds_paid in Hdb2. rewrite Hdb2. eauto. }
  hstep.
  eapply (hoare_bind _ _ _ (λ _, True)).
  { destruct (cp_expires_in_minutes params) as [n|]; [|apply hoare_ret; exact Logic.I].
    destruct (JS.truthyZ n); [|apply hoare_ret; exact Logic.I].
    hstep. hstep. apply hoare_ret. exact Logic.I. }
  intros expiresAt _.
  eapply (hoare_bind _ _ _ (λ _, True)).
  { unfold stmtInvoiceInsert. destruct recipient; [|apply hoare_throw].
    eapply (hoare_bind _ _ _ (λ _, True)).
    - apply hoare_modifyDb. unfold holds_paid. simpl. intros db' Hdb'.
      by rewrite lookup_insert_ne.
    - intros _ _. apply hoare_ret. exact Logic.I. }
  intros inv' _. apply hoare_ret. exact Logic.I.
Qed.

Lemma invCheck_body_paid invoice_id :
  hoare (holds_paid id inv) (invCheck_body Address API_KEY invoice_id) (λ _, True).
Proof.
  unfold invCheck_body. cbv zeta.
  hstep; [apply hoare_ret; exact Logic.I|].
  apply hoare_bind_getDb. intros db Hdb.
  destruct (invoices db !! trimOr invoice_id) as [invoice|] eqn:Hlook;
    [|apply hoare_ret; exact Logic.I].
  hstep; [apply hoare_ret; exact Logic.I|].
  assert (Hne : trimOr invoice_id ≠ id).
  { intros Heq. rewrite Heq in Hlook. unfold holds_paid in Hdb.
    rewrite Hdb in Hlook. injection Hlook as <-.
    rewrite Hpaid in Heqb0. discriminate. }
  hstep. hstep.
  { eapply (hoare_bind _ _ _ (λ _, True)).
    - apply hoare_modifyDb. intros db'. by apply paid_alter_other.
    - intros _ _. apply hoare_ret. exact Logic.I. }
  hstep; [apply hoare_ret; exact Logic.I|].
  hstep. hstep.
  eapply hoare_bind; [apply (hoare_findTransferWithSync _ _ _ holds_paid_frame)|].
  intros result _. hstep.
  eapply (hoare_bind _ _ _ (λ _, True)).
  { apply hoare_modifyDb. intros db'. by apply paid_alter_other. }
  intros _ _. hstep; [|apply hoare_ret; exact Logic.I].
  hstep.
  eapply (hoare_bind _ _ _ (λ _, True)).
  { apply hoare_modifyDb. intros db'. by apply paid_alter_other. }
  intros _ _. apply hoare_ret. exact Logic.I.
Qed.

Lemma invReceipt_body_paid invoice_id :
  hoare (holds_paid id inv) (invReceipt_body invoice_id) (λ _, True).
Proof.
  unfold invReceipt_body. cbv zeta.
  hstep; [apply hoare_ret; exact Logic.I|].
  hstep. hstep; [|apply hoare_ret; exact Logic.I].
  hstep; apply hoare_ret; exact Logic.I.
Qed.

(** No tool call changes a paid invoice. *)
Lemma execute_keeps_paid c w :
  (holds_paid id inv) (w_db w) → (holds_paid id inv) (w_db (execute Address API_KEY c w).2).
Proof.
  intros H.
  destruct c; simpl; unfold invRegisterAgent, invBeginVerification,
    invConfirmVerification, invCreate, invCheck, invReceipt;
    (eapply (run_tool_hoare (holds_paid id inv) _ (λ _, True)); [|auto|exact H]);
    apply (hoare_guarded (holds_paid id inv) holds_paid_frame); auto.
  - apply invBeginVerification_body_paid.
  - apply invBeginVerification_body_paid.
  - apply invConfirmVerification_body_paid.
  - apply invCreate_body_paid.
  - apply invCheck_body_paid.
  - apply invReceipt_body_paid.
Qed.

Lemma steps_keep_paid w w' :
  steps Address API_KEY w w' → (holds_paid id inv) (w_db w) → (holds_paid id inv) (w_db w').
Proof.
  induction 1 as [|w w' w'' _ IH Hstep]; [auto|].
  intros H. specialize (IH H). destruct Hstep as [c w0 Hdb ->].
  apply execute_keeps_paid. unfold same_db in Hdb. by rewrite <- Hdb.
Qed.

(** What [inv_check] answers for the paid invoice, and what it leaves
    untouched. *)
Lemma invCheck_paid invoice_id ctx w :
  trimOr invoice_id = id → id ≠ "" →
  (holds_paid id inv) (w_db w) →
  guards_pass "inv_check" ctx w = true →
  invCheck Address API_KEY invoice_id ctx w =
    (Success (InvoicePaidData id "paid" (inv_paid_at inv) (inv_tx_event_id inv)
                (inv_tx_sender_wallet inv) (inv_tx_amount_ton inv)),
     after_rate "inv_check" ctx w).
Proof.
  intros Hid Hne Hdb Hg. unfold invCheck, run_tool.
  rewrite guarded_pass by exact Hg.
  destruct (after_rate_frame "inv_check" ctx w) as (_ & Hinv & _).
  assert (Hnon : JS.nonempty id = true) by (by destruct id).
  unfold invCheck_body. rewrite Hid, Hnon.
  unfold mbind, M_bind, getDb. simpl.
  rewrite Hinv. unfold holds_paid in Hdb. rewrite Hdb, Hpaid. reflexivity.
Qed.

End PaidTerminal.

(** C3. Once an invoice is stored with status 'paid', it stays exactly as
    it is through every sequence of tool calls (whatever the clock, the
    indexer and the callers do in between), and every later [inv_check] for
    it that passes the access and rate-limit guards returns status 'paid'
    with the stored [paid_at], [tx_event_id], [tx_sender_wallet] and
    [tx_amount_ton], without sending a request to the indexer and without
    touching the cache, the watermarks or the invoices. *)
Theorem paid_invoice_is_terminal Address API_KEY id inv w w' :
  id ≠ "" →
  invoices (w_db w) !! id = Some inv →
  inv_status inv = "paid" →
  steps Address API_KEY w w' →
  invoices (w_db w') !! id = Some inv ∧
  ∀ invoice_id ctx w0,
    trimOr invoice_id = id → same_db w' w0 → guards_pass "inv_check" ctx w0 = true →
    let r := invCheck Address API_KEY invoice_id ctx w0 in
    r.1 = Success (InvoicePaidData id "paid" (inv_paid_at inv) (inv_tx_event_id inv)
                     (inv_tx_sender_wallet inv) (inv_tx_amount_ton inv)) ∧
    w_requests r.2 = w_requests w0 ∧ w_net r.2 = w_net w0 ∧
    transfers (w_db r.2) = transfers (w_db w0) ∧
    wallet_sync (w_db r.2) = wallet_sync (w_db w0) ∧
    invoices (w_db r.2) = invoices (w_db w0).
Proof.
  intros Hne Hlook Hpaid Hsteps.
  pose proof (steps_keep_paid Address API_KEY id inv Hpaid w w' Hsteps Hlook) as Hkept.
  split; [exact Hkept|].
  intros invoice_id ctx w0 Hid Hdb Hg. cbv zeta.
  rewrite (invCheck_paid Address API_KEY id inv Hpaid invoice_id ctx w0 Hid Hne);
    [| unfold holds_paid; unfold same_db in Hdb; by rewrite <- Hdb | exact Hg].
  destruct (after_rate_frame "inv_check" ctx w0)
    as (_ & Hi & Ht & Hs & _ & Hn & Hr & _).
  simpl. repeat split; assumption.
Qed.

(** ** Expiry *)

Lemma pastExpiry_true e now : e ≠ 0 → e < now → pastExpiry (Some e) now = true.
Proof.
  intros He Hlt. unfold pastExpiry, parseIso, JS.truthyZ.
  destruct (Z.eqb_spec e 0); [contradiction|].
  destruct (Z.gtb_spec now e); [reflexivity | lia].
Qed.

Section Expiry.

Context (Address : option (string -> option string)) (API_KEY : option string).

Lemma invCheck_expired invoice_id ctx w inv e :
  guards_pass "inv_check" ctx w = true →
  trimOr invoice_id ≠ "" →
  invoices (w_db w) !! trimOr invoice_id = Some inv →
  inv_status inv = "pending" →
  inv_expires_at inv = Some e → e ≠ 0 → e < w_now w →
  invCheck Address API_KEY invoice_id ctx w =
    (Success (InvoiceExpiredData (trimOr invoice_id) (Some e)),
     with_db (stmtInvoiceUpdateStatus "expired" (trimOr invoice_id)
                (w_db (after_rate "inv_check" ctx w)))
             (after_rate "inv_check" ctx w)).
Proof.
  intros Hg Hne Hlook Hst Hexp He Hlt. unfold invCheck, run_tool.
  rewrite guarded_pass by exact Hg.
  destruct (after_rate_frame "inv_check" ctx w) as (_ & Hinv & _ & _ & Hnow & _).
  assert (Hnon : JS.nonempty (trimOr invoice_id) = true)
    by (by destruct (trimOr invoice_id)).
  unfold invCheck_body. rewrite Hnon.
  unfold mbind, M_bind, getDb, Date_now, modifyDb. simpl.
  rewrite Hinv, Hlook, Hst, Hexp. simpl. rewrite Hnow.
  rewrite pastExpiry_true by assumption. reflexivity.
Qed.

Lemma invConfirmVerification_expired agent_id ctx w agent e :
  guards_pass "inv_confirm_verification" ctx w = true →
  trimOr agent_id ≠ "" →
  agents (w_db w) !! trimOr agent_id = Some agent →
  ag_status agent = "pending" →
  ag_challenge_expires_at agent = Some e → e ≠ 0 → e < w_now w →
  invConfirmVerification Address API_KEY agent_id ctx w =
    (Success (AgentExpiredData (trimOr agent_id) (Some e)),
     after_rate "inv_confirm_verification" ctx w).
Proof.
  intros Hg Hne Hlook Hst Hexp He Hlt. unfold invConfirmVerification, run_tool.
  rewrite guarded_pass by exact Hg.
  destruct (after_rate_frame "inv_confirm_verification" ctx w)
    as (Hag & _ & _ & _ & Hnow & _).
  assert (Hnon : JS.nonempty (trimOr agent_id) = true)
    by (by destruct (trimOr agent_id)).
  unfold invConfirmVerification_body. rewrite Hnon.
  unfold mbind, M_bind, getDb, Date_now. simpl.
  rewrite Hag, Hlook, Hst, Hexp. simpl. rewrite Hnow.
  rewrite pastExpiry_true by assumption. reflexivity.
Qed.

(** C6. A pending invoice whose [expires_at] is set (a stored expiry
    that is truthy for the code, that is, any instant but the epoch
    instant 0 itself) and strictly earlier than the clock at check time:
    [inv_check], when it passes the guards, answers 'expired', whatever
    the cache holds, and so never 'paid'.  The same for a pending
    verification challenge and [inv_confirm_verification], which never
    answers 'verified' then. *)
Theorem expiry_wins_over_match :
  (∀ invoice_id ctx w inv e,
     guards_pass "inv_check" ctx w = true →
     trimOr invoice_id ≠ "" →
     invoices (w_db w) !! trimOr invoice_id = Some inv →
     inv_status inv = "pending" →
     inv_expires_at inv = Some e → e ≠ 0 → e < w_now w →
     ∃ d, (invCheck Address API_KEY invoice_id ctx w).1 = Success d ∧
          d = InvoiceExpiredData (trimOr invoice_id) (Some e) ∧
          data_status d = "expired" ∧ data_status d ≠ "paid") ∧
  (∀ agent_id ctx w agent e,
     guards_pass "inv_confirm_verification" ctx w = true →
     trimOr agent_id ≠ "" →
     agents (w_db w) !! trimOr agent_id = Some agent →
     ag_status agent = "pending" →
     ag_challenge_expires_at agent = Some e → e ≠ 0 → e < w_now w →
     ∃ d, (invConfirmVerification Address API_KEY agent_id ctx w).1 = Success d ∧
          d = AgentExpiredData (trimOr agent_id) (Some e) ∧
          data_status d = "expired" ∧ data_status d ≠ "verified").
Proof.
  split.
  - intros invoice_id ctx w inv e Hg Hne Hlook Hst Hexp He Hlt.
    rewrite (invCheck_expired invoice_id ctx w inv e) by assumption.
    eexists. split; [reflexivity|]. split; [reflexivity|]. split; [reflexivity|].
    discriminate.
  - intros agent_id ctx w agent e Hg Hne Hlook Hst Hexp He Hlt.
    rewrite (invConfirmVerification_expired agent_id ctx w agent e) by assumption.
    eexists. split; [reflexivity|]. split; [reflexivity|]. split; [reflexivity|].
    discriminate.
Qed.

End Expiry.

(** ** Triples: relating the returned value to the database left behind *)

Section Triples.

Context {A : Type} (P : DB -> Prop).

Lemma triple_ret (a : A) (Q : A -> DB -> Prop) :
  (∀ db, P db → Q a db) → triple P (mret a) Q.
Proof. intros HQ w HP a' [= <-]. by apply HQ. Qed.

Lemma triple_throw (e : Err) (Q : A -> DB -> Prop) : triple P (throw e) Q.
Proof. intros w HP a' [=]. Qed.

Lemma triple_bind {B} (m : M B) (f : B -> M A) (R : B -> DB -> Prop) (Q : A -> DB -> Prop) :
  triple P m R → (∀ b, triple (R b) (f b) Q) → triple P (m ≫= f) Q.
Proof.
  intros Hm Hf w HP a. unfold mbind, M_bind.
  specialize (Hm w HP). destruct (m w) as [[b|e] w'] eqn:Hmw; simpl in *.
  - intros Ha. apply (Hf b w' (Hm b eq_refl) a Ha).
  - intros [=].
Qed.

Lemma triple_frame_bind {B} (m : M B) (f : B -> M A) (Q : A -> DB -> Prop) :
  hoare P m (λ _, True) → (∀ b, triple P (f b) Q) → triple P (m ≫= f) Q.
Proof.
  intros Hm Hf. apply (triple_bind _ _ (λ _ db, P db)); [|exact Hf].
  intros w HP b _. by apply Hm.
Qed.

Lemma triple_getDb_bind (f : DB -> M A) (Q : A -> DB -> Prop) :
  (∀ db, P db → triple P (f db) Q) → triple P (getDb ≫= f) Q.
Proof.
  intros Hf w HP a. unfold mbind, M_bind, getDb. simpl. apply (Hf (w_db w) HP w HP).
Qed.

(** When no value [m] can return is constrained by [Q]. *)
Lemma triple_of_shape (m : M A) (Q : A -> DB -> Prop) :
  hoare (λ _, True) m (λ a, ∀ db, Q a db) → triple P m Q.
Proof. intros Hm w _ a Ha. destruct (Hm w Logic.I) as [_ H]. by apply H. Qed.

Lemma triple_modifyDb_then (f : DB -> DB) (a : A) (Q : A -> DB -> Prop) :
  (∀ db, P db → Q a (f db)) → triple P (modifyDb f ≫= λ _, mret a) Q.
Proof. intros HQ w HP a' [= <-]. by apply HQ. Qed.

End Triples.

Lemma run_tool_success body w d :
  (run_tool body w).1 = Success d →
  (body w).1 = Ok (Success d) ∧ (run_tool body w).2 = (body w).2.
Proof.
  unfold run_tool. destruct (body w) as [[r|e] w']; simpl; [|discriminate].
  intros ->. auto.
Qed.

Lemma triple_guarded (P : DB -> Prop) toolName ctx body (Q : ToolResult -> DB -> Prop) :
  (∀ db db', agents db = agents db' → invoices db = invoices db' → P db → P db') →
  triple P body Q → (∀ e db, Q (Failure e) db) → triple P (guarded toolName ctx body) Q.
Proof.
  intros Hframe Hbody HQ. unfold guarded.
  destruct (assertAccess ctx toolName); [|apply triple_ret; auto].
  apply triple_frame_bind; [by apply hoare_checkRateLimit|].
  intros [n|ms]; [exact Hbody | apply triple_ret; auto].
Qed.

(** ** What expiry writes *)

Section ExpiryWrites.

Context (Address : option (string -> option string)) (API_KEY : option string).

(** Past the expiry test, [inv_confirm_verification] no longer answers
    'expired'. *)
Lemma confirm_rest_shape agentId agent :
  hoare (λ _, True)
    (file ← getAgentWalletAddress;
     let recipient := normalizeAddress Address (Some file) in
     let tag := ag_challenge_tag agent in
     amountNanoMin ← BigIntOrThrow (default "0" (ag_challenge_amount_nano agent));
     let startMs := parseIso (ag_challenge_created_at agent) in
     now ← Date_now;
     let endMs := default now (parseIso (ag_challenge_expires_at agent)) in
     result ← findTransferWithSync Address API_KEY recipient
                (mkCriteria tag amountNanoMin (ag_wallet_address agent) true
                            startMs (Some endMs));
     match f_match result with
     | None =>
         let status :=
           if String.eqb (f_source result) "throttled" then "throttled" else "pending" in
         mret (Success (AgentWaitingData agentId status (ag_wallet_address agent) tag))
     | Some row =>
         verifiedAt ← matchTime row;
         now ← nowIso;
         _ ← modifyDb (stmtAgentVerify verifiedAt (tr_event_id row) (tr_sender row)
                         now agentId);
         mret (Success (AgentNowVerifiedData agentId (ag_wallet_address agent) verifiedAt
                          (tr_event_id row) (tr_sender row)))
     end)
    (λ r, ¬ is_agent_expired r).
Proof.
  hstep. cbv zeta. hstep. hstep.
  eapply (hoare_bind _ _ _ (λ _, True)).
  { eapply hoare_weaken;
      [apply (hoare_findTransferWithSync Address API_KEY _ frame_true) | auto]. }
  intros result _. hstep; [|apply hoare_ret; simpl; tauto].
  hstep. hstep. hstep. apply hoare_ret. simpl. tauto.
Qed.

Lemma invConfirmVerification_body_expired agents0 agent_id :
  triple (λ db, agents db = agents0)
    (invConfirmVerification_body Address API_KEY agent_id)
    (λ r db, is_agent_expired r → agents db = agents0).
Proof.
  unfold invConfirmVerification_body. cbv zeta.
  destruct (negb (JS.nonempty (trimOr agent_id))); [apply triple_ret; simpl; tauto|].
  apply triple_getDb_bind. intros db Hdb.
  destruct (agents db !! trimOr agent_id) as [agent|]; [|apply triple_ret; simpl; tauto].
  destruct (String.eqb (ag_status agent) "verified"); [apply triple_ret; simpl; tauto|].
  apply triple_frame_bind; [auto with hoare|]. intros now.
  destruct (pastExpiry (ag_challenge_expires_at agent) now).
  - apply triple_ret. auto.
  - apply triple_of_shape.
    eapply hoare_weaken; [apply confirm_rest_shape|].
    simpl. intros r Hr db' Hexp. contradiction.
Qed.

(** Past the expiry test, [inv_check] no longer answers 'expired'. *)
Lemma check_rest_shape invoiceId invoice :
  hoare (λ _, True)
    (let strictSender := bool_decide (inv_strict_sender invoice = Some 1) in
     if strictSender && negb (JS.truthy (inv_expected_sender_wallet invoice)) then
       mret (Failure "invoice is missing expected_sender_wallet")
     else
     let tag := "INV#" +:+ invoiceId in
     amountNanoMin ← BigIntOrThrow (inv_amount_nano invoice);
     let startMs := default 0 (parseIso (Some (inv_created_at invoice))) in
     now ← Date_now;
     let endMs := default now (parseIso (inv_expires_at invoice)) in
     result ← findTransferWithSync Address API_KEY (Some (inv_recipient_wallet invoice))
                (mkCriteria (Some tag) amountNanoMin (inv_expected_sender_wallet invoice)
                            strictSender (Some startMs) (Some endMs));
     at_ ← nowIso;
     _ ← modifyDb (stmtInvoiceUpdateLastCheck at_ invoiceId);
     match f_match result with
     | None =>
         let status :=
           if String.eqb (f_source result) "throttled" then "throttled" else "not_found" in
         mret (Success (InvoiceMissingData invoiceId status strictSender
                          (inv_expected_sender_wallet invoice) (f_source result)))
     | Some row =>
         paidAt ← matchTime row;
         let paidAmountTon := formatTon (tr_amount_nano row) in
         _ ← modifyDb (stmtInvoiceMarkPaid paidAt (tr_event_id row) (tr_sender row)
                         (tr_amount_nano row) paidAmountTon invoiceId);
         let identityLevel :=
           identityLevelOf (inv_expected_sender_wallet invoice)
             (bool_decide (inv_payer_agent_verified invoice = Some 1)) in
         mret (Success (InvoiceNowPaidData invoiceId paidAt (tr_event_id row) (tr_sender row)
                          paidAmountTon identityLevel strictSender (f_source result)))
     end)
    (λ r, ¬ is_invoice_expired r).
Proof.
  cbv zeta. hstep; [apply hoare_ret; simpl; tauto|].
  hstep. hstep.
  eapply (hoare_bind _ _ _ (λ _, True)).
  { eapply hoare_weaken;
      [apply (hoare_findTransferWithSync Address API_KEY _ frame_true) | auto]. }
  intros result _. hstep. hstep. hstep; [|apply hoare_ret; simpl; tauto].
  hstep. hstep. apply hoare_ret. simpl. tauto.
Qed.

Lemma invCheck_body_expired invoices0 invoice_id :
  triple (λ db, invoices db = invoices0)
    (invCheck_body Address API_KEY invoice_id)
    (λ r db, ∀ i e, r = Success (InvoiceExpiredData i e) →
       is_Some (invoices0 !! i) ∧
       invoices db = invoices (stmtInvoiceUpdateStatus "expired" i
                                 (mkDB ∅ invoices0 ∅ ∅ []))).
Proof.
  unfold invCheck_body. cbv zeta.
  destruct (negb (JS.nonempty (trimOr invoice_id))); [apply triple_ret; discriminate|].
  apply triple_getDb_bind. intros db Hdb.
  destruct (invoices db !! trimOr invoice_id) as [invoice|] eqn:Hlook;
    [|apply triple_ret; discriminate].
  destruct (String.eqb (inv_status invoice) "paid"); [apply triple_ret; discriminate|].
  apply triple_frame_bind; [auto with hoare|]. intros now.
  destruct (pastExpiry (inv_expires_at invoice) now).
  - apply triple_modifyDb_then. intros db' Hdb' i e [= <- <-]. simpl.
    rewrite Hdb'. split; [|reflexivity]. rewrite <- Hdb, Hlook. eauto.
  - apply triple_of_shape.
    eapply hoare_weaken; [apply check_rest_shape|].
    simpl. intros r Hr db' i e ->. simpl in Hr. tauto.
Qed.

(** C10. When [inv_confirm_verification] answers 'expired', the agents
    table is exactly what it was before the call: no field of the stored
    record is written, its status included.  When [inv_check] answers
    'expired' for an invoice, that invoice exists and the call has written
    status 'expired' on its row, and nothing else in the invoices table. *)
Theorem expiry_written_for_invoices_only :
  (∀ agent_id ctx w a e,
     (invConfirmVerification Address API_KEY agent_id ctx w).1
       = Success (AgentExpiredData a e) →
     agents (w_db (invConfirmVerification Address API_KEY agent_id ctx w).2)
       = agents (w_db w)) ∧
  (∀ invoice_id ctx w i e,
     (invCheck Address API_KEY invoice_id ctx w).1 = Success (InvoiceExpiredData i e) →
     let db' := w_db (invCheck Address API_KEY invoice_id ctx w).2 in
     invoices db' = invoices (stmtInvoiceUpdateStatus "expired" i (w_db w)) ∧
     ∃ inv, invoices (w_db w) !! i = Some inv ∧
            inv_status <$> invoices db' !! i = Some "expired").
Proof.
  split.
  - intros agent_id ctx w a e Hres. unfold invConfirmVerification in *.
    apply run_tool_success in Hres as [Hok ->].
    refine (triple_guarded (λ db, agents db = agents (w_db w)) _ ctx _
              (λ r db, is_agent_expired r → agents db = agents (w_db w))
              _ (invConfirmVerification_body_expired _ agent_id) _ w eq_refl _ Hok Logic.I).
    + intros db db' <- _. auto.
    + simpl. tauto.
  - intros invoice_id ctx w i e Hres. unfold invCheck in *. cbv zeta.
    apply run_tool_success in Hres as [Hok ->].
    destruct (triple_guarded (λ db, invoices db = invoices (w_db w)) "inv_check" ctx _ _
                ltac:(cbv beta; intros db db' _ Heq Hp; rewrite <- Heq; exact Hp)
                (invCheck_body_expired (invoices (w_db w)) invoice_id)
                ltac:(discriminate) w eq_refl _ Hok i e eq_refl) as [[inv Hinv] Heq].
    split; [exact Heq|]. exists inv. split; [exact Hinv|].
    rewrite Heq. simpl. rewrite lookup_alter_eq, Hinv. reflexivity.
Qed.

End ExpiryWrites.

(** ** Verified agents *)

Lemma triple_modifyDb {P : DB -> Prop} (f : DB -> DB) (R : DB -> Prop) :
  (∀ db, P db → R (f db)) → triple P (modifyDb f) (λ _ db, R db).
Proof. intros HR w HP a _. by apply HR. Qed.

Section VerifiedAgents.

Context (Address : option (string -> option string)) (API_KEY : option string).

Context (a : string) (row : Agent).
Hypothesis Hverified : ag_status row = "verified".

Lemma holds_verified_frame db db' :
  agents db = agents db' → invoices db = invoices db' →
  (holds_verified a row) db → (holds_verified a row) db'.
Proof. unfold holds_verified. intros <- _. auto. Qed.

Lemma invConfirmVerification_body_verified agent_id :
  hoare (holds_verified a row) (invConfirmVerification_body Address API_KEY agent_id) (λ _, True).
Proof.
  unfold invConfirmVerification_body. cbv zeta.
  hstep; [apply hoare_ret; exact Logic.I|].
  apply hoare_bind_getDb. intros db Hdb.
  destruct (agents db !! trimOr agent_id) as [agent|] eqn:Hlook;
    [|apply hoare_ret; exact Logic.I].
  hstep; [apply hoare_ret; exact Logic.I|].
  assert (Hne : trimOr agent_id ≠ a).
  { intros Heq. rewrite Heq in Hlook. unfold holds_verified in Hdb.
    rewrite Hdb in Hlook. injection Hlook as <-.
    rewrite Hverified in Heqb0. discriminate. }
  hstep. hstep; [apply hoare_ret; exact Logic.I|].
  hstep. hstep. hstep.
  eapply hoare_bind; [apply (hoare_findTransferWithSync _ _ _ holds_verified_frame)|].
  intros result _. hstep; [|apply hoare_ret; exact Logic.I].
  hstep. hstep.
  eapply (hoare_bind _ _ _ (λ _, True)).
  { apply hoare_modifyDb. unfold holds_verified. simpl. intros db' Hdb'.
    by rewrite lookup_alter_ne. }
  intros _ _. apply hoare_ret. exact Logic.I.
Qed.

Lemma invCreate_body_verified params :
  hoare (holds_verified a row) (invCreate_body Address params) (λ _, True).
Proof.
  unfold invCreate_body. cbv zeta.
  hstep.
  eapply (hoare_bind _ _ _ (λ _, True)).
  { hstep; [apply hoare_ret; exact Logic.I|]. hstep. apply hoare_ret. exact Logic.I. }
  intros recipient _. hstep. hstep; [apply hoare_ret; exact Logic.I|].
  hstep; [apply hoare_ret; exact Logic.I|].
  eapply (hoare_bind _ _ _ (λ _, True)).
  { hstep; [apply hoare_ret; exact Logic.I|]. hstep. apply hoare_ret. exact Logic.I. }
  intros invoiceId _. hstep; [apply hoare_ret; exact Logic.I|].
  hstep. hstep; [apply hoare_ret; exact Logic.I|].
  hstep.
  eapply (hoare_bind _ _ _ (λ _, True)).
  { destruct (cp_expires_in_minutes params) as [n|]; [|apply hoare_ret; exact Logic.I].
    destruct (JS.truthyZ n); [|apply hoare_ret; exact Logic.I].
    hstep. hstep. apply hoare_ret. exact Logic.I. }
  intros expiresAt _.
  eapply (hoare_bind _ _ _ (λ _, True)).
  { unfold stmtInvoiceInsert. destruct recipient; [|apply hoare_throw].
    eapply (hoare_bind _ _ _ (λ _, True)).
    - apply hoare_modifyDb. auto.
    - intros _ _. apply hoare_ret. exact Logic.I. }
  intros inv' _. apply hoare_ret. exact Logic.I.
Qed.

Lemma invCheck_body_verified invoice_id :
  hoare (holds_verified a row) (invCheck_body Address API_KEY invoice_id) (λ _, True).
Proof.
  unfold invCheck_body. cbv zeta.
  hstep; [apply hoare_ret; exact Logic.I|].
  hstep. hstep; [|apply hoare_ret; exact Logic.I].
  hstep; [apply hoare_ret; exact Logic.I|].
  hstep. hstep.
  { eapply (hoare_bind _ _ _ (λ _, True)).
    - apply hoare_modifyDb. auto.
    - intros _ _. apply hoare_ret. exact Logic.I. }
  hstep; [apply hoare_ret; exact Logic.I|].
  hstep. hstep.
  eapply hoare_bind; [apply (hoare_findTransferWithSync _ _ _ holds_verified_frame)|].
  intros result _. hstep.
  eapply (hoare_bind _ _ _ (λ _, True)).
  { apply hoare_modifyDb. auto. }
  intros _ _. hstep; [|apply hoare_ret; exact Logic.I].
  hstep.
  eapply (hoare_bind _ _ _ (λ _, True)).
  { apply hoare_modifyDb. auto. }
  intros _ _. apply hoare_ret. exact Logic.I.
Qed.

Lemma invReceipt_body_verified invoice_id :
  hoare (holds_verified a row) (invReceipt_body invoice_id) (λ _, True).
Proof.
  unfold invReceipt_body. cbv zeta.
  hstep; [apply hoare_ret; exact Logic.I|].
  hstep. hstep; [|apply hoare_ret; exact Logic.I].
  hstep; apply hoare_ret; exact Logic.I.
Qed.

End VerifiedAgents.

Lemma invBeginVerification_body_overwrites params :
  triple (λ _, True) (invBeginVerification_body params)
    (λ r db, ∀ d, r = Success d →
       ∃ rec, agents db !! trimOr (bp_agent_id params) = Some rec ∧ fresh_challenge rec).
Proof.
  unfold invBeginVerification_body. cbv zeta.
  destruct (negb (JS.nonempty (trimOr (bp_agent_id params))));
    [apply triple_ret; discriminate|].
  destruct (negb (JS.nonempty (trimOr (bp_wallet_address params))));
    [apply triple_ret; discriminate|].
  destruct (64 <? Z.of_nat (String.length (trimOr (bp_agent_id params))));
    [apply triple_ret; discriminate|].
  apply triple_frame_bind; [auto with hoare|]. intros amountNano.
  apply triple_frame_bind; [auto with hoare|]. intros code.
  apply triple_frame_bind; [auto with hoare|]. intros now.
  apply triple_frame_bind; [auto with hoare|]. intros ms.
  apply triple_frame_bind; [auto with hoare|]. intros expiresAt.
  eapply triple_bind.
  { apply (triple_modifyDb _
      (λ db, ∃ rec, agents db !! trimOr (bp_agent_id params) = Some rec ∧
                    fresh_challenge rec)).
    intros db _. simpl. rewrite lookup_insert_eq. eexists. split; [reflexivity|].
    repeat split. }
  intros u. cbv beta.
  eapply (triple_bind _ _ _ (λ _ db, ∃ rec,
            agents db !! trimOr (bp_agent_id params) = Some rec ∧ fresh_challenge rec)).
  { intros w Hw b _. by rewrite db_const_getAgentWalletAddress. }
  intros recipient. apply triple_ret. auto.
Qed.

(** C2, as the code has it.  A record stored with status 'verified' is
    left exactly as it is by [inv_confirm_verification], [inv_create],
    [inv_check] and [inv_receipt]; a call of [inv_begin_verification] or of
    its alias [inv_register_agent] that succeeds overwrites the record of
    its agent_id, whatever was stored, with a fresh challenge: status
    'pending', [verified_at] and the proof fields cleared. *)
Theorem verified_agent_kept_except_by_new_challenge Address API_KEY :
  (∀ c w a row,
     issues_challenge c = false →
     agents (w_db w) !! a = Some row → ag_status row = "verified" →
     agents (w_db (execute Address API_KEY c w).2) !! a = Some row) ∧
  (∀ c params ctx w d,
     c = CallBeginVerification params ctx ∨ c = CallRegisterAgent params ctx →
     (execute Address API_KEY c w).1 = Success d →
     ∃ rec, agents (w_db (execute Address API_KEY c w).2) !! trimOr (bp_agent_id params)
              = Some rec ∧ fresh_challenge rec).
Proof.
  split.
  - intros c w a row Hc Hlook Hver.
    destruct c; try discriminate Hc; simpl;
      unfold invConfirmVerification, invCreate, invCheck, invReceipt;
      (eapply (run_tool_hoare (holds_verified a row) _ (λ _, True)); [|auto|exact Hlook]);
      apply (hoare_guarded (holds_verified a row) (holds_verified_frame a row)); auto.
    + by apply invConfirmVerification_body_verified.
    + apply invCreate_body_verified.
    + apply invCheck_body_verified.
    + apply invReceipt_body_verified.
  - intros c params ctx w d Hc Hres.
    assert (Hex : execute Address API_KEY c w = invBeginVerification params ctx w)
      by (destruct Hc as [-> | ->]; reflexivity).
    rewrite Hex in *. unfold invBeginVerification in *.
    apply run_tool_success in Hres as [Hok ->].
    refine (triple_guarded (λ _, True) "inv_begin_verification" ctx _ _ _
              (invBeginVerification_body_overwrites params) _ w Logic.I _ Hok d eq_refl).
    + auto.
    + discriminate.
Qed.

(** ** When the indexer keeps failing *)

Lemma bind_ok {A B} (m : M A) (f : A -> M B) w a w' :
  m w = (Ok a, w') → (m ≫= f) w = f a w'.
Proof. unfold mbind, M_bind. intros ->. reflexivity. Qed.

Lemma bind_throw {A B} (m : M A) (f : A -> M B) w e w' :
  m w = (Throw e, w') → (m ≫= f) w = (Throw e, w').
Proof. unfold mbind, M_bind. intros ->. reflexivity. Qed.

Lemma bind_getDb {B} (f : DB -> M B) w : (getDb ≫= f) w = f (w_db w) w.
Proof. reflexivity. Qed.

Lemma bind_Date_now {B} (f : Z -> M B) w : (Date_now ≫= f) w = f (w_now w) w.
Proof. reflexivity. Qed.

Section SourceUnavailable.

Context (Address : option (string -> option string)) (API_KEY : option string).

Lemma tonapiFetch_error rq w r rest e :
  w_net w = r :: rest → response_error r = Some e →
  ∃ w', tonapiFetch API_KEY rq w = (Throw e, w') ∧ w_db w' = w_db w ∧ w_net w' = rest.
Proof.
  intros Hnet He. unfold tonapiFetch. rewrite Hnet. unfold response_error in He.
  destruct (FETCH_TIMEOUT_MS <? Z.of_N (latency r)).
  { injection He as <-. eexists. split; [reflexivity|]. auto. }
  destruct (reply r); simpl in He; [discriminate| |]; injection He as <-;
    eexists; split; try reflexivity; auto.
Qed.

Lemma tonapiFetchWithRetry_exhausted rq w e :
  exhausts_retries (w_net w) = Some e →
  ∃ w', tonapiFetchWithRetry API_KEY rq w = (Throw e, w') ∧ w_db w' = w_db w.
Proof.
  unfold exhausts_retries.
  destruct (w_net w) as [|r1 [|r2 [|r3 rest]]] eqn:Hnet; try discriminate.
  destruct (response_error r1) as [e1|] eqn:H1; [|discriminate].
  destruct (response_error r2) as [e2|] eqn:H2; [|discriminate].
  destruct (response_error r3) as [e3|] eqn:H3; [|discriminate].
  destruct (retryable (err_status e1)) eqn:R1; [|discriminate].
  destruct (retryable (err_status e2)) eqn:R2; [|discriminate].
  simpl. intros [= <-].
  destruct (tonapiFetch_error rq w r1 _ e1 Hnet H1) as (w1 & F1 & D1 & N1).
  unfold tonapiFetchWithRetry. simpl. unfold try_catch at 1. rewrite F1, R1. simpl.
  unfold mbind, M_bind, sleep. simpl.
  set (w1' := mkWorld _ _ _ _ _ _ _).
  destruct (tonapiFetch_error rq w1' r2 _ e2 N1 H2) as (w2 & F2 & D2 & N2).
  unfold try_catch at 1. rewrite F2, R2. simpl.
  set (w2' := mkWorld _ _ _ _ _ _ _).
  destruct (tonapiFetch_error rq w2' r3 _ e3 N2 H3) as (w3 & F3 & D3 & N3).
  unfold try_catch. rewrite F3. rewrite orb_true_r. unfold throw.
  eexists. split; [reflexivity|]. rewrite D3. subst w2'. simpl. rewrite D2.
  subst w1'. simpl. exact D1.
Qed.

Lemma syncNewEvents_exhausted wallet startMs endMs w e :
  exhausts_retries (w_net w) = Some e →
  ∃ w', syncNewEvents Address API_KEY wallet startMs endMs w = (Throw e, w') ∧
        w_db w' = w_db w.
Proof.
  intros He. unfold syncNewEvents. rewrite bind_getDb. cbv zeta.
  unfold EVENT_MAX_PAGES_NEW. simpl syncNewLoop.
  match goal with |- context [tonapiFetchWithRetry API_KEY ?rq] =>
    destruct (tonapiFetchWithRetry_exhausted rq w e He) as (w' & Hf & Hdb) end.
  exists w'. split; [|exact Hdb].
  erewrite bind_throw; [reflexivity|]. erewrite bind_throw; [reflexivity | exact Hf].
Qed.

Lemma findTransferWithSync_exhausted wallet c w e :
  queryCachedTransfer Address (w_db w) wallet (c_tag c) (c_startMs c) (c_endMs c)
    (c_minAmountNano c) (c_expectedSender c) (c_strictSender c) = None →
  sync_throttled (w_db w) wallet (w_now w) = false →
  exhausts_retries (w_net w) = Some e →
  ∃ w', findTransferWithSync Address API_KEY wallet c w = (Throw e, w') ∧
        w_db w' = w_db w.
Proof.
  intros Hmiss Hthr He.
  destruct (syncNewEvents_exhausted wallet (c_startMs c) (c_endMs c) w e He)
    as (w' & Hs & Hdb).
  exists w'. split; [|exact Hdb].
  unfold findTransferWithSync.
  erewrite (bind_ok (cached Address wallet c)); cycle 1.
  { unfold cached. rewrite bind_getDb. rewrite Hmiss. reflexivity. }
  cbv iota. rewrite bind_getDb, bind_Date_now. cbv zeta.
  unfold sync_throttled in Hthr. rewrite Hthr.
  erewrite bind_throw; [reflexivity | exact Hs].
Qed.

End SourceUnavailable.

Lemma queryCachedTransfer_ext Address db db' wallet tag startMs endMs minA exp strict :
  transfers db = transfers db' →
  queryCachedTransfer Address db wallet tag startMs endMs minA exp strict
  = queryCachedTransfer Address db' wallet tag startMs endMs minA exp strict.
Proof. unfold queryCachedTransfer, stmtTransferQuery. intros ->. reflexivity. Qed.

Lemma sync_throttled_ext db db' wallet now :
  wallet_sync db = wallet_sync db' →
  sync_throttled db wallet now = sync_throttled db' wallet now.
Proof. unfold sync_throttled, getWalletSync. intros ->. reflexivity. Qed.

Lemma getAgentWalletAddress_ext w w' file :
  w_wallet_file w' = w_wallet_file w →
  getAgentWalletAddress w = (Ok file, w) → getAgentWalletAddress w' = (Ok file, w').
Proof.
  unfold getAgentWalletAddress. intros ->.
  destruct (w_wallet_file w) as [| |a]; try discriminate.
  destruct (JS.nonempty a); [|discriminate]. intros [= <-]. reflexivity.
Qed.

Section SourceUnavailableTools.

Context (Address : option (string -> option string)) (API_KEY : option string).

Lemma invCheck_exhausted invoice_id ctx w inv e :
  guards_pass "inv_check" ctx w = true →
  check_reaches_indexer Address w (trimOr invoice_id) inv →
  exhausts_retries (w_net w) = Some e →
  ∃ w', invCheck Address API_KEY invoice_id ctx w = (Failure (catchMessage e), w') ∧
        w_db w' = w_db (after_rate "inv_check" ctx w).
Proof.
  intros Hg (Hne & Hlook & Hst & Hexp & Hstrict & (m & Hm & Hmiss) & Hthr) He.
  destruct (after_rate_frame "inv_check" ctx w)
    as (_ & Hinv & Htr & Hws & Hnow & Hnet & _).
  set (wr := after_rate "inv_check" ctx w) in *.
  set (c := mkCriteria (Some ("INV#" +:+ trimOr invoice_id)) m
              (inv_expected_sender_wallet inv)
              (bool_decide (inv_strict_sender inv = Some 1))
              (Some (inv_created_at inv))
              (Some (default (w_now wr) (inv_expires_at inv)))).
  destruct (findTransferWithSync_exhausted Address API_KEY
              (Some (inv_recipient_wallet inv)) c wr e) as (w' & Hf & Hdb).
  { subst c. simpl. rewrite Hnow.
    rewrite (queryCachedTransfer_ext Address (w_db wr) (w_db w)) by exact Htr.
    exact Hmiss. }
  { rewrite (sync_throttled_ext (w_db wr) (w_db w)) by exact Hws.
    rewrite Hnow. exact Hthr. }
  { rewrite Hnet. exact He. }
  exists w'. split; [|exact Hdb].
  unfold invCheck, run_tool. rewrite guarded_pass by exact Hg. fold wr.
  assert (Hnon : JS.nonempty (trimOr invoice_id) = true)
    by (by destruct (trimOr invoice_id)).
  unfold invCheck_body. rewrite Hnon. cbv zeta.
  change (negb true) with false. cbv iota.
  rewrite bind_getDb, Hinv, Hlook, Hst.
  change (String.eqb "pending" "paid") with false. cbv iota.
  rewrite bind_Date_now, Hnow, Hexp, Hstrict.
  erewrite (bind_ok (BigIntOrThrow (inv_amount_nano inv))); cycle 1.
  { unfold BigIntOrThrow. rewrite Hm. reflexivity. }
  rewrite bind_Date_now.
  erewrite bind_throw; [reflexivity|]. exact Hf.
Qed.

Lemma invConfirmVerification_exhausted agent_id ctx w agent e :
  guards_pass "inv_confirm_verification" ctx w = true →
  confirm_reaches_indexer Address w (trimOr agent_id) agent →
  exhausts_retries (w_net w) = Some e →
  ∃ w', invConfirmVerification Address API_KEY agent_id ctx w
          = (Failure (catchMessage e), w') ∧
        w_db w' = w_db (after_rate "inv_confirm_verification" ctx w).
Proof.
  intros Hg (Hne & Hlook & Hst & Hexp & file & m & Hfile & Hm & Hmiss & Hthr) He.
  destruct (after_rate_frame "inv_confirm_verification" ctx w)
    as (Hag & _ & Htr & Hws & Hnow & Hnet & _ & Hwf & _).
  set (wr := after_rate "inv_confirm_verification" ctx w) in *.
  set (c := mkCriteria (ag_challenge_tag agent) m (ag_wallet_address agent) true
              (ag_challenge_created_at agent)
              (Some (default (w_now wr) (ag_challenge_expires_at agent)))).
  destruct (findTransferWithSync_exhausted Address API_KEY
              (normalizeAddress Address (Some file)) c wr e) as (w' & Hf & Hdb).
  { subst c. simpl. rewrite Hnow.
    rewrite (queryCachedTransfer_ext Address (w_db wr) (w_db w)) by exact Htr.
    exact Hmiss. }
  { rewrite (sync_throttled_ext (w_db wr) (w_db w)) by exact Hws.
    rewrite Hnow. exact Hthr. }
  { rewrite Hnet. exact He. }
  exists w'. split; [|exact Hdb].
  unfold invConfirmVerification, run_tool. rewrite guarded_pass by exact Hg. fold wr.
  assert (Hnon : JS.nonempty (trimOr agent_id) = true)
    by (by destruct (trimOr agent_id)).
  unfold invConfirmVerification_body. rewrite Hnon. cbv zeta.
  change (negb true) with false. cbv iota.
  rewrite bind_getDb, Hag, Hlook, Hst.
  change (String.eqb "pending" "verified") with false. cbv iota.
  rewrite bind_Date_now, Hnow, Hexp.
  erewrite (bind_ok getAgentWalletAddress); cycle 1.
  { apply (getAgentWalletAddress_ext w wr file Hwf Hfile). }
  erewrite (bind_ok (BigIntOrThrow _)); cycle 1.
  { unfold BigIntOrThrow. rewrite Hm. reflexivity. }
  rewrite bind_Date_now.
  erewrite bind_throw; [reflexivity|]. exact Hf.
Qed.


End SourceUnavailableTools.

(* ====================================================================== *)
(** * Worked instances: the runs *)
(* ====================================================================== *)

(** ** The helpers on small inputs *)

Example trim_ex : JS.trim "  ab c  " = "ab c". Proof. reflexivity. Qed.
Example bigint_ex1 : JS.StringToBigInt " 1500000000 " = Some 1500000000.
Proof. reflexivity. Qed.
Example bigint_ex2 : JS.StringToBigInt "1.5" = None. Proof. reflexivity. Qed.
Example bigint_ex3 : JS.StringToBigInt "0x1F" = Some 31. Proof. reflexivity. Qed.
Example bigint_ex4 : JS.StringToBigInt "-12" = Some (-12). Proof. reflexivity. Qed.
Example enc_ex : JS.encodeURIComponent "INV#a|b" = "INV%23a%7Cb".
Proof. reflexivity. Qed.
Example pad_ex : JS.stripTrailingZeros (JS.padStart0 9 "500000000") = "5".
Proof. reflexivity. Qed.

Example toNano_ex1 : toNanoString (Some "1.5") = inr "1500000000".
Proof. reflexivity. Qed.
Example toNano_ex2 : toNanoString (Some "0.01") = inr "10000000".
Proof. reflexivity. Qed.
Example toNano_ex3 : toNanoString (Some "0") = inl "amount_ton must be greater than 0".
Proof. reflexivity. Qed.
Example toNano_ex4 : toNanoString (Some "1.") = inl "amount_ton must be a positive number string".
Proof. reflexivity. Qed.
Example formatTon_ex1 : formatTon (Some "1500000000") = Some "1.5".
Proof. reflexivity. Qed.
Example formatTon_ex2 : formatTon (Some "2000000000") = Some "2".
Proof. reflexivity. Qed.
Example commentTag_ex : commentTag (Some "INV#abc |payer:bob") = Some "INV#abc".
Proof. reflexivity. Qed.
Example sanitize_ex : sanitizeTag (Some " al ice!") 32 = Some "al_ice".
Proof. reflexivity. Qed.

Example scenario_A :
  (invCheck None None (Some "a1") ctx0
     (world (mkDB ∅ {[ "a1" := invoice_a1 "pending" ]} ∅ ∅ [early_other]) 10000 [])).1
  = Success (InvoiceNowPaidData "a1" 4000000 "ev1" (Some "s2") (Some "1.5")
               "comment_only" false "cache").
Proof. vm_compute. reflexivity. Qed.

Example scenario_B :
  (invCheck None None (Some "a1") ctx0
     (world (mkDB ∅ {[ "a1" := invoice_a1 "pending" ]} ∅ ∅ [too_small]) 10000
            [mkResponse 5 (ReplyEvents (Some []))])).1
  = Success (InvoiceMissingData "a1" "not_found" false None "not_found").
Proof. vm_compute. reflexivity. Qed.

Example scenario_C :
  (invConfirmVerification None None (Some "alice") ctx0
     (world (mkDB {[ "alice" := agent_alice "pending" ]} ∅ ∅ ∅
               [mkTransfer "w1" "ev1" 0 (Some "5") (Some 4000) (Some "s2") (Some "w1")
                  (Some "10000000") (Some "REG#alice#00000000")
                  (Some "REG#alice#00000000") 77])
            10000 [mkResponse 5 (ReplyEvents (Some []))])).1
  = Success (AgentWaitingData "alice" "pending" (Some "s1") (Some "REG#alice#00000000")).
Proof. vm_compute. reflexivity. Qed.

(** ** Instances of the theorems *)

(** Strict mode skips the earlier transfer from another sender and the
    earlier transfer that is too small; non-strict mode takes the earliest
    one that is large enough. *)
Lemma queryCachedTransfer_earliest_qualifying_witness :
  queryCachedTransfer None cache3 (Some "w1") (Some "INV#a1") (Some 1000) (Some 900000)
    1500000000 (Some "s1") true = Some later_expected ∧
  (later_expected ∈ transfers cache3 ∧
   qualifies None "w1" "INV#a1" 1000 900000 1500000000 (Some "s1") true later_expected ∧
   ∀ other,
     other ∈ transfers cache3 →
     qualifies None "w1" "INV#a1" 1000 900000 1500000000 (Some "s1") true other →
     ∃ t t', tr_timestamp later_expected = Some t ∧ tr_timestamp other = Some t' ∧ t ≤ t').
Proof.
  assert (H : queryCachedTransfer None cache3 (Some "w1") (Some "INV#a1") (Some 1000)
                (Some 900000) 1500000000 (Some "s1") true = Some later_expected)
    by (vm_compute; reflexivity).
  split; [exact H|].
  exact (queryCachedTransfer_earliest_qualifying None cache3 "w1" "INV#a1" 1000 900000
           1500000000 (Some "s1") true later_expected H).
Defined.

Example non_strict_takes_earliest :
  queryCachedTransfer None cache3 (Some "w1") (Some "INV#a1") (Some 1000) (Some 900000)
    1500000000 (Some "s1") false = Some early_other.
Proof. vm_compute. reflexivity. Qed.

Lemma rate_limit_fixed_window_witness :
  let w := world emptyDB 10000 [] in
  let cfg := getRateLimitConfig ctx0 "inv_check" in
  (windowMs cfg = 60000 ∧ max cfg = 2) ∧
  let run := rate_calls 7 "inv_check" cfg [10000; 20000] w in
  Forall is_allowed run.1 ∧
  (30000 - 10000 < windowMs cfg →
     checkRateLimit 7 "inv_check" cfg (at_time 30000 run.2)
       = (Ok (Rejected (windowMs cfg - (30000 - 10000))), at_time 30000 run.2) ∧
     0 < windowMs cfg - (30000 - 10000)) ∧
  (windowMs cfg ≤ 30000 - 10000 →
     let again := checkRateLimit 7 "inv_check" cfg (at_time 30000 run.2) in
     again.1 = Ok (Allowed (max cfg - 1)) ∧
     rate_limits (w_db again.2) !! rate_key "inv_check" 7 = Some (mkRateRow 30000 1)).
Proof.
  intros w cfg. split; [split; reflexivity|].
  apply (rate_limit_fixed_window ctx0 7 "inv_check" w 10000 [20000] 30000).
  - left. reflexivity.
  - reflexivity.
  - repeat constructor.
Defined.

Lemma ingestEvents_idempotent_witness :
  let w := world emptyDB 10000 [] in
  let once := ingestEvents None (Some "w1") [untimed_event; untimed_event] w in
  length (transfers (w_db once.2)) = 1%nat ∧
  transfers (w_db (ingestEvents None (Some "w1") [untimed_event; untimed_event]
                     (at_time 20000 once.2)).2)
    = transfers (w_db once.2) ∧
  (NoDup (tr_key <$> transfers (w_db w)) → NoDup (tr_key <$> transfers (w_db once.2))).
Proof.
  intros w once. split; [reflexivity|].
  apply (ingestEvents_idempotent None (Some "w1") [untimed_event; untimed_event] w
           (mkStats (Some "9") (Some "9") None None) (at_time 20000 once.2));
    reflexivity.
Defined.


Lemma paid_invoice_is_terminal_witness :
  let w := world (mkDB ∅ {[ "a1" := paid_a1 ]} ∅ ∅ [early_other; later_expected]) 10000 [] in
  let w' := (invCheck None None (Some "a1") ctx0 w).2 in
  invoices (w_db w') !! "a1" = Some paid_a1 ∧
  ∀ invoice_id ctx w0,
    trimOr invoice_id = "a1" → same_db w' w0 → guards_pass "inv_check" ctx w0 = true →
    let r := invCheck None None invoice_id ctx w0 in
    r.1 = Success (InvoicePaidData "a1" "paid" (Some 5000000) (Some "ev1") (Some "s1")
                     (Some "1.5")) ∧
    w_requests r.2 = w_requests w0 ∧ w_net r.2 = w_net w0 ∧
    transfers (w_db r.2) = transfers (w_db w0) ∧
    wallet_sync (w_db r.2) = wallet_sync (w_db w0) ∧
    invoices (w_db r.2) = invoices (w_db w0).
Proof.
  intros w w'.
  apply (paid_invoice_is_terminal None None "a1" paid_a1 w w').
  - discriminate.
  - reflexivity.
  - reflexivity.
  - eapply steps_next; [apply steps_refl|].
    apply (step_call None None w w' (CallCheck (Some "a1") ctx0) w); reflexivity.
Defined.

Lemma expiry_wins_over_match_witness :
  let w := world (mkDB ∅ {[ "a1" := invoice_a1 "pending" ]} ∅ ∅ [early_other]) 950000 [] in
  queryCachedTransfer None (w_db w) (Some "w1") (Some "INV#a1") (Some 1000) (Some 900000)
    1500000000 None false = Some early_other ∧
  ∃ d, (invCheck None None (Some "a1") ctx0 w).1 = Success d ∧
       d = InvoiceExpiredData "a1" (Some 900000) ∧
       data_status d = "expired" ∧ data_status d ≠ "paid".
Proof.
  intros w. split; [vm_compute; reflexivity|].
  apply (proj1 (expiry_wins_over_match None None) (Some "a1") ctx0 w (invoice_a1 "pending")
           900000); try reflexivity; try discriminate.
Defined.

Lemma expiry_written_for_invoices_only_witness :
  let wa := world (mkDB {[ "alice" := agent_alice "pending" ]} ∅ ∅ ∅ []) 950000 [] in
  let wi := world (mkDB ∅ {[ "a1" := invoice_a1 "pending" ]} ∅ ∅ []) 950000 [] in
  agents (w_db (invConfirmVerification None None (Some "alice") ctx0 wa).2)
    = agents (w_db wa) ∧
  inv_status <$> invoices (w_db (invCheck None None (Some "a1") ctx0 wi).2) !! "a1"
    = Some "expired".
Proof.
  intros wa wi. split.
  - apply (proj1 (expiry_written_for_invoices_only None None) (Some "alice") ctx0 wa
             "alice" (Some 900000)).
    vm_compute. reflexivity.
  - destruct (proj2 (expiry_written_for_invoices_only None None) (Some "a1") ctx0 wi
                "a1" (Some 900000)) as (_ & inv & _ & H).
    + vm_compute. reflexivity.
    + exact H.
Defined.

(** A new challenge for a verified agent stores it as 'pending' again. *)
Lemma verified_never_pending_fails : ¬ verified_never_pending None None.
Proof.
  intros H.
  set (w := world (mkDB {[ "alice" := agent_alice "verified" ]} ∅ ∅ ∅ []) 10000 []).
  set (c := CallBeginVerification (mkBeginParams (Some "alice") (Some "s1") None None) ctx0).
  apply (H w (execute None None c w).2 "alice" (agent_alice "verified")).
  - eapply steps_next; [apply steps_refl|].
    apply (step_call None None w _ c w); reflexivity.
  - reflexivity.
  - reflexivity.
  - vm_compute. reflexivity.
Qed.

Lemma verified_agent_kept_except_by_new_challenge_witness :
  let w := world (mkDB {[ "alice" := agent_alice "verified" ]} ∅ ∅ ∅ []) 10000 [] in
  let begin := CallBeginVerification (mkBeginParams (Some "alice") (Some "s1") None None)
                 ctx0 in
  agents (w_db (execute None None (CallConfirmVerification (Some "alice") ctx0) w).2)
    !! "alice" = Some (agent_alice "verified") ∧
  ∃ rec, agents (w_db (execute None None begin w).2) !! "alice" = Some rec ∧
         fresh_challenge rec.
Proof.
  intros w begin. split.
  - apply (proj1 (verified_agent_kept_except_by_new_challenge None None)
             (CallConfirmVerification (Some "alice") ctx0) w "alice"
             (agent_alice "verified")); reflexivity.
  - apply (proj2 (verified_agent_kept_except_by_new_challenge None None) begin
             (mkBeginParams (Some "alice") (Some "s1") None None) ctx0 w
             (BeginData "alice" "s1" "pending" "REG#alice#00000000" "0.01" "10000000" "W1"
                10000 3610000
                (buildLinks "W1" "10000000" "REG#alice#00000000"))).
    + left. reflexivity.
    + vm_compute. reflexivity.
Defined.



(** ** Watermarks *)

(** What [updateWalletSync] stores for a bound the pages brought: that
    bound, whatever was stored. *)
Lemma updateWalletSync_stores_page_max wallet stats w m :
  st_max_lt stats = Some m → m ≠ "" →
  (wallet_sync (w_db (updateWalletSync (Some wallet) stats w).2) !! wallet) ≫= max_lt
  = Some m.
Proof.
  intros Hm Hne. unfold updateWalletSync, mbind, M_bind, getDb, Date_now, modifyDb. simpl.
  rewrite lookup_insert_eq. simpl. rewrite Hm. by destruct m.
Qed.

(** C4, at a failing input.  With the watermark of a wallet at
    max_lt = 100, min_lt = 50, max_ts = 9000000, min_ts = 5000000:
    a backward sync that receives one older event (lt 40, time 4000 s)
    stores max_lt = 40 and max_ts = 4000000, below what was stored; a
    forward sync that receives one newer event (lt 110, time 9500 s) stores
    min_lt = 110 and min_ts = 9500000, above what was stored.
    [updateWalletSync] overwrites each bound with the bound of the pages
    just read instead of merging it with the stored one. *)
Theorem watermark_overwritten_by_last_pages :
  let older := (syncOlderEvents None None (Some "w1") (Some 1000) (Some 10000000)
                  (world synced 20000 [mkResponse 5 (ReplyEvents (Some [older_event]))])).2 in
  let newer := (syncNewEvents None None (Some "w1") (Some 1000) (Some 10000000)
                  (world synced 20000 [mkResponse 5 (ReplyEvents (Some [newer_event]))])).2 in
  wallet_sync synced !! "w1"
    = Some (mkWalletSync (Some 1000) (Some "100") (Some "50") (Some 9000000) (Some 5000000)) ∧
  wallet_sync (w_db older) !! "w1"
    = Some (mkWalletSync (Some 20005) (Some "40") (Some "40") (Some 4000000) (Some 4000000)) ∧
  wallet_sync (w_db newer) !! "w1"
    = Some (mkWalletSync (Some 20005) (Some "110") (Some "110") (Some 9500000)
              (Some 9500000)).
Proof. vm_compute. repeat split; reflexivity. Qed.

(* ====================================================================== *)
(** * Further properties *)
(* ====================================================================== *)

(** ** The guards *)

Lemma checkRateLimit_rejected sender toolName cfg w ms :
  (checkRateLimit sender toolName cfg w).1 = Ok (Rejected ms) →
  (checkRateLimit sender toolName cfg w).2 = w.
Proof.
  unfold checkRateLimit, mbind, M_bind, Date_now, getDb. simpl.
  destruct (rate_limits (w_db w) !! _) as [row|]; simpl; [|discriminate].
  destruct (w_now w - window_start row >=? windowMs cfg); simpl; [discriminate|].
  destruct (count row >=? max cfg); simpl; [reflexivity | discriminate].
Qed.

Lemma checkRateLimit_returns sender toolName cfg w :
  ∃ r, (checkRateLimit sender toolName cfg w).1 = Ok r.
Proof.
  unfold checkRateLimit, mbind, M_bind, Date_now, getDb. simpl.
  destruct (rate_limits (w_db w) !! _) as [row|]; simpl; [|eauto].
  destruct (w_now w - window_start row >=? windowMs cfg); simpl; [eauto|].
  destruct (count row >=? max cfg); simpl; eauto.
Qed.

Lemma execute_guarded Address API_KEY c :
  ∃ body, execute Address API_KEY c = run_tool (guarded (call_tool c) (call_ctx c) body).
Proof. destruct c; simpl; eexists; reflexivity. Qed.

Lemma tool_stopped toolName ctx body w :
  guards_pass toolName ctx w = false →
  ∃ e, run_tool (guarded toolName ctx body) w = (Failure e, w).
Proof.
  intros Hg. unfold guards_pass in Hg. unfold run_tool, guarded.
  destruct (assertAccess ctx toolName) as [role|e]; [|eauto].
  unfold mbind, M_bind.
  destruct (checkRateLimit_returns (default 0 (senderId ctx)) toolName
              (getRateLimitConfig ctx toolName) w) as [r Hr].
  rewrite Hr in Hg. destruct r as [n|ms]; [discriminate|].
  pose proof (checkRateLimit_rejected _ _ _ _ _ Hr) as Hw.
  destruct (checkRateLimit _ _ _ w) as [r' w']. simpl in *. subst. eauto.
Qed.

(** X1. A call that the access policy denies or the rate limiter rejects
    answers success=false and leaves the whole world as it was: no table is
    written (not even the rate counter), no request is sent, no random
    bytes are drawn, the clock is not advanced. *)
Theorem stopped_call_changes_nothing Address API_KEY c w :
  guards_pass (call_tool c) (call_ctx c) w = false →
  ∃ e, execute Address API_KEY c w = (Failure e, w).
Proof.
  intros Hg. destruct (execute_guarded Address API_KEY c) as [body ->].
  by apply tool_stopped.
Qed.

Lemma stopped_call_changes_nothing_witness :
  let w := world (mkDB ∅ {[ "a1" := invoice_a1 "pending" ]}
                   {[ "inv_check:7" := mkRateRow 9000 2 ]} ∅ []) 10000 [busy] in
  guards_pass "inv_check" ctx0 w = false ∧
  ∃ e, execute None None (CallCheck (Some "a1") ctx0) w = (Failure e, w).
Proof.
  intros w. split; [reflexivity|].
  apply (stopped_call_changes_nothing None None (CallCheck (Some "a1") ctx0) w).
  reflexivity.
Defined.

(** X2. How the access policy resolves.  An admin is let in under every
    configuration; a caller without a sender id, or with id 0, is refused
    under every configuration; when nothing is configured at all (no admin,
    no allow-list, no flag) every caller with an id is let in; and when only
    admins are configured, everyone else is refused. *)
Theorem access_policy_resolution ctx toolName :
  (∀ sid, senderId ctx = Some sid → sid ≠ 0 → In sid (admin_ids ctx) →
          assertAccess ctx toolName = AccessOk "admin") ∧
  (senderId ctx = None ∨ senderId ctx = Some 0 →
     assertAccess ctx toolName = AccessDenied "senderId is missing") ∧
  (∀ sid, senderId ctx = Some sid → sid ≠ 0 →
          admin_ids ctx = [] → ctx_allowlist ctx = None →
          ctx_access ctx = None → ctx_mode ctx = None → config_file ctx = ∅ →
          assertAccess ctx toolName = AccessOk "open") ∧
  (∀ sid, senderId ctx = Some sid → ¬ In sid (admin_ids ctx) →
          admin_ids ctx ≠ [] → ctx_allowlist ctx = None →
          ctx_access ctx = None → ctx_mode ctx = None → config_file ctx = ∅ →
          ∃ e, assertAccess ctx toolName = AccessDenied e).
Proof.
  assert (Hinc : ∀ l x, includes l x = true ↔ In x l).
  { intros l x. unfold includes. rewrite existsb_exists. split.
    - intros (y & Hy & Heq). apply Z.eqb_eq in Heq. by subst.
    - intros H. exists x. split; [done | apply Z.eqb_refl]. }
  assert (Htz : ∀ z, z ≠ 0 → JS.truthyZ z = true).
  { intros z Hz. unfold JS.truthyZ. by destruct (Z.eqb_spec z 0). }
  repeat split.
  - intros sid Hs Hne Hin. unfold assertAccess. rewrite Hs, (Htz _ Hne). simpl.
    apply Hinc in Hin. by rewrite Hin.
  - intros [H|H]; unfold assertAccess; rewrite H; reflexivity.
  - intros sid Hs Hne Ha Hl Hacc Hmode Hfile. unfold assertAccess.
    rewrite Hs, (Htz _ Hne). unfold getAccessPolicy, getConfigBool, getConfigValue.
    rewrite Ha, Hl, Hacc, Hmode, Hfile. reflexivity.
  - intros sid Hs Hnin Ha Hl Hacc Hmode Hfile. unfold assertAccess. rewrite Hs.
    destruct (JS.truthyZ sid); [|eauto].
    unfold getAccessPolicy, getConfigBool, getConfigValue.
    rewrite Hl, Hacc, Hmode, Hfile. simpl.
    destruct (includes (admin_ids ctx) sid) eqn:Hi.
    { apply Hinc in Hi. contradiction. }
    destruct (admin_ids ctx); [contradiction|]. simpl. eauto.
Qed.

Lemma access_policy_resolution_witness :
  assertAccess (mkContext (Some 7) [7] (Some [9]) (Some "allowlist") None None None ∅ ∅)
    "inv_create" = AccessOk "admin" ∧
  ∃ e, assertAccess (mkContext (Some 8) [7] None None None None None ∅ ∅) "inv_create"
       = AccessDenied e.
Proof.
  split.
  - apply (proj1 (access_policy_resolution
             (mkContext (Some 7) [7] (Some [9]) (Some "allowlist") None None None ∅ ∅)
             "inv_create") 7); [reflexivity | lia | left; reflexivity].
  - apply (proj2 (proj2 (proj2 (access_policy_resolution
             (mkContext (Some 8) [7] None None None None None ∅ ∅) "inv_create"))) 8);
      try reflexivity; try discriminate.
    intros [H|[]]. discriminate.
Defined.

(** ** The rate limiter, further *)

Lemma rate_key_inj toolName s1 s2 : rate_key toolName s1 = rate_key toolName s2 → s1 = s2.
Proof.
  unfold rate_key, JS.ofZ. intros H.
  apply String.app_inj in H. apply String.app_inj in H. by apply pretty_Z_inj in H.
Qed.

(** X3. The counters of two callers of one tool are separate: a call of
    [checkRateLimit] for one caller, allowed or not, leaves the counter of
    every other caller of that tool as it was. *)
Theorem rate_limit_per_caller sender other toolName cfg w :
  sender ≠ other →
  rate_limits (w_db (checkRateLimit sender toolName cfg w).2) !! rate_key toolName other
  = rate_limits (w_db w) !! rate_key toolName other.
Proof.
  intros Hne.
  assert (Hk : rate_key toolName sender ≠ rate_key toolName other).
  { intros H. by apply rate_key_inj in H. }
  unfold checkRateLimit, mbind, M_bind, Date_now, getDb. simpl.
  fold (rate_key toolName sender).
  destruct (rate_limits (w_db w) !! rate_key toolName sender) as [row|]; simpl;
    [|by rewrite lookup_insert_ne].
  destruct (w_now w - window_start row >=? windowMs cfg); simpl;
    [by rewrite lookup_insert_ne|].
  destruct (count row >=? max cfg); simpl; [done | by rewrite lookup_insert_ne].
Qed.

Lemma rate_limit_per_caller_witness :
  let w := world (mkDB ∅ ∅ {[ "inv_check:8" := mkRateRow 9000 2 ]} ∅ []) 10000 [] in
  7 ≠ 8 ∧
  rate_limits (w_db (checkRateLimit 7 "inv_check" (mkRateCfg 60000 2) w).2)
    !! rate_key "inv_check" 8 = Some (mkRateRow 9000 2).
Proof.
  intros w. split; [lia|].
  rewrite (rate_limit_per_caller 7 8 "inv_check" (mkRateCfg 60000 2) w); [reflexivity | lia].
Defined.

(** X4. The in-memory limiter exported for tests and the limiter over
    [inv_rate_limits] are the same machine: on equal counters and the same
    clock they take the same decision, with the same retry-after, and leave
    equal counters. *)
Theorem in_memory_limiter_agrees sender toolName cfg w :
  let mem := createInMemoryRateLimiter (windowMs cfg) (max cfg) (rate_key toolName sender)
               (w_now w) (rate_limits (w_db w)) in
  let dbl := checkRateLimit sender toolName cfg w in
  same_decision mem.1 dbl.1 ∧ mem.2 = rate_limits (w_db dbl.2).
Proof.
  unfold createInMemoryRateLimiter, checkRateLimit, mbind, M_bind, Date_now, getDb. simpl.
  fold (rate_key toolName sender).
  destruct (rate_limits (w_db w) !! rate_key toolName sender) as [row|]; simpl; [|done].
  destruct (w_now w - window_start row >=? windowMs cfg); simpl; [done|].
  destruct (count row >=? max cfg); simpl; done.
Qed.

(** ** The event source adapter *)

Lemma RATE_LIMIT_MS_pos API_KEY : 1000 ≤ RATE_LIMIT_MS API_KEY.
Proof. unfold RATE_LIMIT_MS. destruct (JS.truthy API_KEY); lia. Qed.

(** X5. Requests to the indexer are spaced: [tonapiFetch] sends its
    request no earlier than [RATE_LIMIT_MS] (at least one second) after the
    previous one and no earlier than the call, records that instant as
    [lastRequestTime], returns or throws within the fetch timeout of 15
    seconds after it, sends exactly one request and does not touch the
    database. *)
Theorem tonapiFetch_spacing API_KEY rq w :
  let w' := (tonapiFetch API_KEY rq w).2 in
  w_lastRequestTime w + RATE_LIMIT_MS API_KEY ≤ w_lastRequestTime w' ∧
  w_now w ≤ w_lastRequestTime w' ∧
  w_lastRequestTime w' ≤ w_now w' ≤ w_lastRequestTime w' + FETCH_TIMEOUT_MS ∧
  w_requests w' = rq :: w_requests w ∧
  w_net w' = tail (w_net w) ∧
  w_db w' = w_db w.
Proof.
  pose proof (RATE_LIMIT_MS_pos API_KEY) as HR.
  unfold tonapiFetch, FETCH_TIMEOUT_MS. cbv zeta.
  destruct (Z.ltb_spec (w_now w - w_lastRequestTime w) (RATE_LIMIT_MS API_KEY));
  destruct (w_net w) as [|r rest]; simpl;
    try (destruct (Z.ltb_spec 15000 (Z.of_N (latency r))); simpl;
         [|destruct (reply r); simpl]);
    repeat split; lia.
Qed.

Lemma retryLoop_requests API_KEY rq maxAttempts left attempt lastErr w :
  let w' := (retryLoop API_KEY rq maxAttempts left attempt lastErr w).2 in
  ∃ k, (k ≤ left)%nat ∧ (left ≠ 0 → k ≠ 0)%nat ∧
       w_requests w' = replicate k rq ++ w_requests w ∧
       w_net w' = drop k (w_net w) ∧
       w_db w' = w_db w ∧ w_now w ≤ w_now w'.
Proof.
  revert attempt lastErr w. induction left as [|left IH]; intros attempt lastErr w; simpl.
  { exists 0%nat. repeat split; try done; lia. }
  unfold try_catch.
  pose proof (tonapiFetch_spacing API_KEY rq w) as (_ & H1 & H2 & Hrq & Hnet & Hdb).
  destruct (tonapiFetch API_KEY rq w) as [[evs|err] w1]; simpl in *.
  { exists 1%nat. rewrite Hrq, Hnet, Hdb. simpl. repeat split; try done; lia. }
  destruct (negb (retryable (err_status err)) || (attempt + 1 >=? maxAttempts)); simpl.
  { exists 1%nat. rewrite Hrq, Hnet, Hdb. simpl. repeat split; try done; lia. }
  unfold mbind, M_bind, sleep. simpl.
  match goal with |- context [retryLoop _ _ _ _ ?a ?e ?w0] =>
    destruct (IH a e w0) as (k & Hk & _ & Hrq' & Hnet' & Hdb' & Hnow') end.
  simpl in *. exists (S k).
  split; [lia|]. split; [lia|].
  split; [rewrite Hrq', Hrq, (cons_middle rq), app_assoc, <- replicate_S_end; done|].
  split; [rewrite Hnet', Hnet; destruct (w_net w); simpl; [by rewrite drop_nil | done]|].
  split; [by rewrite Hdb'|]. lia.
Qed.

Lemma retry_requests_only API_KEY rq w :
  let w' := (tonapiFetchWithRetry API_KEY rq w).2 in
  ∃ k, (1 ≤ k ≤ 3)%nat ∧
       w_requests w' = replicate k rq ++ w_requests w ∧
       w_net w' = drop k (w_net w) ∧
       w_db w' = w_db w ∧ w_now w ≤ w_now w'.
Proof.
  destruct (retryLoop_requests API_KEY rq 3 3 0 (error "null") w)
    as (k & Hk & Hk0 & H). exists k. split; [|exact H].
  specialize (Hk0 ltac:(done)). lia.
Qed.

(** X6. One call of [tonapiFetchWithRetry] sends the same request at
    least once and at most three times, consumes as many replies, never
    writes to the database and never turns the clock back. *)
Theorem retry_sends_one_to_three_requests API_KEY rq w :
  let w' := (tonapiFetchWithRetry API_KEY rq w).2 in
  ∃ k, (1 ≤ k ≤ 3)%nat ∧
       w_requests w' = replicate k rq ++ w_requests w ∧
       w_net w' = drop k (w_net w) ∧
       w_db w' = w_db w ∧ w_now w ≤ w_now w'.
Proof. apply retry_requests_only. Qed.

(** X7. An HTTP error outside 429, 500, 502, 503, 504 and 522 is not
    retried: the first such reply ends [tonapiFetchWithRetry] with that
    error after a single request, whatever replies would have followed. *)
Theorem non_retryable_error_is_final API_KEY rq w l status text rest :
  w_net w = mkResponse l (ReplyHttpError status text) :: rest →
  Z.of_N l ≤ FETCH_TIMEOUT_MS →
  retryable (Some status) = false →
  let r := tonapiFetchWithRetry API_KEY rq w in
  r.1 = Throw (mkErr ("TONAPI error: " +:+ JS.ofZ status +:+ " " +:+ JS.slice0 200 text)
                 (Some status)) ∧
  w_requests r.2 = rq :: w_requests w ∧ w_net r.2 = rest.
Proof.
  intros Hnet Hl Hnr. unfold tonapiFetchWithRetry. simpl. unfold try_catch, tonapiFetch.
  rewrite Hnet. cbv zeta. simpl latency. simpl reply.
  destruct (Z.ltb_spec FETCH_TIMEOUT_MS (Z.of_N l)); [lia|].
  cbn [err_status]. rewrite Hnr. simpl. done.
Qed.

Lemma non_retryable_error_is_final_witness :
  let w := world emptyDB 10000 [mkResponse 5 (ReplyHttpError 404 "no such account"); busy] in
  let r := tonapiFetchWithRetry None (mkRequest (Some "w1") "desc" None None None None) w in
  r.1 = Throw (mkErr "TONAPI error: 404 no such account" (Some 404)) ∧
  w_requests r.2 = [mkRequest (Some "w1") "desc" None None None None] ∧ w_net r.2 = [busy].
Proof.
  intros w.
  apply (non_retryable_error_is_final None (mkRequest (Some "w1") "desc" None None None None)
           w 5%N 404 "no such account" [busy]); [reflexivity | | reflexivity].
  unfold FETCH_TIMEOUT_MS. lia.
Defined.

(** ** The matcher with sync on miss, further *)

(** X8. The two paths of [findTransferWithSync] that stay off the
    network.  When the cache already holds a qualifying transfer it is
    returned with source "cache"; when it does not and the wallet was synced
    less than [SYNC_MIN_INTERVAL_MS] ago, the answer is no match with source
    "throttled".  In both cases the world is left exactly as it was: no
    request, no write, no wait. *)
Theorem findTransferWithSync_offline Address API_KEY wallet c w :
  let hit := queryCachedTransfer Address (w_db w) wallet (c_tag c) (c_startMs c) (c_endMs c)
               (c_minAmountNano c) (c_expectedSender c) (c_strictSender c) in
  (∀ row, hit = Some row →
     findTransferWithSync Address API_KEY wallet c w = (Ok (mkFound (Some row) "cache"), w)) ∧
  (hit = None → sync_throttled (w_db w) wallet (w_now w) = true →
     findTransferWithSync Address API_KEY wallet c w = (Ok (mkFound None "throttled"), w)).
Proof.
  cbv zeta. split.
  - intros row Hhit. unfold findTransferWithSync.
    erewrite (bind_ok (cached Address wallet c)); cycle 1.
    { unfold cached. rewrite bind_getDb. rewrite Hhit. reflexivity. }
    reflexivity.
  - intros Hhit Hth. unfold findTransferWithSync.
    erewrite (bind_ok (cached Address wallet c)); cycle 1.
    { unfold cached. rewrite bind_getDb. rewrite Hhit. reflexivity. }
    cbv iota. rewrite bind_getDb, bind_Date_now. cbv zeta.
    unfold sync_throttled in Hth. rewrite Hth. reflexivity.
Qed.

Lemma findTransferWithSync_offline_witness :
  let c := mkCriteria (Some "INV#a1") 1500000000 None false (Some 1000) (Some 900000) in
  findTransferWithSync None None (Some "w1") c (world cache3 10000 [busy])
    = (Ok (mkFound (Some early_other) "cache"), world cache3 10000 [busy]) ∧
  findTransferWithSync None None (Some "w1") c (world synced 2000 [busy])
    = (Ok (mkFound None "throttled"), world synced 2000 [busy]).
Proof.
  intros c. split.
  - apply (proj1 (findTransferWithSync_offline None None (Some "w1") c
                    (world cache3 10000 [busy]))). reflexivity.
  - apply (proj2 (findTransferWithSync_offline None None (Some "w1") c
                    (world synced 2000 [busy]))); reflexivity.
Defined.

Lemma cached_run Address wallet c w :
  cached Address wallet c w
  = (Ok (queryCachedTransfer Address (w_db w) wallet (c_tag c) (c_startMs c) (c_endMs c)
           (c_minAmountNano c) (c_expectedSender c) (c_strictSender c)), w).
Proof. reflexivity. Qed.

Lemma findTransferWithSync_final Address API_KEY wallet c w f w' :
  findTransferWithSync Address API_KEY wallet c w = (Ok f, w') →
  let query db := queryCachedTransfer Address db wallet (c_tag c) (c_startMs c) (c_endMs c)
                    (c_minAmountNano c) (c_expectedSender c) (c_strictSender c) in
  match f_match f with
  | Some row =>
      query (w_db w') = Some row ∧
      (f_source f = "cache" ∨ f_source f = "sync_new" ∨ f_source f = "sync_old")
  | None =>
      (f_source f = "throttled" ∧ w' = w) ∨
      (f_source f = "not_found" ∧ query (w_db w') = None)
  end.
Proof.
  cbv zeta. unfold findTransferWithSync.
  rewrite (bind_ok _ _ _ _ _ (cached_run Address wallet c w)).
  destruct (queryCachedTransfer Address (w_db w) _ _ _ _ _ _ _) as [row|] eqn:H0.
  { intros [= <- <-]. simpl. auto. }
  rewrite bind_getDb, bind_Date_now. cbv zeta.
  destruct (match getWalletSync (w_db w) wallet ≫= last_sync_at with
            | Some l => _ | None => _ end).
  { intros [= <- <-]. simpl. auto. }
  destruct (syncNewEvents Address API_KEY wallet (c_startMs c) (c_endMs c) w)
    as [[n|e] w1] eqn:H1.
  2: { rewrite (bind_throw _ _ _ _ _ H1). discriminate. }
  rewrite (bind_ok _ _ _ _ _ H1).
  rewrite (bind_ok _ _ _ _ _ (cached_run Address wallet c w1)).
  destruct (queryCachedTransfer Address (w_db w1) _ _ _ _ _ _ _) as [row|] eqn:H2.
  { intros [= <- <-]. simpl. auto. }
  rewrite bind_getDb. cbv zeta.
  match goal with |- context [(?m ≫= _) w1] => destruct (m w1) as [[u|e] w2] eqn:H3 end.
  2: { rewrite (bind_throw _ _ _ _ _ H3). discriminate. }
  rewrite (bind_ok _ _ _ _ _ H3).
  rewrite (bind_ok _ _ _ _ _ (cached_run Address wallet c w2)).
  destruct (queryCachedTransfer Address (w_db w2) _ _ _ _ _ _ _) as [row|] eqn:H4.
  { intros [= <- <-]. simpl. auto. }
  intros [= <- <-]. simpl. auto.
Qed.

(** X9. What [findTransferWithSync] returns is what the cache says at the
    moment it returns.  A returned match is the answer of
    [queryCachedTransfer] over the final contents of the cache, and comes
    with source "cache", "sync_new" or "sync_old"; "not_found" is only
    returned when the query over the final cache finds nothing; and the only
    other answer is "throttled", with the world untouched. *)
Theorem findTransferWithSync_reports_cache Address API_KEY wallet c w :
  let r := findTransferWithSync Address API_KEY wallet c w in
  let query db := queryCachedTransfer Address db wallet (c_tag c) (c_startMs c) (c_endMs c)
                    (c_minAmountNano c) (c_expectedSender c) (c_strictSender c) in
  ∀ f, r.1 = Ok f →
    match f_match f with
    | Some row =>
        query (w_db r.2) = Some row ∧
        (f_source f = "cache" ∨ f_source f = "sync_new" ∨ f_source f = "sync_old")
    | None =>
        (f_source f = "throttled" ∧ r.2 = w) ∨
        (f_source f = "not_found" ∧ query (w_db r.2) = None)
    end.
Proof.
  cbv zeta. intros f Hf.
  apply (findTransferWithSync_final Address API_KEY wallet c w f).
  destruct (findTransferWithSync Address API_KEY wallet c w) as [r w']. simpl in *.
  by rewrite Hf.
Qed.

Lemma findTransferWithSync_reports_cache_witness :
  let c := mkCriteria (Some "INV#a1") 1500000000 None false (Some 1000) (Some 900000) in
  let r := findTransferWithSync None None (Some "w1") c (world cache3 10000 [busy]) in
  queryCachedTransfer None (w_db r.2) (Some "w1") (Some "INV#a1") (Some 1000) (Some 900000)
    1500000000 None false = Some early_other ∧
  (f_source (mkFound (Some early_other) "cache") = "cache" ∨
   f_source (mkFound (Some early_other) "cache") = "sync_new" ∨
   f_source (mkFound (Some early_other) "cache") = "sync_old").
Proof.
  intros c r.
  apply (findTransferWithSync_reports_cache None None (Some "w1") c
           (world cache3 10000 [busy]) (mkFound (Some early_other) "cache")).
  reflexivity.
Defined.

(** ** What a fresh match rests on *)

Lemma bind_inv {A B} (m : M A) (f : A -> M B) w b w' :
  (m ≫= f) w = (Ok b, w') → ∃ a w1, m w = (Ok a, w1) ∧ f a w1 = (Ok b, w').
Proof.
  unfold mbind, M_bind. destruct (m w) as [[a|e] w1]; [eauto | discriminate].
Qed.

Lemma run_tool_inv body w d :
  (run_tool body w).1 = Success d → body w = (Ok (Success d), (run_tool body w).2).
Proof.
  unfold run_tool. destruct (body w) as [[r|e] w']; simpl; [|discriminate].
  by intros ->.
Qed.

Lemma guarded_success toolName ctx body w d w' :
  guarded toolName ctx body w = (Ok (Success d), w') →
  guards_pass toolName ctx w = true ∧ body (after_rate toolName ctx w) = (Ok (Success d), w').
Proof.
  unfold guarded, guards_pass, after_rate, mbind, M_bind.
  destruct (assertAccess ctx toolName); [|discriminate].
  destruct (checkRateLimit _ _ _ w) as [[[n|ms]|e] w1]; simpl; try discriminate. auto.
Qed.

Lemma queryCachedTransfer_sound Address db wallet tag startMs endMs minA exp strict row :
  queryCachedTransfer Address db wallet tag startMs endMs minA exp strict = Some row →
  row ∈ transfers db ∧ query_where wallet tag startMs endMs row = true ∧
  row_passes Address minA exp strict row = true.
Proof.
  unfold queryCachedTransfer. intros H.
  destruct (firstPassing_split Address _ _ _ _ _ H) as (l1 & l2 & Hq & _ & Hp).
  destruct (stmtTransferQuery_prefix db wallet tag startMs endMs 50) as [rest Hs].
  assert (Hin : row ∈ merge_sort ts_le
            (filter (λ r, query_where wallet tag startMs endMs r = true) (transfers db))).
  { rewrite Hs, Hq. apply elem_of_app. left. apply elem_of_app. right. by left. }
  apply in_sorted_query in Hin as [Hin Hw]. auto.
Qed.

Lemma matchTime_inv row w at_ w' :
  matchTime row w = (Ok at_, w') →
  w' = w ∧ ∀ t, tr_timestamp row = Some t → t ≠ 0 → at_ = t * 1000.
Proof.
  unfold matchTime, nowIso, isoOf.
  assert (Hiso : ∀ ms, JS.toISOString ms = Some ms ∨ JS.toISOString ms = None).
  { intros ms. unfold JS.toISOString. case_match; auto. }
  destruct (tr_timestamp row) as [t|].
  - unfold JS.truthyZ. destruct (Z.eqb_spec t 0) as [->|Hne]; simpl.
    + rewrite bind_Date_now. destruct (Hiso (w_now w)) as [-> | ->]; [|discriminate].
      intros [= <- <-]. split; [done|]. intros t [= <-]. done.
    + destruct (Hiso (t * 1000)) as [-> | ->]; [|discriminate].
      intros [= <- <-]. split; [done|]. by intros t' [= <-].
  - rewrite bind_Date_now. destruct (Hiso (w_now w)) as [-> | ->]; [|discriminate].
    intros [= <- <-]. split; [done|]. discriminate.
Qed.

Lemma findTransferWithSync_keeps Address API_KEY wallet c w :
  agents (w_db (findTransferWithSync Address API_KEY wallet c w).2) = agents (w_db w) ∧
  invoices (w_db (findTransferWithSync Address API_KEY wallet c w).2) = invoices (w_db w).
Proof.
  assert (Hf : ∀ db db', agents db = agents db' → invoices db = invoices db' →
            agents db = agents (w_db w) ∧ invoices db = invoices (w_db w) →
            agents db' = agents (w_db w) ∧ invoices db' = invoices (w_db w)).
  { intros db db' <- <-. auto. }
  exact (proj1 (hoare_findTransferWithSync Address API_KEY _ Hf wallet c w
                  (conj eq_refl eq_refl))).
Qed.

Lemma isoOf_inv ms w t w' : isoOf ms w = (Ok t, w') → t = ms ∧ w' = w.
Proof.
  unfold isoOf, JS.toISOString.
  destruct ((- JS.MAX_DATE <=? ms) && (ms <=? JS.MAX_DATE)); [|discriminate].
  by intros [= <- <-].
Qed.

Lemma nowIso_inv w t w' : nowIso w = (Ok t, w') → t = w_now w ∧ w' = w.
Proof. unfold nowIso. rewrite bind_Date_now. apply isoOf_inv. Qed.

Lemma mret_inv {A} (a b : A) (w w' : World) :
  (mret a : M A) w = (Ok b, w') → a = b ∧ w = w'.
Proof. by intros [= <- <-]. Qed.

Lemma invCheck_fresh_paid Address API_KEY invoice_id ctx w
    id paidAt ev snd amt lvl strict src :
  (invCheck Address API_KEY invoice_id ctx w).1
    = Success (InvoiceNowPaidData id paidAt ev snd amt lvl strict src) →
  let w' := (invCheck Address API_KEY invoice_id ctx w).2 in
  ∃ inv row inv',
    id = trimOr invoice_id ∧
    invoices (w_db w) !! id = Some inv ∧ inv_status inv ≠ "paid" ∧
    row ∈ transfers (w_db w') ∧ pays_invoice Address id inv (w_now w) row ∧
    tr_event_id row = ev ∧ tr_sender row = snd ∧ formatTon (tr_amount_nano row) = amt ∧
    (∀ t, tr_timestamp row = Some t → t ≠ 0 → paidAt = t * 1000) ∧
    invoices (w_db w') !! id = Some inv' ∧ settled_invoice inv' paidAt row.
Proof.
  intros H. cbv zeta. unfold invCheck in *.
  apply run_tool_inv in H.
  set (w' := (run_tool _ w).2) in *. clearbody w'.
  apply guarded_success in H as [_ H].
  destruct (after_rate_frame "inv_check" ctx w) as (_ & Hinv0 & _ & _ & Hnow0 & _).
  set (w0 := after_rate "inv_check" ctx w) in *. clearbody w0.
  unfold invCheck_body in H. cbv zeta in H.
  set (i := trimOr invoice_id) in *.
  destruct (negb (JS.nonempty i)); [discriminate|].
  rewrite bind_getDb in H. rewrite Hinv0 in H.
  destruct (invoices (w_db w) !! i) as [inv|] eqn:Hrow; [|discriminate].
  destruct (String.eqb_spec (inv_status inv) "paid") as [|Hst]; [discriminate|].
  rewrite bind_Date_now in H.
  destruct (pastExpiry (inv_expires_at inv) (w_now w0)).
  { apply bind_inv in H as (? & ? & _ & H). discriminate. }
  destruct (bool_decide (inv_strict_sender inv = Some 1)
            && negb (JS.truthy (inv_expected_sender_wallet inv))); [discriminate|].
  apply bind_inv in H as (m & w1 & Hm & H).
  unfold BigIntOrThrow in Hm.
  destruct (JS.StringToBigInt (inv_amount_nano inv)) as [m'|] eqn:Hbig; [|discriminate].
  apply mret_inv in Hm as [-> <-].
  rewrite bind_Date_now in H.
  apply bind_inv in H as (f & w2 & Hfind & H).
  pose proof (findTransferWithSync_final _ _ _ _ _ _ _ Hfind) as Hfin.
  pose proof (findTransferWithSync_keeps Address API_KEY (Some (inv_recipient_wallet inv))
    (mkCriteria (Some ("INV#" +:+ i)) m (inv_expected_sender_wallet inv)
       (bool_decide (inv_strict_sender inv = Some 1))
       (Some (default 0 (parseIso (Some (inv_created_at inv)))))
       (Some (default (w_now w0) (parseIso (inv_expires_at inv))))) w0) as [_ Hkeep].
  rewrite Hfind in Hkeep. simpl in Hkeep.
  apply bind_inv in H as (at_ & w3 & Hat & H). apply nowIso_inv in Hat as [-> ->].
  apply bind_inv in H as ([] & w4 & Hmod & H).
  injection Hmod as <-.
  destruct (f_match f) as [row|]; [|discriminate].
  cbv zeta in Hfin. destruct Hfin as [Hq _]. simpl in Hq.
  apply bind_inv in H as (paid & w5 & Hpaid & H).
  apply matchTime_inv in Hpaid as [-> Hpaid].
  apply bind_inv in H as ([] & w6 & Hmod & H). injection Hmod as <-.
  apply mret_inv in H as [H <-]. injection H as <- <- <- <- <- <- <- <-.
  apply queryCachedTransfer_sound in Hq as (Hin & Hw & Hp).
  eexists inv, row, _. simpl.
  rewrite lookup_alter_eq, lookup_alter_eq, Hkeep, Hinv0, Hrow. simpl.
  do 4 (split; [done|]).
  split; [exists m; split; [done|]; rewrite <- Hnow0; apply qualifies_iff; auto|].
  unfold settled_invoice. simpl. repeat split; done.
Qed.

(** X10. A fresh "paid" answer of [inv_check] rests on a cached transfer
    that pays this invoice.  The invoice was stored and not yet paid; the
    cache holds, when the call returns, a transfer to the invoice's
    recipient wallet whose comment tag is INV#<id>, whose time lies between
    the creation of the invoice and its expiry (the time of the call when
    there is none), whose amount is at least the invoice's and, for a
    strict invoice, whose sender is the expected one; the answer reports
    that transfer's event id, sender and amount; and the stored invoice is
    now 'paid' with the same proof fields.  The reported [paid_at] is the
    instant [new Date(timestamp * 1000)], where [timestamp] is the cached
    value, which ingestion stores in milliseconds. *)
Theorem fresh_payment_rests_on_transfer Address API_KEY invoice_id ctx w
    id paidAt ev snd amt lvl strict src :
  (invCheck Address API_KEY invoice_id ctx w).1
    = Success (InvoiceNowPaidData id paidAt ev snd amt lvl strict src) →
  let w' := (invCheck Address API_KEY invoice_id ctx w).2 in
  ∃ inv row inv',
    id = trimOr invoice_id ∧
    invoices (w_db w) !! id = Some inv ∧ inv_status inv ≠ "paid" ∧
    row ∈ transfers (w_db w') ∧ pays_invoice Address id inv (w_now w) row ∧
    tr_event_id row = ev ∧ tr_sender row = snd ∧ formatTon (tr_amount_nano row) = amt ∧
    (∀ t, tr_timestamp row = Some t → t ≠ 0 → paidAt = t * 1000) ∧
    invoices (w_db w') !! id = Some inv' ∧ settled_invoice inv' paidAt row.
Proof. apply invCheck_fresh_paid. Qed.

Lemma fresh_payment_rests_on_transfer_witness :
  ∃ inv row inv',
    "a1" = trimOr (Some "a1") ∧
    invoices (w_db paying_world) !! "a1" = Some inv ∧ inv_status inv ≠ "paid" ∧
    row ∈ transfers (w_db (invCheck None None (Some "a1") ctx0 paying_world).2) ∧
    pays_invoice None "a1" inv (w_now paying_world) row ∧
    tr_event_id row = "ev1" ∧ tr_sender row = Some "s2" ∧
    formatTon (tr_amount_nano row) = Some "1.5" ∧
    (∀ t, tr_timestamp row = Some t → t ≠ 0 → 4000000 = t * 1000) ∧
    invoices (w_db (invCheck None None (Some "a1") ctx0 paying_world).2) !! "a1" = Some inv' ∧
    settled_invoice inv' 4000000 row.
Proof.
  apply (fresh_payment_rests_on_transfer None None (Some "a1") ctx0 paying_world
           "a1" 4000000 "ev1" (Some "s2") (Some "1.5") "comment_only" false "cache").
  vm_compute. reflexivity.
Defined.

Lemma invConfirmVerification_fresh Address API_KEY agent_id ctx w
    id wallet verifiedAt ev snd :
  (invConfirmVerification Address API_KEY agent_id ctx w).1
    = Success (AgentNowVerifiedData id wallet verifiedAt ev snd) →
  let w' := (invConfirmVerification Address API_KEY agent_id ctx w).2 in
  ∃ agent file row agent',
    id = trimOr agent_id ∧
    agents (w_db w) !! id = Some agent ∧ ag_status agent ≠ "verified" ∧
    wallet = ag_wallet_address agent ∧
    getAgentWalletAddress w = (Ok file, w) ∧
    row ∈ transfers (w_db w') ∧ answers_challenge Address agent file (w_now w) row ∧
    tr_event_id row = ev ∧ tr_sender row = snd ∧
    (∀ t, tr_timestamp row = Some t → t ≠ 0 → verifiedAt = t * 1000) ∧
    agents (w_db w') !! id = Some agent' ∧ verified_agent agent' verifiedAt row.
Proof.
  intros H. cbv zeta. unfold invConfirmVerification in *.
  apply run_tool_inv in H.
  set (w' := (run_tool _ w).2) in *. clearbody w'.
  apply guarded_success in H as [_ H].
  destruct (after_rate_frame "inv_confirm_verification" ctx w)
    as (Hag0 & _ & _ & _ & Hnow0 & _ & _ & Hfile0 & _).
  set (w0 := after_rate "inv_confirm_verification" ctx w) in *. clearbody w0.
  unfold invConfirmVerification_body in H. cbv zeta in H.
  set (i := trimOr agent_id) in *.
  destruct (negb (JS.nonempty i)); [discriminate|].
  rewrite bind_getDb in H. rewrite Hag0 in H.
  destruct (agents (w_db w) !! i) as [agent|] eqn:Hrow; [|discriminate].
  destruct (String.eqb_spec (ag_status agent) "verified") as [|Hst]; [discriminate|].
  rewrite bind_Date_now in H.
  destruct (pastExpiry (ag_challenge_expires_at agent) (w_now w0)); [discriminate|].
  apply bind_inv in H as (file & w1 & Hfile & H).
  assert (w1 = w0) as ->.
  { unfold getAgentWalletAddress in Hfile. destruct (w_wallet_file w0); try discriminate.
    destruct (JS.nonempty address); by injection Hfile. }
  apply bind_inv in H as (m & w1 & Hm & H).
  unfold BigIntOrThrow in Hm.
  destruct (JS.StringToBigInt (default "0" (ag_challenge_amount_nano agent)))
    as [m'|] eqn:Hbig; [|discriminate].
  apply mret_inv in Hm as [-> <-].
  rewrite bind_Date_now in H.
  apply bind_inv in H as (f & w2 & Hfind & H).
  pose proof (findTransferWithSync_final _ _ _ _ _ _ _ Hfind) as Hfin.
  pose proof (findTransferWithSync_keeps Address API_KEY
    (normalizeAddress Address (Some file))
    (mkCriteria (ag_challenge_tag agent) m (ag_wallet_address agent) true
       (parseIso (ag_challenge_created_at agent))
       (Some (default (w_now w0) (parseIso (ag_challenge_expires_at agent))))) w0)
    as [Hkeep _].
  rewrite Hfind in Hkeep. simpl in Hkeep.
  destruct (f_match f) as [row|]; [|discriminate].
  cbv zeta in Hfin. destruct Hfin as [Hq _].
  cbn [c_tag c_minAmountNano c_expectedSender c_strictSender c_startMs c_endMs] in Hq.
  apply bind_inv in H as (ver & w5 & Hver & H).
  apply matchTime_inv in Hver as [-> Hver].
  apply bind_inv in H as (now & w6 & Hnow & H). apply nowIso_inv in Hnow as [-> ->].
  apply bind_inv in H as ([] & w6 & Hmod & H). injection Hmod as <-.
  apply mret_inv in H as [H <-]. injection H as <- <- <- <- <-.
  apply queryCachedTransfer_sound in Hq as (Hin & Hw & Hp).
  eexists agent, file, row, _. simpl.
  rewrite lookup_alter_eq, Hkeep, Hag0, Hrow. simpl.
  do 4 (split; [done|]).
  split; [by apply (getAgentWalletAddress_ext w0 w file)|].
  split; [done|].
  split.
  { unfold answers_challenge. unfold parseIso in *.
    destruct (normalizeAddress Address (Some file)) as [rcp|];
      [|unfold query_where in Hw; simpl in Hw; discriminate Hw].
    destruct (ag_challenge_tag agent) as [tag|];
      [|unfold query_where in Hw; simpl in Hw; discriminate Hw].
    destruct (ag_challenge_created_at agent) as [c|].
    2: { unfold query_where in Hw. destruct (tr_timestamp row); [|discriminate Hw].
         simpl in Hw. by rewrite andb_false_r in Hw. }
    exists rcp, tag, c, m. do 4 (split; [done|]).
    rewrite <- Hnow0. apply qualifies_iff. auto. }
  unfold verified_agent. simpl. repeat split; done.
Qed.

(** X11. A fresh "verified" answer of [inv_confirm_verification] rests on
    a cached transfer that answers the challenge.  The agent was stored and
    not yet verified; [wallet.json] was readable; the cache holds, when the
    call returns, a transfer to the plugin's own wallet whose comment tag is
    the challenge tag, whose time lies between the creation of the challenge
    and its expiry (the time of the call when there is none), whose amount
    is at least the challenge amount and whose sender is the wallet the
    agent claims, when one is stored; the answer reports that transfer's
    event id and sender, and the stored agent is now 'verified' with the
    same proof fields. *)
Theorem fresh_verification_rests_on_transfer Address API_KEY agent_id ctx w
    id wallet verifiedAt ev snd :
  (invConfirmVerification Address API_KEY agent_id ctx w).1
    = Success (AgentNowVerifiedData id wallet verifiedAt ev snd) →
  let w' := (invConfirmVerification Address API_KEY agent_id ctx w).2 in
  ∃ agent file row agent',
    id = trimOr agent_id ∧
    agents (w_db w) !! id = Some agent ∧ ag_status agent ≠ "verified" ∧
    wallet = ag_wallet_address agent ∧
    getAgentWalletAddress w = (Ok file, w) ∧
    row ∈ transfers (w_db w') ∧ answers_challenge Address agent file (w_now w) row ∧
    tr_event_id row = ev ∧ tr_sender row = snd ∧
    (∀ t, tr_timestamp row = Some t → t ≠ 0 → verifiedAt = t * 1000) ∧
    agents (w_db w') !! id = Some agent' ∧ verified_agent agent' verifiedAt row.
Proof. apply invConfirmVerification_fresh. Qed.

Lemma fresh_verification_rests_on_transfer_witness :
  ∃ agent file row agent',
    "alice" = trimOr (Some "alice") ∧
    agents (w_db answering_world) !! "alice" = Some agent ∧ ag_status agent ≠ "verified" ∧
    Some "s1" = ag_wallet_address agent ∧
    getAgentWalletAddress answering_world = (Ok file, answering_world) ∧
    row ∈ transfers
            (w_db (invConfirmVerification None None (Some "alice") ctx_open
                     answering_world).2) ∧
    answers_challenge None agent file (w_now answering_world) row ∧
    tr_event_id row = "ev7" ∧ tr_sender row = Some "s1" ∧
    (∀ t, tr_timestamp row = Some t → t ≠ 0 → 4000000 = t * 1000) ∧
    agents (w_db (invConfirmVerification None None (Some "alice") ctx_open
                    answering_world).2) !! "alice" = Some agent' ∧
    verified_agent agent' 4000000 row.
Proof.
  apply (fresh_verification_rests_on_transfer None None (Some "alice") ctx_open
           answering_world "alice" (Some "s1") 4000000 "ev7" (Some "s1")).
  vm_compute. reflexivity.
Defined.

(** ** Decimal texts *)

Lemma rev_app_rev_app s1 s2 s3 :
  String.rev_app (String.rev_app s1 s2) s3 = String.rev_app s2 (s1 +:+ s3).
Proof.
  revert s2 s3. induction s1 as [|a s1 IH]; intros s2 s3; simpl; [reflexivity|].
  by rewrite IH.
Qed.

Lemma rev_involutive s : String.rev (String.rev s) = s.
Proof.
  unfold String.rev. rewrite rev_app_rev_app. simpl.
  induction s as [|a s IH]; [reflexivity|].
  change (String a (s +:+ "") = String a s). by rewrite IH.
Qed.

Lemma all_chars_rev_app p s1 s2 :
  JS.all_chars p s1 = true → JS.all_chars p s2 = true →
  JS.all_chars p (String.rev_app s1 s2) = true.
Proof.
  revert s2. induction s1 as [|a s1 IH]; intros s2; simpl; [auto|].
  intros [Ha H1]%andb_true_iff H2. apply IH; [exact H1|]. simpl. by rewrite Ha, H2.
Qed.

Lemma trimStart_id s :
  JS.all_chars (λ c, negb (JS.is_ws c)) s = true → JS.trimStart s = s.
Proof.
  destruct s as [|c r]; simpl; [reflexivity|].
  intros [Hc _]%andb_true_iff. apply negb_true_iff in Hc. by rewrite Hc.
Qed.

Lemma trim_id s :
  JS.all_chars (λ c, negb (JS.is_ws c)) s = true → JS.trim s = s.
Proof.
  intros H. unfold JS.trim, JS.trimEnd. rewrite (trimStart_id s H).
  rewrite trimStart_id; [apply rev_involutive|].
  by apply all_chars_rev_app.
Qed.

Lemma all_chars_impl (p q : ascii -> bool) s :
  (∀ c, p c = true → q c = true) → JS.all_chars p s = true → JS.all_chars q s = true.
Proof.
  intros Hpq. induction s as [|c r IH]; simpl; [auto|].
  intros [Hc Hr]%andb_true_iff. by rewrite (Hpq c Hc), (IH Hr).
Qed.

Lemma is_digit_not_ws c : JS.is_digit c = true → negb (JS.is_ws c) = true.
Proof.
  unfold JS.is_digit, JS.is_ws, JS.between.
  intros [H1 H2]%andb_true_iff. apply N.leb_le in H1. apply N.leb_le in H2.
  apply negb_true_iff, orb_false_iff. split.
  - apply andb_false_iff. right. apply N.leb_gt. lia.
  - apply N.eqb_neq. lia.
Qed.

Lemma pretty_N_char_digit n :
  (n < 10)%N →
  JS.is_digit (pretty_N_char n) = true ∧
  JS.digit_val 10 (pretty_N_char n) = Some (Z.of_N n) ∧
  (n ≠ 0%N → JS.code (pretty_N_char n) ≠ 48%N).
Proof.
  intros Hn.
  assert (n = 0 ∨ n = 1 ∨ n = 2 ∨ n = 3 ∨ n = 4 ∨ n = 5 ∨ n = 6 ∨ n = 7 ∨ n = 8 ∨ n = 9)%N
    as Hc by lia.
  repeat (destruct Hc as [-> | Hc]); try subst n; vm_compute; repeat split; congruence.
Qed.

(** The digits [pretty_N_go] puts in front of [s]. *)
Lemma pretty_N_go_digits (x : N) :
  ∃ k : Z, 0 ≤ k ∧
    (∀ s, JS.all_chars JS.is_digit s = true →
          JS.all_chars JS.is_digit (pretty_N_go x s) = true) ∧
    (∀ acc s, JS.digits 10 acc (pretty_N_go x s)
              = JS.digits 10 (acc * 10 ^ k + Z.of_N x) s) ∧
    ((0 < x)%N → ∀ s, ∃ c r, pretty_N_go x s = String c r ∧ JS.code c ≠ 48%N).
Proof.
  induction (N.lt_wf_0 x) as [x _ IH].
  assert (x = 0 ∨ 0 < x)%N as [->|Hx] by lia.
  { exists 0. split; [lia|]. split; [|split].
    - intros s Hs. by rewrite pretty_N_go_0.
    - intros acc s. rewrite pretty_N_go_0. f_equal. simpl. lia.
    - lia. }
  destruct (IH (x `div` 10)%N) as (k & Hk & Hall & Hval & Hlead).
  { by apply N.div_lt. }
  assert (Hm : (x `mod` 10 < 10)%N) by (by apply N.mod_lt).
  destruct (pretty_N_char_digit _ Hm) as (Hd & Hv & Hnz).
  exists (k + 1). split; [lia|]. split; [|split].
  - intros s Hs. rewrite pretty_N_go_step by done. apply Hall. simpl. by rewrite Hd, Hs.
  - intros acc s. rewrite pretty_N_go_step by done. rewrite Hval. simpl. rewrite Hv.
    f_equal. rewrite Z.pow_add_r by lia.
    pose proof (N.div_mod x 10 ltac:(done)) as Hdm.
    assert (Hz : Z.of_N x = 10 * Z.of_N (x `div` 10) + Z.of_N (x `mod` 10)).
    { rewrite Hdm at 1. rewrite N2Z.inj_add, N2Z.inj_mul. reflexivity. }
    rewrite Hz. generalize (Z.of_N (x `div` 10)) (Z.of_N (x `mod` 10)) (10 ^ k).
    intros. ring.
  - intros _ s. rewrite pretty_N_go_step by done.
    destruct (N.eq_0_gt_0_cases (x `div` 10)) as [H0|Hpos].
    + rewrite H0, pretty_N_go_0. eexists _, _. split; [reflexivity|].
      apply Hnz. intros Hmod. pose proof (N.div_mod x 10 ltac:(done)) as Hdm.
      rewrite H0, Hmod in Hdm. lia.
    + apply (Hlead Hpos).
Qed.

Lemma StringToBigInt_pos (p : positive) :
  JS.all_chars JS.is_digit (pretty (Npos p)) = true ∧
  JS.digits1 10 (pretty (Npos p)) = Some (Zpos p) ∧
  JS.StringToBigInt (pretty (Npos p)) = Some (Zpos p).
Proof.
  destruct (pretty_N_go_digits (Npos p)) as (k & Hk & Hall & Hval & Hlead).
  assert (Hp : pretty (N.pos p) = pretty_N_go (N.pos p) "").
  { unfold pretty, pretty_N. by rewrite decide_False. }
  destruct (Hlead ltac:(lia) "") as (c & r & Hcr & Hc).
  assert (Had : JS.all_chars JS.is_digit (pretty (N.pos p)) = true).
  { rewrite Hp. by apply Hall. }
  assert (Hd1 : JS.digits1 10 (pretty (N.pos p)) = Some (Z.pos p)).
  { unfold JS.digits1. rewrite Hp, Hcr. simpl JS.nonempty. cbv iota.
    rewrite <- Hcr, Hval. simpl. f_equal. }
  split; [exact Had|]. split; [exact Hd1|].
  unfold JS.StringToBigInt.
  rewrite trim_id by (eapply all_chars_impl; [apply is_digit_not_ws | exact Had]).
  rewrite Hp, Hcr in *. simpl in Had. apply andb_true_iff in Had as [Hdc _].
  unfold JS.is_digit, JS.between in Hdc. apply andb_true_iff in Hdc as [H1 H2].
  apply N.leb_le in H1. apply N.leb_le in H2.
  destruct (N.eqb_spec (JS.code c) 43); [lia|].
  destruct (N.eqb_spec (JS.code c) 45); [lia|].
  destruct (N.eqb_spec (JS.code c) 48); [contradiction|].
  exact Hd1.
Qed.

Lemma StringToBigInt_ofZ z : JS.StringToBigInt (JS.ofZ z) = Some z.
Proof.
  unfold JS.ofZ. destruct z as [|p|p].
  - reflexivity.
  - apply StringToBigInt_pos.
  - destruct (StringToBigInt_pos p) as (Had & Hd1 & _).
    change (pretty (Z.neg p)) with (String "-" (pretty (N.pos p))).
    unfold JS.StringToBigInt. rewrite trim_id.
    + change (JS.code "-" =? 43)%N with false. change (JS.code "-" =? 45)%N with true.
      cbv iota. by rewrite Hd1.
    + simpl. eapply all_chars_impl; [apply is_digit_not_ws | exact Had].
Qed.


(** ** Amount texts *)

Lemma toNanoString_inr amount s :
  toNanoString amount = inr s → ∃ n, 0 < n ∧ s = JS.ofZ n.
Proof.
  unfold toNanoString. destruct amount as [a|]; [|discriminate]. cbv zeta.
  destruct (_ && _); [|discriminate].
  destruct (JS.StringToBigInt (JS.splitHead 46 (JS.trim a))) as [i|]; [|discriminate].
  destruct (JS.StringToBigInt _) as [f|]; [|discriminate].
  destruct (Z.leb_spec (i * NANO + f) 0); [discriminate|].
  intros [= <-]. eauto.
Qed.

(** X13. An amount accepted by [toNanoString] is stored as the decimal
    text of a positive number of nanotons, which [BigInt] reads back and
    [formatTon] can print; every other input is an error, a missing amount
    being "amount_ton is required". *)
Theorem toNanoString_yields_positive_nano amount :
  match toNanoString amount with
  | inr s => ∃ n, 0 < n ∧ s = JS.ofZ n ∧ JS.StringToBigInt s = Some n ∧
                  is_Some (formatTon (Some s))
  | inl msg => amount = None → msg = "amount_ton is required"
  end.
Proof.
  destruct (toNanoString amount) as [msg|s] eqn:H.
  - intros ->. simpl in H. by injection H as <-.
  - destruct (toNanoString_inr _ _ H) as (n & Hn & ->).
    exists n. repeat split; try done; [apply StringToBigInt_ofZ|].
    unfold formatTon, toBigIntSafeText, toBigIntSafe, JS.BigInt.
    rewrite StringToBigInt_ofZ. cbv zeta. case_match; eauto.
Qed.

(** ** Invariants of the database through tool calls *)

(** The sync engine and the rate limiter keep whatever only depends on
    the agents and the invoices. *)
Lemma frame_find Address API_KEY (I : DB -> Prop) :
  (∀ db db', agents db = agents db' → invoices db = invoices db' → I db → I db') →
  ∀ wallet c, hoare I (findTransferWithSync Address API_KEY wallet c) (λ _, True).
Proof.
  intros Hframe wallet c. eapply hoare_weaken;
    [apply (hoare_findTransferWithSync Address API_KEY _ Hframe) | auto].
Qed.

Lemma frame_rate (I : DB -> Prop) :
  (∀ db db', agents db = agents db' → invoices db = invoices db' → I db → I db') →
  ∀ sender toolName cfg, hoare I (checkRateLimit sender toolName cfg) (λ _, True).
Proof. intros Hframe sender toolName cfg. by apply hoare_checkRateLimit. Qed.

(** An invariant that the sync engine, the rate limiter and each SQL
    statement of the tools keep is kept by every tool call. *)
Section ToolInvariant.

Context (Address : option (string -> option string)) (API_KEY : option string).
Context (I : DB -> Prop).

Hypothesis I_find :
  ∀ wallet c, hoare I (findTransferWithSync Address API_KEY wallet c) (λ _, True).
Hypothesis I_rate :
  ∀ sender toolName cfg, hoare I (checkRateLimit sender toolName cfg) (λ _, True).
Hypothesis I_upsert : ∀ k a db, well_formed_agent k a → I db → I (stmtAgentUpsert k a db).
Hypothesis I_verify : ∀ verifiedAt ev snd now k db,
  I db → I (stmtAgentVerify verifiedAt ev snd now k db).
Hypothesis I_status : ∀ k db, I db → I (stmtInvoiceUpdateStatus "expired" k db).
Hypothesis I_last : ∀ at_ k db, I db → I (stmtInvoiceUpdateLastCheck at_ k db).
Hypothesis I_paid : ∀ paidAt ev snd an at_ k db,
  I db → I (stmtInvoiceMarkPaid paidAt ev snd an at_ k db).
Hypothesis I_insert : ∀ k i db,
  invoices db !! k = None → well_formed_invoice k i →
  I db → I (set_invoices <[k := i]> db).

Lemma hoare_liftNano amount :
  hoare I (liftNano (toNanoString amount)) (λ s, ∃ n, 0 < n ∧ s = JS.ofZ n).
Proof.
  destruct (toNanoString amount) as [msg|s] eqn:H; simpl.
  - apply hoare_throw.
  - apply hoare_ret. by eapply toNanoString_inr.
Qed.

Lemma invBeginVerification_body_inv params :
  hoare I (invBeginVerification_body params) (λ _, True).
Proof.
  unfold invBeginVerification_body. cbv zeta.
  destruct (JS.nonempty (trimOr (bp_agent_id params))) eqn:Hid; cbn [negb];
    [|apply hoare_ret; exact Logic.I].
  destruct (JS.nonempty (trimOr (bp_wallet_address params))) eqn:Hw; cbn [negb];
    [|apply hoare_ret; exact Logic.I].
  destruct (Z.ltb_spec 64 (Z.of_nat (String.length (trimOr (bp_agent_id params)))))
    as [|Hlen]; [apply hoare_ret; exact Logic.I|].
  eapply hoare_bind; [apply hoare_liftNano|]. intros amountNano (n & Hn & ->).
  hstep. hstep. hstep. hstep.
  eapply (hoare_bind _ _ _ (λ _, True)).
  { apply hoare_modifyDb. intros db0. apply I_upsert.
    unfold well_formed_agent. simpl.
    split; [by destruct (trimOr (bp_agent_id params))|].
    split; [lia|]. split; [by left|]. split; [discriminate|].
    repeat split; eauto. }
  intros _ _. hstep. apply hoare_ret. exact Logic.I.
Qed.

Lemma invConfirmVerification_body_inv agent_id :
  hoare I (invConfirmVerification_body Address API_KEY agent_id) (λ _, True).
Proof.
  unfold invConfirmVerification_body. cbv zeta.
  hstep; [apply hoare_ret; exact Logic.I|].
  hstep. hstep; [|apply hoare_ret; exact Logic.I].
  hstep; [apply hoare_ret; exact Logic.I|].
  hstep. hstep; [apply hoare_ret; exact Logic.I|].
  hstep. hstep. hstep.
  eapply (hoare_bind _ _ _ (λ _, True)); [apply I_find|].
  intros result _. hstep; [|apply hoare_ret; exact Logic.I].
  hstep. hstep.
  eapply (hoare_bind _ _ _ (λ _, True)).
  { apply hoare_modifyDb. intros db0. apply I_verify. }
  intros _ _. apply hoare_ret. exact Logic.I.
Qed.

Lemma invCheck_body_inv invoice_id :
  hoare I (invCheck_body Address API_KEY invoice_id) (λ _, True).
Proof.
  unfold invCheck_body. cbv zeta.
  hstep; [apply hoare_ret; exact Logic.I|].
  apply hoare_bind_getDb. intros db Hdb.
  destruct (invoices db !! trimOr invoice_id) as [invoice|] eqn:Hlook;
    [|apply hoare_ret; exact Logic.I].
  hstep; [apply hoare_ret; exact Logic.I|].
  hstep. hstep.
  { eapply (hoare_bind _ _ _ (λ _, True)).
    - apply hoare_modifyDb. intros db'. apply I_status.
    - intros _ _. apply hoare_ret. exact Logic.I. }
  hstep; [apply hoare_ret; exact Logic.I|].
  hstep. hstep.
  eapply (hoare_bind _ _ _ (λ _, True)); [apply I_find|].
  intros result _. hstep.
  eapply (hoare_bind _ _ _ (λ _, True)).
  { apply hoare_modifyDb. intros db'. apply I_last. }
  intros _ _. hstep; [|apply hoare_ret; exact Logic.I].
  hstep.
  eapply (hoare_bind _ _ _ (λ _, True)).
  { apply hoare_modifyDb. intros db'. apply I_paid. }
  intros _ _. apply hoare_ret. exact Logic.I.
Qed.

Lemma invReceipt_body_inv invoice_id :
  hoare I (invReceipt_body invoice_id) (λ _, True).
Proof.
  unfold invReceipt_body. cbv zeta.
  hstep; [apply hoare_ret; exact Logic.I|].
  hstep. hstep; [|apply hoare_ret; exact Logic.I].
  hstep; apply hoare_ret; exact Logic.I.
Qed.

Lemma checkPayer_verified db pa pw allow strict exp v st :
  checkPayer Address db pa pw allow strict = PayerAccept exp v st → v = 0 ∨ v = 1.
Proof.
  unfold checkPayer. cbv zeta. repeat case_match; intros [=]; subst; auto.
Qed.

Lemma db_const_run {A} (m : M A) w r w' : db_const m → m w = (r, w') → w_db w' = w_db w.
Proof. intros Hm Hrun. specialize (Hm w). by rewrite Hrun in Hm. Qed.

Lemma db_const_expiry (minutes : option Z) :
  db_const (match minutes with
            | Some n =>
                if JS.truthyZ n
                then ms ← Date_now; t ← isoOf (ms + n * 60000); mret (Some t)
                else mret None
            | None => mret None
            end).
Proof.
  intros w. destruct minutes as [n|]; [|reflexivity].
  destruct (JS.truthyZ n); [|reflexivity].
  rewrite bind_Date_now. unfold mbind, M_bind.
  pose proof (db_const_isoOf (w_now w + n * 60000) w) as H.
  destruct (isoOf _ w) as [[t|e] w1]; exact H.
Qed.

Lemma invCreate_body_inv params :
  hoare I (invCreate_body Address params) (λ _, True).
Proof.
  unfold invCreate_body. cbv zeta.
  eapply hoare_bind; [apply hoare_liftNano|]. intros amountNano (n & Hn & ->).
  eapply (hoare_bind _ _ _ (λ _, True)).
  { hstep; [apply hoare_ret; exact Logic.I|]. hstep. apply hoare_ret. exact Logic.I. }
  intros recipient _. apply hoare_bind_getDb. intros db1 _.
  destruct (checkPayer Address db1 _ _ _ _) as [e|exp ver strict] eqn:Hpayer;
    [apply hoare_ret; exact Logic.I|].
  destruct (strict && negb (JS.truthy exp)) eqn:Hstrict; [apply hoare_ret; exact Logic.I|].
  eapply (hoare_bind _ _ _ (λ _, True)).
  { hstep; [apply hoare_ret; exact Logic.I|]. hstep. apply hoare_ret. exact Logic.I. }
  intros invoiceId _. destruct (JS.nonempty invoiceId) eqn:Hnon; simpl;
    [|apply hoare_ret; exact Logic.I].
  intros w HI. split; [|auto]. rewrite bind_getDb.
  destruct (bool_decide (is_Some (invoices (w_db w) !! invoiceId))) eqn:Hex; [exact HI|].
  apply bool_decide_eq_false in Hex. rewrite <- eq_None_not_Some in Hex.
  destruct (nowIso w) as [[now|e] w1] eqn:H1;
    pose proof (db_const_run _ _ _ _ db_const_nowIso H1) as D1;
    [rewrite (bind_ok _ _ _ _ _ H1) | rewrite (bind_throw _ _ _ _ _ H1); simpl; by rewrite D1].
  match goal with |- context [(?m ≫= _) w1] =>
    destruct (m w1) as [[expiresAt|e] w2] eqn:H2;
    pose proof (db_const_run _ _ _ _ (db_const_expiry (cp_expires_in_minutes params)) H2)
      as D2;
    [rewrite (bind_ok _ _ _ _ _ H2)
    | rewrite (bind_throw _ _ _ _ _ H2); simpl; by rewrite D2, D1]
  end.
  unfold stmtInvoiceInsert.
  destruct recipient as [r|];
    [|unfold mbind, M_bind, throw; simpl; by rewrite D2, D1].
  unfold mbind, M_bind, modifyDb, mret, M_ret. simpl.
  apply I_insert; [by rewrite D2, D1 | | by rewrite D2, D1].
  destruct (checkPayer_verified _ _ _ _ _ _ _ _ Hpayer) as [-> | ->].
  all: unfold well_formed_invoice; simpl.
  all: repeat split; try discriminate; eauto.
  all: try (by destruct invoiceId).
  all: try (exists n; split; [apply StringToBigInt_ofZ | exact Hn]).
  all: try (destruct strict; auto).
  all: try (intros _; simpl in Hstrict; by apply negb_false_iff in Hstrict).
  all: try discriminate.
Qed.

Lemma guarded_inv toolName ctx body :
  hoare I body (λ _, True) → hoare I (guarded toolName ctx body) (λ _, True).
Proof.
  intros Hbody. unfold guarded.
  destruct (assertAccess ctx toolName); [|apply hoare_ret; exact Logic.I].
  eapply (hoare_bind _ _ _ (λ _, True)); [apply I_rate|].
  intros rl _. destruct rl; [exact Hbody | apply hoare_ret; exact Logic.I].
Qed.

Lemma execute_keeps_inv c w : I (w_db w) → I (w_db (execute Address API_KEY c w).2).
Proof.
  intros H.
  destruct c; simpl; unfold invRegisterAgent, invBeginVerification,
    invConfirmVerification, invCreate, invCheck, invReceipt;
    (eapply (run_tool_hoare I _ (λ _, True)); [|auto|exact H]);
    apply guarded_inv.
  - apply invBeginVerification_body_inv.
  - apply invBeginVerification_body_inv.
  - apply invConfirmVerification_body_inv.
  - apply invCreate_body_inv.
  - apply invCheck_body_inv.
  - apply invReceipt_body_inv.
Qed.

Lemma steps_keep_inv w w' : steps Address API_KEY w w' → I (w_db w) → I (w_db w').
Proof.
  induction 1 as [|w w' w'' _ IH Hstep]; [auto|].
  intros H. specialize (IH H). destruct Hstep as [c w0 Hdb ->].
  apply execute_keeps_inv. unfold same_db in Hdb. by rewrite <- Hdb.
Qed.

End ToolInvariant.

Lemma same_terms_refl i : same_terms i i.
Proof. unfold same_terms. repeat split. Qed.

Lemma same_terms_trans a b c : same_terms a b → same_terms b c → same_terms a c.
Proof.
  unfold same_terms. intros H1 H2.
  destruct H1 as (?&?&?&?&?&?&?&?&?&?&?), H2 as (?&?&?&?&?&?&?&?&?&?&?).
  repeat split; congruence.
Qed.

(** What a row update may change: the status (but not back to 'pending'),
    the proof of payment and the time of the last check. *)
Lemma wf_alter (f : Invoice -> Invoice) k db :
  (∀ id i, well_formed_invoice id i → well_formed_invoice id (f i)) →
  invoices_well_formed db → invoices_well_formed (set_invoices (alter f k) db).
Proof.
  intros Hf Hdb id i. simpl. rewrite lookup_alter_Some.
  intros [(-> & j & Hj & ->) | [_ Hi]]; [apply Hf|]; by eapply Hdb.
Qed.

Lemma terms_alter (f : Invoice -> Invoice) k id inv db :
  (∀ i, same_terms i (f i) ∧ (inv_status i ≠ "pending" → inv_status (f i) ≠ "pending")) →
  keeps_terms id inv db → keeps_terms id inv (set_invoices (alter f k) db).
Proof.
  intros Hf (inv' & Hlook & Hterms & Hst). unfold keeps_terms. simpl.
  destruct (decide (k = id)) as [->|Hne].
  - exists (f inv'). rewrite lookup_alter_eq, Hlook. destruct (Hf inv') as [H1 H2].
    split; [done|]. split; [by eapply same_terms_trans | auto].
  - exists inv'. by rewrite lookup_alter_ne.
Qed.

(** X14. Every invoice the tools ever store is well formed.  Starting
    from a table of well-formed invoices (the empty table is one), after any
    sequence of tool calls every stored invoice has a non-empty id, a status
    among 'pending', 'expired' and 'paid', a [paid_at] and a [tx_event_id]
    when it is 'paid' and neither while it is 'pending', an [amount_nano]
    that [BigInt] reads as a positive number, a [strict_sender] of 0 or 1
    with an expected sender whenever it is 1, and the comment
    [buildInvoiceComment] makes for its id. *)
Theorem stored_invoices_stay_well_formed Address API_KEY w w' :
  steps Address API_KEY w w' →
  invoices_well_formed (w_db w) → invoices_well_formed (w_db w').
Proof.
  assert (Hframe : ∀ db db', agents db = agents db' → invoices db = invoices db' →
            invoices_well_formed db → invoices_well_formed db').
  { unfold invoices_well_formed. by intros db db' _ <-. }
  apply (steps_keep_inv Address API_KEY invoices_well_formed).
  - by apply frame_find.
  - by apply frame_rate.
  - by intros k a db _.
  - by intros verifiedAt ev snd now k db.
  - intros k db. apply wf_alter. unfold well_formed_invoice. simpl.
    intros id i (?&?&?&?&?&?&?&?). repeat split; auto; discriminate.
  - intros at_ k db. apply wf_alter. unfold well_formed_invoice. simpl.
    intros id i (?&?&?&?&?&?&?&?). repeat split; auto; tauto.
  - intros paidAt ev snd an at_ k db. apply wf_alter. unfold well_formed_invoice. simpl.
    intros id i (?&?&?&?&?&?&?&?). repeat split; eauto; discriminate.
  - intros k i db Hfresh Hwf Hdb id j. simpl. rewrite lookup_insert_Some.
    intros [[<- <-] | [_ Hj]]; [exact Hwf | by eapply Hdb].
Qed.

Lemma stored_invoices_stay_well_formed_witness :
  invoices_well_formed
    (w_db (execute None None (CallCreate create_params ctx_open)
             (world emptyDB 10000 [])).2).
Proof.
  apply (stored_invoices_stay_well_formed None None (world emptyDB 10000 [])).
  - eapply steps_next; [apply steps_refl|].
    by apply (step_call None None _ _ (CallCreate create_params ctx_open)
                (world emptyDB 10000 [])).
  - intros id i H. simpl in H. by rewrite lookup_empty in H.
Defined.

(** X15. Invoices are never deleted and their terms never change.  Through
    any sequence of tool calls a stored invoice stays stored under its id
    with the same creation and expiry times, amount, recipient, expected
    sender, payer, description, comment and strictness (a second
    [inv_create] for the id is refused); and once its status is no longer
    'pending' it never is 'pending' again. *)
Theorem invoice_terms_are_fixed Address API_KEY w w' id inv :
  steps Address API_KEY w w' →
  invoices (w_db w) !! id = Some inv →
  ∃ inv', invoices (w_db w') !! id = Some inv' ∧ same_terms inv inv' ∧
          (inv_status inv ≠ "pending" → inv_status inv' ≠ "pending").
Proof.
  intros Hsteps Hlook.
  assert (Hframe : ∀ db db', agents db = agents db' → invoices db = invoices db' →
            keeps_terms id inv db → keeps_terms id inv db').
  { unfold keeps_terms. by intros db db' _ <-. }
  apply (steps_keep_inv Address API_KEY (keeps_terms id inv)) with (w := w); try done.
  - by apply frame_find.
  - by apply frame_rate.
  - intros k db. apply terms_alter. intros i. unfold same_terms. simpl.
    split; [repeat split | discriminate].
  - intros at_ k db. apply terms_alter. intros i. unfold same_terms. simpl.
    split; [repeat split | auto].
  - intros paidAt ev snd an at_ k db. apply terms_alter. intros i. unfold same_terms.
    simpl. split; [repeat split | discriminate].
  - intros k i db Hfresh _ (inv' & Hl & Ht). exists inv'. simpl.
    rewrite lookup_insert_ne; [done|]. intros ->. by rewrite Hl in Hfresh.
  - exists inv. split; [done|]. split; [apply same_terms_refl | auto].
Qed.

Lemma invoice_terms_are_fixed_witness :
  ∃ inv', invoices (w_db (execute None None (CallCheck (Some "a1") ctx0) paying_world).2)
            !! "a1" = Some inv' ∧
          same_terms (invoice_a1 "pending") inv' ∧
          (inv_status (invoice_a1 "pending") ≠ "pending" → inv_status inv' ≠ "pending").
Proof.
  apply (invoice_terms_are_fixed None None paying_world).
  - eapply steps_next; [apply steps_refl|].
    by apply (step_call None None _ _ (CallCheck (Some "a1") ctx0) paying_world).
  - reflexivity.
Defined.

(** X20. Every agent record the tools ever store is well formed.
    Starting from a table of well-formed records (the empty table is one),
    after any sequence of tool calls every stored agent has a non-empty id
    of at most 64 characters, a claimed wallet, status 'pending' or
    'verified', [verified_at] and [proof_event_id] exactly in the second
    case, the challenge tag [buildVerificationTag] makes for its id, a
    challenge amount that is the decimal text of a positive number, and a
    creation and an expiry time. *)
Theorem stored_agents_stay_well_formed Address API_KEY w w' :
  steps Address API_KEY w w' →
  agents_well_formed (w_db w) → agents_well_formed (w_db w').
Proof.
  assert (Hframe : ∀ db db', agents db = agents db' → invoices db = invoices db' →
            agents_well_formed db → agents_well_formed db').
  { unfold agents_well_formed. by intros db db' <- _. }
  apply (steps_keep_inv Address API_KEY agents_well_formed).
  - by apply frame_find.
  - by apply frame_rate.
  - intros k a db Hwf Hdb id j. simpl. rewrite lookup_insert_Some.
    intros [[<- <-] | [_ Hj]]; [exact Hwf | by eapply Hdb].
  - intros verifiedAt ev snd now k db Hdb id j. simpl. rewrite lookup_alter_Some.
    intros [(-> & a & Ha & ->) | [_ Hj]]; [|by eapply Hdb].
    destruct (Hdb _ _ Ha) as (?&?&?&?&?&?&?&?&?&?).
    unfold well_formed_agent. simpl. repeat split; eauto; discriminate.
  - by intros k db.
  - by intros at_ k db.
  - by intros paidAt ev snd an at_ k db.
  - by intros k i db _ _.
Qed.

Lemma stored_agents_stay_well_formed_witness :
  agents_well_formed
    (w_db (execute None None (CallBeginVerification begin_alice ctx_open)
             (world emptyDB 10000 [])).2).
Proof.
  apply (stored_agents_stay_well_formed None None (world emptyDB 10000 [])).
  - eapply steps_next; [apply steps_refl|].
    by apply (step_call None None _ _ (CallBeginVerification begin_alice ctx_open)
                (world emptyDB 10000 [])).
  - intros id i H. simpl in H. by rewrite lookup_empty in H.
Defined.

Lemma toNanoString_yields_positive_nano_witness :
  ∃ n, 0 < n ∧ "1500000000" = JS.ofZ n ∧ JS.StringToBigInt "1500000000" = Some n ∧
       is_Some (formatTon (Some "1500000000")).
Proof. exact (toNanoString_yields_positive_nano (Some "1.5")). Defined.

(** ** Computations that leave the world alone *)

Lemma pure_run {A} (m : M A) w r w' : pure_world m → m w = (r, w') → w' = w.
Proof. intros Hm Hrun. specialize (Hm w). by rewrite Hrun in Hm. Qed.

Lemma pure_isoOf ms : pure_world (isoOf ms).
Proof. intros w. unfold isoOf. by destruct (JS.toISOString ms). Qed.

Lemma pure_nowIso : pure_world nowIso.
Proof. intros w. unfold nowIso. rewrite bind_Date_now. apply pure_isoOf. Qed.

Lemma pure_liftNano r : pure_world (liftNano r).
Proof. intros w. by destruct r. Qed.

Lemma pure_getAgentWalletAddress : pure_world getAgentWalletAddress.
Proof.
  intros w. unfold getAgentWalletAddress. destruct (w_wallet_file w) as [| |a]; try done.
  by destruct (JS.nonempty a).
Qed.

Lemma pure_bind {A B} (m : M A) (f : A -> M B) :
  pure_world m → (∀ a, pure_world (f a)) → pure_world (m ≫= f).
Proof.
  intros Hm Hf w. unfold mbind, M_bind. specialize (Hm w).
  destruct (m w) as [[a|e] w1]; simpl in *; subst; [apply Hf | done].
Qed.

Lemma pure_expiry (minutes : option Z) :
  pure_world (match minutes with
              | Some n =>
                  if JS.truthyZ n
                  then ms ← Date_now; t ← isoOf (ms + n * 60000); mret (Some t)
                  else mret None
              | None => mret None
              end).
Proof.
  destruct minutes as [n|]; [|done]. destruct (JS.truthyZ n); [|done].
  intros w. rewrite bind_Date_now. apply pure_bind; [apply pure_isoOf | done].
Qed.

(** ** inv_create *)

Lemma create_frame_refl w : create_frame w w.
Proof. by unfold create_frame. Qed.

Lemma invCreate_body_run Address params w :
  let r := invCreate_body Address params w in
  create_frame w r.2 ∧
  match r.1 with
  | Ok (Success d) =>
      ∃ id inv lvl links,
        d = InvoiceCreatedData id inv lvl links ∧
        links = buildLinks (inv_recipient_wallet inv) (inv_amount_nano inv)
                  (inv_comment inv) ∧
        id ≠ "" ∧ invoices (w_db w) !! id = None ∧
        invoices (w_db r.2) = <[id := inv]> (invoices (w_db w)) ∧
        inv_status inv = "pending" ∧ inv_created_at inv = w_now w ∧
        toNanoString (cp_amount_ton params) = inr (inv_amount_nano inv) ∧
        inv_comment inv = buildInvoiceComment id (trimmedOrNull (cp_payer_agent params)) ∧
        (JS.truthy (cp_invoice_id params) = true → id = trimOr (cp_invoice_id params))
  | _ => invoices (w_db r.2) = invoices (w_db w)
  end.
Proof.
  cbv zeta. unfold invCreate_body.
  destruct (liftNano (toNanoString (cp_amount_ton params)) w) as [[amountNano|e] w1] eqn:H1;
    pose proof (pure_run _ _ _ _ (pure_liftNano _) H1) as ->;
    [rewrite (bind_ok _ _ _ _ _ H1)
    | rewrite (bind_throw _ _ _ _ _ H1); split; [apply create_frame_refl | unfold mret, M_ret; simpl; congruence]].
  assert (Hnano : toNanoString (cp_amount_ton params) = inr amountNano).
  { destruct (toNanoString (cp_amount_ton params)); [discriminate|]. by injection H1 as ->. }
  clear H1. cbv zeta.
  match goal with |- context [(?m ≫= _) w] =>
    assert (Hpure : pure_world m);
      [|destruct (m w) as [[recipient|e] w1] eqn:H2;
        pose proof (pure_run _ _ _ _ Hpure H2) as ->;
        [rewrite (bind_ok _ _ _ _ _ H2)
        | rewrite (bind_throw _ _ _ _ _ H2); split; [apply create_frame_refl | unfold mret, M_ret; simpl; congruence]]]
  end.
  { destruct (JS.truthy (cp_recipient_wallet params)); [done|].
    apply pure_bind; [apply pure_getAgentWalletAddress | done]. }
  clear H2 Hpure. rewrite bind_getDb.
  destruct (checkPayer Address (w_db w) _ _ _ _) as [e|exp ver strict];
    [split; [apply create_frame_refl | unfold mret, M_ret; simpl; congruence]|].
  destruct (strict && negb (JS.truthy exp)); [split; [apply create_frame_refl | unfold mret, M_ret; simpl; congruence]|].
  match goal with |- context [(?m ≫= _) w] =>
    destruct (m w) as [[invoiceId|e] w1] eqn:H3 end.
  2: { exfalso. destruct (JS.truthy (cp_invoice_id params)); [discriminate|].
       unfold mbind, M_bind, randomHex in H3. by destruct (w_rand w). }
  assert (Hw1 : w_db w1 = w_db w ∧ w_requests w1 = w_requests w ∧ w_net w1 = w_net w ∧
                w_now w1 = w_now w ∧
                (JS.truthy (cp_invoice_id params) = true →
                 invoiceId = trimOr (cp_invoice_id params))).
  { destruct (JS.truthy (cp_invoice_id params)).
    - injection H3 as <- <-. done.
    - unfold mbind, M_bind, randomHex in H3.
      destruct (w_rand w); injection H3 as <- <-; done. }
  destruct Hw1 as (Hdb1 & Hrq1 & Hnet1 & Hnow1 & Hid).
  rewrite (bind_ok _ _ _ _ _ H3). clear H3.
  assert (Hfr : create_frame w w1).
  { unfold create_frame. by rewrite Hdb1, Hrq1, Hnet1, Hnow1. }
  destruct (JS.nonempty invoiceId) eqn:Hnon; simpl; [|split; [done | unfold mret, M_ret; simpl; congruence]].
  rewrite bind_getDb.
  destruct (bool_decide (is_Some (invoices (w_db w1) !! invoiceId))) eqn:Hex;
    [split; [done | unfold mret, M_ret; simpl; congruence]|].
  apply bool_decide_eq_false in Hex. rewrite <- eq_None_not_Some in Hex.
  destruct (nowIso w1) as [[now|e] w2] eqn:H4;
    pose proof (pure_run _ _ _ _ pure_nowIso H4) as ->;
    [rewrite (bind_ok _ _ _ _ _ H4)
    | rewrite (bind_throw _ _ _ _ _ H4); split; [done | unfold mret, M_ret; simpl; congruence]].
  apply nowIso_inv in H4 as [-> _].
  match goal with |- context [(?m ≫= _) w1] =>
    destruct (m w1) as [[expiresAt|e] w2] eqn:H5;
    pose proof (pure_run _ _ _ _ (pure_expiry (cp_expires_in_minutes params)) H5) as ->;
    [rewrite (bind_ok _ _ _ _ _ H5)
    | rewrite (bind_throw _ _ _ _ _ H5); split; [done | unfold mret, M_ret; simpl; congruence]]
  end.
  clear H5. unfold stmtInvoiceInsert.
  destruct recipient as [r|];
    [|unfold mbind, M_bind, throw; simpl; split; [done | unfold mret, M_ret; simpl; congruence]].
  unfold mbind, M_bind, modifyDb, mret, M_ret. simpl.
  split.
  { unfold create_frame in *. simpl. tauto. }
  eexists invoiceId, _, _, _. split; [reflexivity|]. simpl.
  rewrite Hdb1 in *. repeat split; try done. by destruct invoiceId.
Qed.

(** A tool call either stops at the guards, with the world untouched, or
    runs its body from the world with the rate counter updated. *)
Lemma tool_cases toolName ctx body w :
  (guards_pass toolName ctx w = false ∧
   ∃ e, run_tool (guarded toolName ctx body) w = (Failure e, w)) ∨
  (guards_pass toolName ctx w = true ∧
   run_tool (guarded toolName ctx body) w = run_tool body (after_rate toolName ctx w)).
Proof.
  destruct (guards_pass toolName ctx w) eqn:Hg.
  - right. split; [done|]. unfold run_tool. by rewrite guarded_pass.
  - left. split; [done|]. by apply tool_stopped.
Qed.

(** X16. What [inv_create] does to the database.  A successful call adds
    exactly the invoice it returns, under an id that was not in use (the
    requested one when one is given), with status 'pending', created at the
    time of the call, with the nano amount [toNanoString] computes and the
    comment [buildInvoiceComment] builds, and returns payment links for
    exactly those values; a call that fails leaves the invoices as they
    were.  In both cases agents, cache and watermarks are untouched and no
    request is sent. *)
Theorem invCreate_adds_one_invoice Address params ctx w :
  let r := invCreate Address params ctx w in
  create_frame w r.2 ∧
  match r.1 with
  | Success d =>
      ∃ id inv lvl links,
        d = InvoiceCreatedData id inv lvl links ∧
        links = buildLinks (inv_recipient_wallet inv) (inv_amount_nano inv)
                  (inv_comment inv) ∧
        id ≠ "" ∧ invoices (w_db w) !! id = None ∧
        invoices (w_db r.2) = <[id := inv]> (invoices (w_db w)) ∧
        inv_status inv = "pending" ∧ inv_created_at inv = w_now w ∧
        toNanoString (cp_amount_ton params) = inr (inv_amount_nano inv) ∧
        inv_comment inv = buildInvoiceComment id (trimmedOrNull (cp_payer_agent params)) ∧
        (JS.truthy (cp_invoice_id params) = true → id = trimOr (cp_invoice_id params))
  | Failure _ => invoices (w_db r.2) = invoices (w_db w)
  end.
Proof.
  cbv zeta. unfold invCreate.
  destruct (tool_cases "inv_create" ctx (invCreate_body Address params) w)
    as [(_ & e & ->) | [_ ->]].
  { split; [apply create_frame_refl | done]. }
  destruct (after_rate_frame "inv_create" ctx w)
    as (Ha & Hi & Ht & Hs & Hnow & Hnet & Hrq & _).
  set (w0 := after_rate "inv_create" ctx w) in *. clearbody w0.
  pose proof (invCreate_body_run Address params w0) as [Hfr Hres]. cbv zeta in Hfr, Hres.
  unfold run_tool.
  destruct (invCreate_body Address params w0) as [[[d|e]|e] w1]; simpl in *.
  - split.
    { unfold create_frame in *. rewrite <- Ha, <- Ht, <- Hs, <- Hnow, <- Hnet, <- Hrq.
      exact Hfr. }
    destruct Hres as (id & inv & lvl & links & H). exists id, inv, lvl, links.
    rewrite <- Hi, <- Hnow. exact H.
  - split; [|congruence].
    unfold create_frame in *. rewrite <- Ha, <- Ht, <- Hs, <- Hnow, <- Hnet, <- Hrq.
    exact Hfr.
  - split; [|congruence].
    unfold create_frame in *. rewrite <- Ha, <- Ht, <- Hs, <- Hnow, <- Hnet, <- Hrq.
    exact Hfr.
Qed.

Lemma invCreate_adds_one_invoice_witness :
  let r := invCreate None create_params ctx_open (world emptyDB 10000 []) in
  create_frame (world emptyDB 10000 []) r.2 ∧
  ∃ id inv lvl links,
    InvoiceCreatedData "a2"
      (mkInvoice 10000 (Some 610000) "1.5" "1500000000" "w1" None None (Some 0) None
         "INV#a2" "pending" (Some 0) None None None None None None)
      "none" (buildLinks "w1" "1500000000" "INV#a2")
    = InvoiceCreatedData id inv lvl links ∧
    links = buildLinks (inv_recipient_wallet inv) (inv_amount_nano inv) (inv_comment inv) ∧
    id ≠ "" ∧ invoices emptyDB !! id = None ∧
    invoices (w_db r.2) = <[id := inv]> (invoices emptyDB) ∧
    inv_status inv = "pending" ∧ inv_created_at inv = 10000 ∧
    toNanoString (cp_amount_ton create_params) = inr (inv_amount_nano inv) ∧
    inv_comment inv = buildInvoiceComment id (trimmedOrNull (cp_payer_agent create_params)) ∧
    (JS.truthy (cp_invoice_id create_params) = true →
     id = trimOr (cp_invoice_id create_params)).
Proof.
  exact (invCreate_adds_one_invoice None create_params ctx_open (world emptyDB 10000 [])).
Defined.

(** ** inv_receipt *)

Lemma nonempty_iff s : JS.nonempty s = true ↔ s ≠ "".
Proof. destruct s; simpl; split; congruence. Qed.

(** X17. [inv_receipt] only reads.  Whatever it answers, the world after
    the call is the world after the guards (at most the caller's rate
    counter has changed); and it answers success exactly when the guards
    pass and the invoice is stored with status 'paid', returning the stored
    row itself. *)
Theorem invReceipt_reads_paid_invoices invoice_id ctx w :
  let r := invReceipt invoice_id ctx w in
  let id := trimOr invoice_id in
  (r.2 = w ∨ r.2 = after_rate "inv_receipt" ctx w) ∧
  ∀ d, r.1 = Success d ↔
       guards_pass "inv_receipt" ctx w = true ∧ id ≠ "" ∧
       ∃ inv, invoices (w_db w) !! id = Some inv ∧ inv_status inv = "paid" ∧
              d = ReceiptData id inv
                    (identityLevelOf (inv_expected_sender_wallet inv)
                       (bool_decide (inv_payer_agent_verified inv = Some 1))).
Proof.
  cbv zeta. unfold invReceipt.
  destruct (tool_cases "inv_receipt" ctx (invReceipt_body invoice_id) w)
    as [(Hg & e & ->) | [Hg ->]].
  { split; [by left|]. intros d. split; [discriminate|]. intros (Hg' & _). congruence. }
  destruct (after_rate_frame "inv_receipt" ctx w) as (_ & Hi & _).
  set (w0 := after_rate "inv_receipt" ctx w) in *. clearbody w0.
  unfold run_tool, invReceipt_body. cbv zeta.
  destruct (JS.nonempty (trimOr invoice_id)) eqn:Hnon; simpl.
  2: { split; [by right|]. intros d. split; [discriminate|].
       intros (_ & Hne & _). apply nonempty_iff in Hne. congruence. }
  apply nonempty_iff in Hnon.
  unfold mbind, M_bind, getDb. simpl. rewrite Hi.
  destruct (invoices (w_db w) !! trimOr invoice_id) as [inv|] eqn:Hlook; simpl.
  2: { split; [by right|]. intros d. split; [discriminate|].
       intros (_ & _ & inv & [=] & _). }
  destruct (String.eqb_spec (inv_status inv) "paid") as [Hp|Hp]; simpl.
  - split; [by right|]. intros d. split.
    + intros [= <-]. split; [done|]. split; [done|]. by exists inv.
    + intros (_ & _ & inv' & [= <-] & _ & ->). done.
  - split; [by right|]. intros d. split; [discriminate|].
    intros (_ & _ & inv' & [= <-] & Hp' & _). contradiction.
Qed.

Lemma invReceipt_reads_paid_invoices_witness :
  (invReceipt (Some "a1") ctx0 paid_world).1
  = Success (ReceiptData "a1" paid_a1 "comment_only").
Proof.
  apply (proj2 (proj2 (invReceipt_reads_paid_invoices (Some "a1") ctx0 paid_world) _)).
  split; [reflexivity|]. split; [discriminate|]. exists paid_a1. repeat split.
Defined.

(** ** inv_confirm_verification on a verified agent *)

(** X18. For an agent stored as 'verified', [inv_confirm_verification]
    is a read: a call that passes the guards returns the stored wallet,
    [verified_at] and [proof_event_id], without reading [wallet.json],
    without sending a request, and without writing anything but the rate
    counter, even when the challenge has expired since. *)
Theorem verified_agent_confirmation_is_a_read Address API_KEY agent_id ctx w a :
  guards_pass "inv_confirm_verification" ctx w = true →
  trimOr agent_id ≠ "" →
  agents (w_db w) !! trimOr agent_id = Some a →
  ag_status a = "verified" →
  invConfirmVerification Address API_KEY agent_id ctx w
  = (Success (AgentVerifiedData (trimOr agent_id) "verified" (ag_wallet_address a)
                (ag_verified_at a) (ag_proof_event_id a)),
     after_rate "inv_confirm_verification" ctx w).
Proof.
  intros Hg Hne Hlook Hst. unfold invConfirmVerification, run_tool.
  rewrite guarded_pass by exact Hg.
  destruct (after_rate_frame "inv_confirm_verification" ctx w) as (Ha & _).
  apply nonempty_iff in Hne.
  unfold invConfirmVerification_body. cbv zeta. rewrite Hne.
  change (negb true) with false. cbv iota.
  rewrite bind_getDb, Ha, Hlook, Hst. reflexivity.
Qed.

Lemma verified_agent_confirmation_is_a_read_witness :
  invConfirmVerification None None (Some "alice") ctx_open
    (at_time 5000000 verified_world)
  = (Success (AgentVerifiedData "alice" "verified" (Some "s1") (Some 5000000) (Some "ev1")),
     after_rate "inv_confirm_verification" ctx_open (at_time 5000000 verified_world)).
Proof.
  apply (verified_agent_confirmation_is_a_read None None (Some "alice") ctx_open
           (at_time 5000000 verified_world) (agent_alice "verified"));
    [reflexivity | discriminate | reflexivity | reflexivity].
Defined.

(** ** inv_begin_verification *)

(** The record [inv_begin_verification] writes. *)
Lemma invBeginVerification_body_run params w :
  let r := invBeginVerification_body params w in
  let agentId := trimOr (bp_agent_id params) in
  invoices (w_db r.2) = invoices (w_db w) ∧ transfers (w_db r.2) = transfers (w_db w) ∧
  wallet_sync (w_db r.2) = wallet_sync (w_db w) ∧
  w_requests r.2 = w_requests w ∧ w_net r.2 = w_net w ∧ w_now r.2 = w_now w ∧
  (agents (w_db r.2) = agents (w_db w) ∧ (∀ d, r.1 ≠ Ok (Success d)) ∨
   ∃ row, agents (w_db r.2) = <[agentId := row]> (agents (w_db w)) ∧
          fresh_challenge row ∧
          ag_wallet_address row = Some (trimOr (bp_wallet_address params)) ∧
          ag_challenge_created_at row = Some (w_now w) ∧
          ag_challenge_expires_at row
            = Some (w_now w + default VERIFY_TTL_MINUTES (bp_expires_in_minutes params)
                              * 60000) ∧
          (∃ n, 0 < n ∧ ag_challenge_amount_nano row = Some (JS.ofZ n)) ∧
          match r.1 with
          | Ok (Success d) =>
              ∃ tag recipient ton nano links,
                d = BeginData agentId (trimOr (bp_wallet_address params)) "pending" tag
                      ton nano recipient (w_now w)
                      (w_now w + default VERIFY_TTL_MINUTES (bp_expires_in_minutes params)
                                 * 60000) links ∧
                ag_challenge_tag row = Some tag ∧ ag_challenge_amount_ton row = Some ton ∧
                ag_challenge_amount_nano row = Some nano ∧
                getAgentWalletAddress w = (Ok recipient, w) ∧
                links = buildLinks recipient nano tag
          | Ok (Failure _) => False
          | Throw e => getAgentWalletAddress w = (Throw e, w)
          end).
Proof.
  cbv zeta. unfold invBeginVerification_body. cbv zeta.
  assert (Hstop : ∀ (e : string) ,
    let r := (mret (Failure e) : M ToolResult) w in
    invoices (w_db r.2) = invoices (w_db w) ∧ transfers (w_db r.2) = transfers (w_db w) ∧
    wallet_sync (w_db r.2) = wallet_sync (w_db w) ∧
    w_requests r.2 = w_requests w ∧ w_net r.2 = w_net w ∧ w_now r.2 = w_now w ∧
    (agents (w_db r.2) = agents (w_db w) ∧ (∀ d, r.1 ≠ Ok (Success d)) ∨ False)).
  { intros e. cbv zeta. simpl. repeat split; try done. left. split; [done|]. discriminate. }
  destruct (negb (JS.nonempty (trimOr (bp_agent_id params)))).
  { destruct (Hstop "agent_id is required") as (?&?&?&?&?&?&[?|[]]). repeat split; auto. }
  destruct (negb (JS.nonempty (trimOr (bp_wallet_address params)))).
  { destruct (Hstop "wallet_address is required") as (?&?&?&?&?&?&[?|[]]).
    repeat split; auto. }
  destruct (64 <? Z.of_nat (String.length (trimOr (bp_agent_id params)))).
  { destruct (Hstop "agent_id is too long (max 64)") as (?&?&?&?&?&?&[?|[]]).
    repeat split; auto. }
  clear Hstop.
  match goal with |- context [liftNano (toNanoString ?x)] => set (amount := x) end.
  destruct (liftNano (toNanoString amount) w) as [[amountNano|e] w1] eqn:H1;
    pose proof (pure_run _ _ _ _ (pure_liftNano _) H1) as ->;
    [rewrite (bind_ok _ _ _ _ _ H1)
    | rewrite (bind_throw _ _ _ _ _ H1); simpl; repeat split; try done;
      left; split; [done | discriminate]].
  assert (Hnano : ∃ n, 0 < n ∧ amountNano = JS.ofZ n).
  { destruct (toNanoString amount) as [|s] eqn:Hs; [discriminate|].
    injection H1 as ->. by eapply toNanoString_inr. }
  clear H1.
  destruct (randomHex 4 w) as [[code|e] w1] eqn:H2.
  2: { unfold randomHex in H2. destruct (w_rand w); discriminate. }
  assert (Hw1 : w_db w1 = w_db w ∧ w_requests w1 = w_requests w ∧ w_net w1 = w_net w ∧
                w_now w1 = w_now w ∧ w_wallet_file w1 = w_wallet_file w).
  { unfold randomHex in H2. destruct (w_rand w); injection H2 as <- <-; done. }
  destruct Hw1 as (Hdb1 & Hrq1 & Hnet1 & Hnow1 & Hfile1).
  rewrite (bind_ok _ _ _ _ _ H2). clear H2.
  destruct (nowIso w1) as [[now|e] w2] eqn:H3;
    pose proof (pure_run _ _ _ _ pure_nowIso H3) as ->;
    [rewrite (bind_ok _ _ _ _ _ H3)
    | rewrite (bind_throw _ _ _ _ _ H3); simpl; rewrite Hdb1; repeat split; try done;
      left; split; [done | discriminate]].
  apply nowIso_inv in H3 as [-> _]. rewrite bind_Date_now.
  destruct (isoOf (w_now w1 + default VERIFY_TTL_MINUTES (bp_expires_in_minutes params)
                              * 60000) w1) as [[expiresAt|e] w2] eqn:H4;
    pose proof (pure_run _ _ _ _ (pure_isoOf _) H4) as ->;
    [rewrite (bind_ok _ _ _ _ _ H4)
    | rewrite (bind_throw _ _ _ _ _ H4); simpl; rewrite Hdb1; repeat split; try done;
      left; split; [done | discriminate]].
  apply isoOf_inv in H4 as [-> _].
  match goal with |- context [(modifyDb ?f ≫= ?k) w1] =>
    change ((modifyDb f ≫= k) w1) with (k tt (modifyDb f w1).2);
    set (w2 := (modifyDb f w1).2)
  end.
  cbv beta.
  assert (Hfile : ∀ r w', getAgentWalletAddress w = (r, w') →
                          getAgentWalletAddress w2 = (r, w2) ∧ w' = w).
  { unfold getAgentWalletAddress. subst w2. simpl. rewrite Hfile1.
    destruct (w_wallet_file w) as [| |a]; try (intros r w' [= <- <-]; done).
    destruct (JS.nonempty a); intros r w' [= <- <-]; done. }
  destruct (getAgentWalletAddress w) as [rf wf] eqn:Hf.
  destruct (Hfile rf wf eq_refl) as [Hf2 ->].
  assert (Hw2 : invoices (w_db w2) = invoices (w_db w) ∧
                transfers (w_db w2) = transfers (w_db w) ∧
                wallet_sync (w_db w2) = wallet_sync (w_db w) ∧
                w_requests w2 = w_requests w ∧ w_net w2 = w_net w ∧ w_now w2 = w_now w).
  { subst w2. simpl. by rewrite Hdb1, Hrq1, Hnet1, Hnow1. }
  assert (Hag : agents (w_db w2)
                = <[trimOr (bp_agent_id params) :=
                      mkAgent (Some (trimOr (bp_wallet_address params))) "pending"
                        (Some (buildVerificationTag (trimOr (bp_agent_id params)) code))
                        amount (Some amountNano) (Some (w_now w))
                        (Some (w_now w + default VERIFY_TTL_MINUTES
                                           (bp_expires_in_minutes params) * 60000))
                        None None None (w_now w)]> (agents (w_db w))).
  { subst w2. simpl. by rewrite Hdb1, Hnow1. }
  clearbody w2.
  destruct rf as [recipient|e];
    [rewrite (bind_ok _ _ _ _ _ Hf2) | rewrite (bind_throw _ _ _ _ _ Hf2)];
    unfold mret, M_ret; simpl; rewrite ?Hnow1.
  all: destruct Hw2 as (?&?&?&?&?&?); do 6 (split; [done|]).
  all: right; eexists; (split; [exact Hag|]).
  all: unfold fresh_challenge; simpl; do 4 (split; [done|]).
  all: split; [destruct Hnano as (n & ? & ->); by exists n|].
  - eexists _, _, _, _, _. split; [reflexivity|]. done.
  - done.
Qed.

(** X19. The outcomes of [inv_begin_verification] (and of its alias
    [inv_register_agent]).  Invoices, cache and watermarks are never
    touched and no request is sent.  Either the agents are as they were and
    the call did not succeed; or the record of the agent has been replaced
    by a fresh pending challenge (no [verified_at], no proof) for the given
    wallet, created at the time of the call, expiring after the given
    minutes (60 by default), for a positive amount.  In the second case the
    call succeeded and returns that challenge with the plugin's own wallet
    and the payment links, or else [wallet.json] could not be read and the
    answer is success=false with that error: the challenge is stored before
    the wallet file is read, so this failed call has already replaced the
    record. *)
Theorem invBeginVerification_outcomes params ctx w :
  let r := invBeginVerification params ctx w in
  let agentId := trimOr (bp_agent_id params) in
  (invoices (w_db r.2) = invoices (w_db w) ∧ transfers (w_db r.2) = transfers (w_db w) ∧
   wallet_sync (w_db r.2) = wallet_sync (w_db w) ∧
   w_requests r.2 = w_requests w ∧ w_net r.2 = w_net w ∧ w_now r.2 = w_now w) ∧
  (agents (w_db r.2) = agents (w_db w) ∧ (∀ d, r.1 ≠ Success d) ∨
   ∃ row, agents (w_db r.2) = <[agentId := row]> (agents (w_db w)) ∧
          fresh_challenge row ∧
          ag_wallet_address row = Some (trimOr (bp_wallet_address params)) ∧
          ag_challenge_created_at row = Some (w_now w) ∧
          ag_challenge_expires_at row
            = Some (w_now w + default VERIFY_TTL_MINUTES (bp_expires_in_minutes params)
                              * 60000) ∧
          (∃ n, 0 < n ∧ ag_challenge_amount_nano row = Some (JS.ofZ n)) ∧
          match r.1 with
          | Success d =>
              ∃ tag recipient ton nano links,
                d = BeginData agentId (trimOr (bp_wallet_address params)) "pending" tag
                      ton nano recipient (w_now w)
                      (w_now w + default VERIFY_TTL_MINUTES (bp_expires_in_minutes params)
                                 * 60000) links ∧
                ag_challenge_tag row = Some tag ∧ ag_challenge_amount_ton row = Some ton ∧
                ag_challenge_amount_nano row = Some nano ∧
                getAgentWalletAddress w = (Ok recipient, w) ∧
                links = buildLinks recipient nano tag
          | Failure msg =>
              ∃ e, getAgentWalletAddress w = (Throw e, w) ∧ msg = catchMessage e
          end).
Proof.
  cbv zeta. unfold invBeginVerification.
  destruct (tool_cases "inv_begin_verification" ctx (invBeginVerification_body params) w)
    as [(_ & e & ->) | [_ ->]].
  { simpl. split; [done|]. left. split; [done | discriminate]. }
  destruct (after_rate_frame "inv_begin_verification" ctx w)
    as (Ha & Hi & Ht & Hs & Hnow & Hnet & Hrq & Hfile & _).
  set (w0 := after_rate "inv_begin_verification" ctx w) in *.
  assert (Hwallet : ∀ r, getAgentWalletAddress w0 = (r, w0) →
                         getAgentWalletAddress w = (r, w)).
  { unfold getAgentWalletAddress. rewrite Hfile.
    destruct (w_wallet_file w) as [| |a]; try (by intros r [= <-]).
    destruct (JS.nonempty a); by intros r [= <-]. }
  clearbody w0.
  pose proof (invBeginVerification_body_run params w0) as H. cbv zeta in H.
  rewrite Hi, Ht, Hs, Hnow, Hnet, Hrq, Ha in H.
  destruct H as (H1 & H2 & H3 & H4 & H5 & H6 & H).
  unfold run_tool.
  destruct (invBeginVerification_body params w0) as [[[d|msg]|e] w1]; simpl in *.
  all: split; [done|].
  all: destruct H as [[Hag Hno] | (row & Hag & Hrow)]; [left | right].
  - exfalso. by apply (Hno d).
  - exists row. split; [done|].
    destruct Hrow as (?&?&?&?&?& tag & rcp & ton & nano & links & ? & ? & ? & ? & ? & ?).
    do 5 (split; [done|]). exists tag, rcp, ton, nano, links. auto 10.
  - split; [done | discriminate].
  - destruct Hrow as (?&?&?&?&?&[]).
  - split; [done | discriminate].
  - exists row. split; [done|]. destruct Hrow as (?&?&?&?&?&?).
    do 5 (split; [done|]). exists e. auto.
Qed.

Lemma invBeginVerification_outcomes_witness :
  let r := invBeginVerification begin_alice ctx_open walletless_world in
  ∃ row msg,
    r.1 = Failure msg ∧
    agents (w_db r.2) = <["alice" := row]> (agents (w_db walletless_world)) ∧
    fresh_challenge row ∧ ag_wallet_address row = Some "s9".
Proof.
  intros r.
  destruct (invBeginVerification_outcomes begin_alice ctx_open walletless_world)
    as (_ & [[Hsame _] | (row & Hag & Hfresh & Hwallet & _)]).
  - apply (f_equal (λ m, ag_status <$> m !! "alice")) in Hsame.
    vm_compute in Hsame. discriminate.
  - exists row, "Agent wallet not found at ~/.teleton/wallet.json".
    split; [vm_compute; reflexivity|]. auto.
Defined.

(** ** Tags *)

Lemma append_nil_r s : s +:+ "" = s.
Proof.
  induction s as [|c r IH]; [reflexivity|].
  change (String c r +:+ "") with (String c (r +:+ "")). by rewrite IH.
Qed.

Lemma append_assoc a b c : (a +:+ b) +:+ c = a +:+ (b +:+ c).
Proof.
  induction a as [|x r IH]; [reflexivity|].
  change (String x (r +:+ b) +:+ c = String x (r +:+ (b +:+ c))).
  change (String x ((r +:+ b) +:+ c) = String x (r +:+ (b +:+ c))). by rewrite IH.
Qed.

Lemma all_chars_app p s1 s2 :
  JS.all_chars p (s1 +:+ s2) = JS.all_chars p s1 && JS.all_chars p s2.
Proof.
  induction s1 as [|c r IH]; [reflexivity|].
  change (String c r +:+ s2) with (String c (r +:+ s2)). simpl.
  by rewrite IH, andb_assoc.
Qed.

Lemma all_chars_filter p s : JS.all_chars p (JS.filter_chars p s) = true.
Proof.
  induction s as [|c r IH]; simpl; [reflexivity|].
  destruct (p c) eqn:Hc; simpl; [by rewrite Hc|]; exact IH.
Qed.

Lemma all_chars_substring p n s :
  JS.all_chars p s = true → JS.all_chars p (String.substring 0 n s) = true.
Proof.
  revert s. induction n as [|n IH]; intros [|c r]; simpl; try done.
  intros [Hc Hr]%andb_true_iff. by rewrite Hc, IH.
Qed.

Lemma length_substring n s : (String.length (String.substring 0 n s) ≤ n)%nat.
Proof.
  revert s. induction n as [|n IH]; intros [|c r]; simpl; try lia.
  specialize (IH r). lia.
Qed.

(** X21. [sanitizeTag] returns nothing or a text of at most [maxLen]
    characters, all of them letters, digits or one of [_ @ . -]; so the
    payer part of an invoice comment and the agent part of a challenge tag
    never contain white space, [#] or [|]. *)
Theorem sanitizeTag_charset value maxLen :
  match sanitizeTag value maxLen with
  | Some s => JS.all_chars tag_char s = true ∧ (String.length s ≤ maxLen)%nat
  | None => JS.truthy value = false ∨ JS.trim (default "" value) = ""
  end.
Proof.
  unfold sanitizeTag. destruct value as [v|]; [|by left]. simpl.
  destruct (JS.nonempty v) eqn:Hv; [|by left].
  destruct (JS.nonempty (JS.trim v)) eqn:Ht.
  - split; [|apply length_substring].
    apply all_chars_substring, all_chars_filter.
  - right. by destruct (JS.trim v).
Qed.

Lemma tag_char_plain c : tag_char c = true → plain_char c = true.
Proof.
  unfold tag_char, plain_char, JS.is_alnum, JS.is_digit, JS.is_upper, JS.is_lower,
    JS.is_ws, JS.between. simpl existsb.
  generalize (JS.code c). intros n H.
  repeat (apply orb_true_iff in H as [H|H]);
    try (apply andb_true_iff in H as [H1 H2]; apply N.leb_le in H1; apply N.leb_le in H2);
    try apply N.eqb_eq in H; try discriminate;
    apply andb_true_iff; split; apply negb_true_iff;
    try (apply orb_false_iff; split; [apply andb_false_iff|]);
    try (apply N.eqb_neq; lia);
    try (right; apply N.leb_gt; lia).
Qed.

Lemma splitHead_no_sep sep s :
  JS.all_chars (λ c, negb (JS.code c =? sep)%N) s = true → JS.splitHead sep s = s.
Proof.
  induction s as [|c r IH]; simpl; [reflexivity|].
  intros [Hc Hr]%andb_true_iff. apply negb_true_iff in Hc. by rewrite Hc, IH.
Qed.

Lemma splitHead_app s1 s2 :
  JS.all_chars (λ c, negb (JS.code c =? 124)%N) s1 = true →
  JS.splitHead 124 (s1 +:+ String "|" s2) = s1.
Proof.
  induction s1 as [|c r IH]; [reflexivity|].
  change (String c r +:+ String "|" s2) with (String c (r +:+ String "|" s2)). simpl.
  intros [Hc Hr]%andb_true_iff. apply negb_true_iff in Hc. by rewrite Hc, IH.
Qed.

Lemma all_chars_splitHead s :
  JS.all_chars (λ c, negb (JS.code c =? 124)%N) (JS.splitHead 124 s) = true.
Proof.
  induction s as [|c r IH]; simpl; [reflexivity|].
  destruct (JS.code c =? 124)%N eqn:Hc; simpl; [reflexivity|]. by rewrite Hc.
Qed.

Lemma all_chars_trimStart p s :
  JS.all_chars p s = true → JS.all_chars p (JS.trimStart s) = true.
Proof.
  induction s as [|c r IH]; simpl; [done|].
  intros H. destruct (JS.is_ws c); [|exact H].
  apply andb_true_iff in H as [_ H]. auto.
Qed.

Lemma all_chars_rev p s : JS.all_chars p s = true → JS.all_chars p (String.rev s) = true.
Proof. intros H. by apply all_chars_rev_app. Qed.

Lemma all_chars_trim p s : JS.all_chars p s = true → JS.all_chars p (JS.trim s) = true.
Proof.
  intros H. unfold JS.trim, JS.trimEnd.
  by apply all_chars_rev, all_chars_trimStart, all_chars_rev, all_chars_trimStart.
Qed.

Lemma length_rev_app s acc :
  String.length (String.rev_app s acc) = (String.length s + String.length acc)%nat.
Proof.
  revert acc. induction s as [|c r IH]; intros acc; simpl; [done|].
  rewrite IH. simpl. lia.
Qed.

Lemma length_rev s : String.length (String.rev s) = String.length s.
Proof. unfold String.rev. rewrite length_rev_app. simpl. lia. Qed.

Lemma rev_app_acc s acc : String.rev_app s acc = String.rev s +:+ acc.
Proof.
  unfold String.rev. revert acc. induction s as [|c r IH]; intros acc; [reflexivity|].
  simpl. rewrite (IH (String c "")), (IH (String c acc)).
  rewrite append_assoc. reflexivity.
Qed.

Lemma rev_append a b : String.rev (a +:+ b) = String.rev b +:+ String.rev a.
Proof.
  induction a as [|c r IH].
  - change ("" +:+ b) with b. unfold String.rev at 3. simpl.
    by rewrite append_nil_r.
  - change (String c r +:+ b) with (String c (r +:+ b)).
    unfold String.rev at 1 3. simpl. rewrite !rev_app_acc, IH.
    by rewrite append_assoc.
Qed.

Lemma length_trimStart s :
  (String.length (JS.trimStart s) ≤ String.length s)%nat ∧
  (JS.trimStart s = s → s = "" ∨ ∃ c r, s = String c r ∧ JS.is_ws c = false).
Proof.
  induction s as [|c r [IH1 IH2]]; simpl; [split; [lia | by left]|].
  destruct (JS.is_ws c) eqn:Hc; simpl.
  - split; [lia|]. intros Heq. apply (f_equal String.length) in Heq. simpl in Heq. lia.
  - split; [lia|]. intros _. right. eauto.
Qed.

Lemma trimStart_head c r : JS.is_ws c = false → JS.trimStart (String c r) = String c r.
Proof. simpl. by intros ->. Qed.

Lemma trim_fixed s :
  JS.trim s = s → JS.trimStart s = s ∧ JS.trimStart (String.rev s) = String.rev s.
Proof.
  unfold JS.trim, JS.trimEnd. intros H.
  pose proof (proj1 (length_trimStart s)) as L1.
  pose proof (proj1 (length_trimStart (String.rev (JS.trimStart s)))) as L2.
  apply (f_equal String.length) in H as HL. rewrite length_rev in HL.
  rewrite length_rev in L2.
  assert (Hs : JS.trimStart s = s).
  { destruct s as [|c r]; [reflexivity|]. simpl in *.
    destruct (JS.is_ws c); [|reflexivity].
    pose proof (proj1 (length_trimStart r)). lia. }
  split; [exact Hs|]. rewrite Hs in H.
  apply (f_equal String.rev) in H. by rewrite rev_involutive in H.
Qed.

Lemma trim_app c r b :
  JS.is_ws c = false → b ≠ "" → JS.trim b = b →
  JS.trim (String c r +:+ b) = String c r +:+ b.
Proof.
  intros Hc Hb Htrim. destruct (trim_fixed b Htrim) as [_ Hrev].
  destruct (proj2 (length_trimStart (String.rev b)) Hrev) as [He | (c' & r' & Hcr & Hc')].
  { apply (f_equal String.length) in He. rewrite length_rev in He. by destruct b. }
  unfold JS.trim, JS.trimEnd.
  change (String c r +:+ b) with (String c (r +:+ b)).
  rewrite (trimStart_head c _ Hc).
  change (String c (r +:+ b)) with (String c r +:+ b).
  rewrite rev_append, Hcr.
  change (String c' r' +:+ String.rev (String c r))
    with (String c' (r' +:+ String.rev (String c r))).
  rewrite (trimStart_head c' _ Hc').
  change (String c' (r' +:+ String.rev (String c r)))
    with (String c' r' +:+ String.rev (String c r)).
  by rewrite <- Hcr, <- rev_append, rev_involutive.
Qed.

(** The tag of a comment never contains the separator. *)
Lemma commentTag_no_bar comment t :
  commentTag comment = Some t →
  JS.all_chars (λ c, negb (JS.code c =? 124)%N) t = true ∧ t ≠ "".
Proof.
  unfold commentTag. destruct comment as [c|]; [|discriminate].
  destruct (JS.nonempty c); [|discriminate]. cbv zeta.
  destruct (JS.nonempty (JS.trim (JS.splitHead 124 c))) eqn:Hn; [|discriminate].
  intros [= <-]. split; [apply all_chars_trim, all_chars_splitHead|].
  by apply nonempty_iff.
Qed.

Lemma commentTag_head tag rest :
  tag ≠ "" → JS.trim tag = tag →
  JS.all_chars (λ c, negb (JS.code c =? 124)%N) tag = true →
  commentTag (Some tag) = Some tag ∧
  commentTag (Some (tag +:+ String "|" rest)) = Some tag.
Proof.
  intros Hne Htrim Hbar. unfold commentTag.
  rewrite splitHead_app, splitHead_no_sep by exact Hbar. rewrite Htrim.
  apply nonempty_iff in Hne. rewrite Hne.
  destruct tag as [|c r]; [discriminate|]. done.
Qed.

(** X22. The comment [inv_create] asks the payer to send carries the tag
    [inv_check] looks for, whether or not a payer is named, provided the
    invoice id has no [|] in it: [commentTag] of [buildInvoiceComment] is
    INV#<id>.  An id that does contain [|] is accepted by [inv_create] all
    the same, and then no comment at all has the tag INV#<id>, since the tag
    of a comment never contains that character. *)
Theorem invoice_comment_carries_its_tag id payer :
  id ≠ "" → JS.trim id = id →
  if JS.all_chars (λ c, negb (JS.code c =? 124)%N) id
  then commentTag (Some (buildInvoiceComment id payer)) = Some ("INV#" +:+ id)
  else ∀ comment, commentTag comment ≠ Some ("INV#" +:+ id).
Proof.
  intros Hne Htrim.
  destruct (JS.all_chars (λ c, negb (JS.code c =? 124)%N) id) eqn:Hbar.
  - assert (Htag : JS.trim ("INV#" +:+ id) = "INV#" +:+ id).
    { by apply (trim_app "I" "NV#" id). }
    assert (Hb : JS.all_chars (λ c, negb (JS.code c =? 124)%N) ("INV#" +:+ id) = true).
    { by rewrite all_chars_app, Hbar. }
    assert (Hn : "INV#" +:+ id ≠ "") by discriminate.
    unfold buildInvoiceComment. cbv zeta.
    destruct (sanitizeTag payer 32) as [p|]; [destruct (JS.nonempty p)|].
    + change ("|payer:" +:+ p) with (String "|" ("payer:" +:+ p)).
      by apply commentTag_head.
    + by apply (commentTag_head _ "").
    + by apply (commentTag_head _ "").
  - intros comment Hc. apply commentTag_no_bar in Hc as [Hc _].
    rewrite all_chars_app, Hbar, andb_false_r in Hc. discriminate.
Qed.

Lemma invoice_comment_carries_its_tag_witness :
  commentTag (Some (buildInvoiceComment "a1" (Some "bob the payer"))) = Some "INV#a1" ∧
  ∀ comment, commentTag comment ≠ Some "INV#a|1".
Proof.
  split.
  - apply (invoice_comment_carries_its_tag "a1" (Some "bob the payer"));
      [discriminate | reflexivity].
  - apply (invoice_comment_carries_its_tag "a|1" None); [discriminate | reflexivity].
Defined.

(** X23. The challenge tag is read back whole: for a code made of plain
    characters (the hexadecimal digits [randomBytes] gives are), the tag of
    the comment [buildVerificationTag] builds is that comment itself,
    whatever the agent id. *)
Theorem verification_tag_is_its_own_tag agentId hex :
  JS.all_chars plain_char hex = true →
  commentTag (Some (buildVerificationTag agentId hex))
  = Some (buildVerificationTag agentId hex).
Proof.
  intros Hhex. unfold buildVerificationTag. cbv zeta.
  set (safe := match sanitizeTag (Some agentId) 24 with
               | Some s => if JS.nonempty s then s else "agent"
               | None => "agent"
               end).
  assert (Hsafe : JS.all_chars plain_char safe = true).
  { subst safe. pose proof (sanitizeTag_charset (Some agentId) 24) as H.
    destruct (sanitizeTag (Some agentId) 24) as [s|]; [|reflexivity].
    destruct (JS.nonempty s); [|reflexivity].
    eapply all_chars_impl; [apply tag_char_plain | apply H]. }
  clearbody safe.
  assert (Hall : JS.all_chars plain_char ("REG#" +:+ safe +:+ "#" +:+ hex) = true).
  { rewrite (all_chars_app _ "REG#"), (all_chars_app _ safe), (all_chars_app _ "#").
    by rewrite Hsafe, Hhex. }
  apply commentTag_head with (rest := "").
  - discriminate.
  - apply trim_id. eapply all_chars_impl; [|exact Hall].
    intros c Hc. unfold plain_char in Hc. by apply andb_true_iff in Hc as [? _].
  - eapply all_chars_impl; [|exact Hall].
    intros c Hc. unfold plain_char in Hc. by apply andb_true_iff in Hc as [_ ?].
Qed.

Lemma verification_tag_is_its_own_tag_witness :
  commentTag (Some (buildVerificationTag "alice smith" "0badcafe"))
  = Some "REG#alice_smith#0badcafe".
Proof.
  apply (verification_tag_is_its_own_tag "alice smith" "0badcafe"). reflexivity.
Defined.

(** ** What the cache holds *)

Section CacheInvariant.

Context (Address : option (string -> option string)) (API_KEY : option string).

Lemma sameAddress_normal a b :
  sameAddress Address a b = true →
  normalizeAddress Address a = normalizeAddress Address b ∧
  is_Some (normalizeAddress Address a).
Proof.
  unfold sameAddress.
  destruct (normalizeAddress Address a) as [na|], (normalizeAddress Address b) as [nb|];
    try discriminate.
  intros H. apply andb_true_iff in H as [_ H]. apply String.eqb_eq in H. subst. eauto.
Qed.

Lemma ingestAction_ingested wallet eventId ltVal tsMs nowIso i action rows :
  0 ≤ i → (∀ t, tsMs = Some t → ∃ n, t = n * 1000) →
  Forall (ingested Address) rows →
  Forall (ingested Address)
         (ingestAction Address wallet eventId ltVal tsMs nowIso i action rows).
Proof.
  intros Hi Hts Hrows. unfold ingestAction.
  destruct (negb (String.eqb (a_type action) "TonTransfer")); [exact Hrows|].
  destruct (a_TonTransfer action) as [t|]; [|exact Hrows].
  destruct (sameAddress Address (addr_of (t_recipient t)) wallet) eqn:Hsame;
    [|exact Hrows]. simpl.
  destruct wallet as [w|]; [|exact Hrows].
  unfold stmtTransferInsert. destruct (existsb _ rows); [exact Hrows|].
  apply Forall_app. split; [exact Hrows|]. apply Forall_singleton.
  destruct (sameAddress_normal _ _ Hsame) as [Heq Hsome].
  unfold ingested. simpl. repeat split; eauto.
Qed.

Lemma ingestActions_ingested wallet eventId ltVal tsMs nowIso actions : ∀ i rows,
  0 ≤ i → (∀ t, tsMs = Some t → ∃ n, t = n * 1000) →
  Forall (ingested Address) rows →
  Forall (ingested Address)
         (ingestActions Address wallet eventId ltVal tsMs nowIso i actions rows).
Proof.
  induction actions as [|a actions IH]; intros i rows Hi Hts Hrows; simpl; [exact Hrows|].
  apply IH; [lia | exact Hts |]. by apply ingestAction_ingested.
Qed.

Lemma eventTimeMs_scale v t : eventTimeMs v = Some t → ∃ n, t = n * 1000.
Proof.
  unfold eventTimeMs. destruct v; [discriminate| |];
    destruct (JS.Number _) as [n|]; try discriminate; intros [= <-]; eauto.
Qed.

Lemma ingestLoop_ingested wallet nowIso events : ∀ rows a,
  Forall (ingested Address) rows →
  Forall (ingested Address) (ingestLoop Address wallet nowIso events rows a).1.
Proof.
  induction events as [|ev events IH]; intros rows a Hrows; simpl; [exact Hrows|].
  apply IH. apply ingestActions_ingested; [lia | | exact Hrows].
  unfold ev_tsMs. apply eventTimeMs_scale.
Qed.

Local Abbreviation J := (cache_ingested Address).

Lemma J_modify (f : DB -> DB) :
  (∀ db, transfers (f db) = transfers db) → hoare J (modifyDb f) (λ _, True).
Proof.
  intros Hf. apply hoare_modifyDb. intros db. unfold cache_ingested. by rewrite Hf.
Qed.

Lemma J_ingestEvents wallet events :
  hoare J (ingestEvents Address wallet events) (λ _, True).
Proof.
  intros w HJ. split; [|auto]. unfold cache_ingested in *.
  rewrite ingestEvents_transfers.
  destruct (ingestEvents Address wallet events w).1; [|exact HJ].
  by apply ingestLoop_ingested.
Qed.

Lemma J_updateWalletSync wallet stats :
  hoare J (updateWalletSync wallet stats) (λ _, True).
Proof.
  unfold updateWalletSync. hstep. cbv zeta. hstep.
  apply J_modify. intros db'. by destruct wallet.
Qed.

Lemma J_retry rq : hoare J (tonapiFetchWithRetry API_KEY rq) (λ _, True).
Proof.
  intros w HJ. split; [|auto].
  destruct (retry_requests_only API_KEY rq w) as (k & _ & _ & _ & Hdb & _).
  unfold cache_ingested. by rewrite Hdb.
Qed.

Hint Resolve J_ingestEvents J_updateWalletSync J_retry : hoare.

Lemma J_syncNewLoop wallet startMs endMs pages afterLt anyEvents stats :
  hoare J (syncNewLoop Address API_KEY wallet startMs endMs pages afterLt anyEvents stats)
        (λ _, True).
Proof.
  revert afterLt anyEvents stats.
  induction pages as [|pages IH]; intros afterLt anyEvents stats; simpl.
  - apply hoare_ret. exact Logic.I.
  - hstep. cbv zeta. hstep; [apply hoare_ret; exact Logic.I|].
    hstep. cbv zeta. hstep; [apply hoare_ret; exact Logic.I|].
    hstep; [apply hoare_ret; exact Logic.I|]. apply IH.
Qed.

Lemma J_syncOlderLoop wallet startMs endMs pages beforeLt anyEvents stats :
  hoare J (syncOlderLoop Address API_KEY wallet startMs endMs pages beforeLt anyEvents stats)
        (λ _, True).
Proof.
  revert beforeLt anyEvents stats.
  induction pages as [|pages IH]; intros beforeLt anyEvents stats; simpl.
  - apply hoare_ret. exact Logic.I.
  - hstep. cbv zeta. hstep; [apply hoare_ret; exact Logic.I|].
    hstep. cbv zeta.
    repeat (hstep; [apply hoare_ret; exact Logic.I|]). apply IH.
Qed.

Hint Resolve J_syncNewLoop J_syncOlderLoop : hoare.

Lemma J_syncNewEvents wallet startMs endMs :
  hoare J (syncNewEvents Address API_KEY wallet startMs endMs) (λ _, True).
Proof.
  unfold syncNewEvents. hstep. cbv zeta. hstep. hstep.
  eapply (hoare_bind _ _ _ (λ _, True)).
  - hstep; auto with hoare.
  - intros _ _. apply hoare_ret. exact Logic.I.
Qed.

Lemma J_syncOlderEvents wallet startMs endMs :
  hoare J (syncOlderEvents Address API_KEY wallet startMs endMs) (λ _, True).
Proof.
  unfold syncOlderEvents. hstep. cbv zeta. hstep; [apply hoare_ret; exact Logic.I|].
  hstep. hstep.
  eapply (hoare_bind _ _ _ (λ _, True)).
  - hstep; auto with hoare.
  - intros _ _. apply hoare_ret. exact Logic.I.
Qed.

Hint Resolve J_syncNewEvents J_syncOlderEvents : hoare.

Lemma J_cached wallet c : hoare J (cached Address wallet c) (λ _, True).
Proof. unfold cached. hstep. apply hoare_ret. exact Logic.I. Qed.

Hint Resolve J_cached : hoare.

Lemma J_find wallet c :
  hoare J (findTransferWithSync Address API_KEY wallet c) (λ _, True).
Proof.
  unfold findTransferWithSync.
  hstep. hstep; [apply hoare_ret; exact Logic.I|].
  hstep. hstep. cbv zeta. hstep; [apply hoare_ret; exact Logic.I|].
  hstep. hstep. hstep; [apply hoare_ret; exact Logic.I|].
  hstep. cbv zeta.
  eapply (hoare_bind _ _ _ (λ _, True)).
  { hstep; [|apply hoare_ret; exact Logic.I]. hstep. apply hoare_ret. exact Logic.I. }
  intros _ _. hstep. hstep; apply hoare_ret; exact Logic.I.
Qed.

Lemma J_rate sender toolName cfg :
  hoare J (checkRateLimit sender toolName cfg) (λ _, True).
Proof.
  intros w HJ. split; [|auto].
  destruct (checkRateLimit_frame sender toolName cfg w) as (_ & _ & Ht & _).
  unfold cache_ingested. by rewrite Ht.
Qed.

Lemma steps_keep_cache w w' :
  steps Address API_KEY w w' → J (w_db w) → J (w_db w').
Proof.
  apply (steps_keep_inv Address API_KEY J); auto using J_find, J_rate.
Qed.

End CacheInvariant.

Lemma cache_rows_are_as_ingested_aux Address API_KEY :
  (∀ wallet events w,
     cache_ingested Address (w_db w) →
     cache_ingested Address (w_db (ingestEvents Address wallet events w).2)) ∧
  (∀ w w', steps Address API_KEY w w' →
     cache_ingested Address (w_db w) → cache_ingested Address (w_db w')).
Proof.
  split.
  - intros wallet events w H. by apply (J_ingestEvents Address wallet events w).
  - apply steps_keep_cache.
Qed.





(** ** The matcher over raw events *)

Section ExtractSound.

Context (Address : option (string -> option string)) (params : ExtractParams).

Lemma extractAction_sound ev action :
  match extractAction Address params ev action with
  | Some (Matched m) => sound_match Address params [ev] m
  | Some (Mismatched m) => sound_mismatch params m
  | _ => True
  end.
Proof.
  unfold extractAction.
  destruct (negb (String.eqb (a_type action) "TonTransfer")); [exact Logic.I|].
  destruct (a_TonTransfer action) as [t|]; [|exact Logic.I]. cbv zeta.
  destruct (negb (sameAddress Address _ _)); [exact Logic.I|].
  destruct (JS.nonempty (default "" (t_comment t))) eqn:Hc; [|exact Logic.I].
  apply nonempty_iff in Hc. cbn [negb].
  destruct (bool_decide_reflect (commentTag (Some (default "" (t_comment t)))
                                 = xp_tag params)) as [Htag|]; [|exact Logic.I].
  cbn [negb].
  destruct (eventWithinWindow _ _ _) eqn:Hwin; cbn [negb].
  2: { unfold sound_mismatch. simpl. auto. }
  destruct (JS.BigInt _) as [a|]; [|exact Logic.I].
  destruct (Z.ltb_spec a (xp_amountNanoMin params)).
  { unfold sound_mismatch. simpl. auto. }
  destruct (JS.truthy (xp_expectedSender params) && xp_strictSender params
            && negb (sameAddress Address (addr_of (t_sender t)) (xp_expectedSender params)))
    eqn:Hs.
  { unfold sound_mismatch. simpl. auto 6. }
  unfold sound_match. simpl. split; [done|]. split; [done|].
  split; [exists a; split; [apply StringToBigInt_ofZ | lia]|].
  split.
  - intros Hst Hex. rewrite Hst, Hex in Hs. simpl in Hs. by apply negb_false_iff in Hs.
  - exists ev. split; [by left|]. auto.
Qed.

Lemma sound_match_mono events events' m :
  events ⊆ events' → sound_match Address params events m →
  sound_match Address params events' m.
Proof.
  intros Hsub (?&?&?&?& ev & Hin & ?). unfold sound_match.
  repeat split; try done. exists ev. split; [by apply Hsub | done].
Qed.

Lemma extractActions_sound events ev actions : ∀ acc res,
  ev ∈ events →
  Forall (sound_match Address params events) acc.1 →
  Forall (sound_mismatch params) acc.2 →
  extractActions Address params ev actions acc = Some res →
  Forall (sound_match Address params events) res.1 ∧ Forall (sound_mismatch params) res.2.
Proof.
  induction actions as [|a actions IH]; intros acc res Hev H1 H2; simpl.
  { intros [= <-]. auto. }
  pose proof (extractAction_sound ev a) as Ha.
  destruct (extractAction Address params ev a) as [[|m|m]|]; [| | |discriminate].
  - by apply IH.
  - apply IH; simpl; [done | | done].
    apply Forall_app. split; [done|]. apply Forall_singleton.
    eapply sound_match_mono; [|exact Ha]. intros x Hx.
    apply list_elem_of_singleton in Hx. by subst.
  - apply IH; simpl; [done | done |].
    apply Forall_app. split; [done|]. by apply Forall_singleton.
Qed.

Lemma extractEvents_sound events : ∀ all acc res,
  events ⊆ all →
  Forall (sound_match Address params all) acc.1 →
  Forall (sound_mismatch params) acc.2 →
  extractEvents Address params events acc = Some res →
  Forall (sound_match Address params all) res.1 ∧ Forall (sound_mismatch params) res.2.
Proof.
  induction events as [|ev events IH]; intros all acc res Hsub H1 H2; simpl.
  { intros [= <-]. auto. }
  destruct (extractActions Address params ev (default [] (ev_actions ev)) acc)
    as [acc'|] eqn:Hacc; [|discriminate].
  destruct (extractActions_sound all ev _ _ _ ltac:(apply Hsub; by left) H1 H2 Hacc)
    as [H1' H2'].
  apply IH; [|done|done]. intros x Hx. apply Hsub. by right.
Qed.

End ExtractSound.

(** X26. [extractTonTransfers] is sound.  Every match it returns comes
    from an event of the list whose time lies inside the window, carries a
    non-empty comment with the requested tag, an amount that reads back as a
    number of at least [amountNanoMin], and, in strict mode with an expected
    sender, a sender that is the expected one; every mismatch it returns
    also carries the requested tag, with one of the three reasons
    "outside_time_window", "amount_too_low" and "sender_mismatch". *)
Theorem extractTonTransfers_sound Address events params matches mismatches :
  extractTonTransfers Address events params = Some (matches, mismatches) →
  Forall (sound_match Address params events) matches ∧
  Forall (sound_mismatch params) mismatches.
Proof.
  unfold extractTonTransfers. intros H.
  by apply (extractEvents_sound Address params events events ([], []) (matches, mismatches)).
Qed.

Lemma extractTonTransfers_sound_witness :
  Forall (sound_match None extract_a1 [paying_event; untimed_event])
    [mkMatchRec (Some "ev5") (JS.Num 4) (Some "S1") "1500000000" "INV#a1|payer:bob"] ∧
  Forall (sound_mismatch extract_a1)
    [mkMismatch (Some "ev9") "outside_time_window" (Some "S1") "1500000000" "INV#a1"].
Proof.
  apply (extractTonTransfers_sound None [paying_event; untimed_event] extract_a1).
  vm_compute. reflexivity.
Defined.

(** ** How much of the network a call may use *)

Lemma sends_ret {A} wallet (a : A) : sends_at_most wallet 0 (mret a).
Proof. intros w. exists []. split; [done|]. split; [done | constructor]. Qed.

Lemma sends_weaken {A} wallet n n' (m : M A) :
  (n ≤ n')%nat → sends_at_most wallet n m → sends_at_most wallet n' m.
Proof.
  intros Hle Hm w. destruct (Hm w) as (l & Hl & Hn & Hw).
  exists l. split; [done|]. split; [lia | done].
Qed.

Lemma sends_bind {A B} wallet n1 n2 (m : M A) (f : A -> M B) :
  sends_at_most wallet n1 m → (∀ a, sends_at_most wallet n2 (f a)) →
  sends_at_most wallet (n1 + n2) (m ≫= f).
Proof.
  intros Hm Hf w. unfold mbind, M_bind.
  destruct (Hm w) as (l1 & Hl1 & Hn1 & Hw1).
  destruct (m w) as [[a|e] w1]; simpl in *.
  - destruct (Hf a w1) as (l2 & Hl2 & Hn2 & Hw2).
    exists (l2 ++ l1). rewrite Hl2, Hl1, app_assoc. split; [done|].
    split; [rewrite length_app; lia | by apply Forall_app].
  - exists l1. split; [done|]. split; [lia | done].
Qed.

Lemma sends_silent {A} wallet (m : M A) :
  (∀ w, w_requests (m w).2 = w_requests w) → sends_at_most wallet 0 m.
Proof.
  intros Hm w. exists []. rewrite Hm. split; [done|]. split; [done | constructor].
Qed.

Lemma sends_retry API_KEY rq :
  sends_at_most (rq_wallet rq) 3 (tonapiFetchWithRetry API_KEY rq).
Proof.
  intros w. destruct (retry_requests_only API_KEY rq w) as (k & Hk & Hrq & _).
  exists (replicate k rq). split; [exact Hrq|]. rewrite length_replicate.
  split; [lia|]. apply Forall_forall. intros x Hx.
  apply elem_of_replicate in Hx as [-> _]. done.
Qed.

Lemma sends_throw {A} wallet (e : Err) : sends_at_most wallet 0 (throw e : M A).
Proof. by apply sends_silent. Qed.

Lemma sends_pure {A} wallet (m : M A) : pure_world m → sends_at_most wallet 0 m.
Proof. intros Hm. apply sends_silent. intros w. by rewrite Hm. Qed.

Lemma sends_randomHex wallet n : sends_at_most wallet 0 (randomHex n).
Proof. apply sends_silent. intros w. unfold randomHex. by destruct (w_rand w). Qed.

Lemma sends_BigIntOrThrow wallet s : sends_at_most wallet 0 (BigIntOrThrow s).
Proof.
  apply sends_silent. intros w. unfold BigIntOrThrow. by destruct (JS.StringToBigInt s).
Qed.

Lemma sends_matchTime wallet row : sends_at_most wallet 0 (matchTime row).
Proof.
  apply sends_pure. unfold matchTime.
  destruct (tr_timestamp row) as [t|]; [destruct (JS.truthyZ t)|];
    auto using pure_isoOf, pure_nowIso.
Qed.

Lemma sends_checkRateLimit wallet sender toolName cfg :
  sends_at_most wallet 0 (checkRateLimit sender toolName cfg).
Proof.
  apply sends_silent. intros w.
  by destruct (checkRateLimit_frame sender toolName cfg w) as (_&_&_&_&_&_&?&_).
Qed.

Lemma sends_ingestEvents Address wallet w0 events :
  sends_at_most wallet 0 (ingestEvents Address w0 events).
Proof.
  apply sends_silent. intros w.
  unfold ingestEvents, nowIso, isoOf, mbind, M_bind, Date_now, getDb. simpl.
  destruct (JS.toISOString (w_now w)); simpl; [|reflexivity].
  by destruct (ingestLoop Address w0 _ events _ _).
Qed.

Lemma sends_updateWalletSync wallet w0 stats :
  sends_at_most wallet 0 (updateWalletSync w0 stats).
Proof. by apply sends_silent. Qed.

Create HintDb sends.
#[local] Hint Resolve sends_ret sends_throw sends_randomHex sends_BigIntOrThrow
  sends_matchTime sends_checkRateLimit sends_ingestEvents sends_updateWalletSync : sends.
#[local] Hint Extern 1 (sends_at_most _ 0 nowIso) =>
  (apply sends_pure, pure_nowIso) : sends.
#[local] Hint Extern 1 (sends_at_most _ 0 (isoOf _)) =>
  (apply sends_pure, pure_isoOf) : sends.
#[local] Hint Extern 1 (sends_at_most _ 0 (liftNano _)) =>
  (apply sends_pure, pure_liftNano) : sends.
#[local] Hint Extern 1 (sends_at_most _ 0 getAgentWalletAddress) =>
  (apply sends_pure, pure_getAgentWalletAddress) : sends.
#[local] Hint Extern 1 (sends_at_most _ 0 getDb) =>
  (by apply sends_silent) : sends.
#[local] Hint Extern 1 (sends_at_most _ 0 Date_now) =>
  (by apply sends_silent) : sends.
#[local] Hint Extern 1 (sends_at_most _ 0 (modifyDb _)) =>
  (by apply sends_silent) : sends.

(** Proves that a computation made of silent steps sends nothing. *)
Ltac sends0 :=
  repeat first
    [ solve [auto with sends]
    | apply (sends_bind _ 0 0); [|intros ?]
    | match goal with |- sends_at_most _ _ (if ?b then _ else _) => destruct b end
    | match goal with |- sends_at_most _ _ (match ?x with _ => _ end) => destruct x end
    | progress cbv zeta ].

Section NetworkUse.

Context (Address : option (string -> option string)) (API_KEY : option string).

Lemma sends_syncNewLoop wallet startMs endMs pages : ∀ afterLt anyEvents stats,
  sends_at_most wallet (3 * pages)
    (syncNewLoop Address API_KEY wallet startMs endMs pages afterLt anyEvents stats).
Proof.
  induction pages as [|pages IH]; intros afterLt anyEvents stats.
  { simpl. apply sends_ret. }
  replace (3 * S pages)%nat with (3 + 3 * pages)%nat by lia.
  simpl syncNewLoop. cbv zeta.
  apply sends_bind; [apply (sends_retry API_KEY (mkRequest wallet _ _ _ _ _))|].
  intros data.
  destruct (lenZ (default [] data) =? 0);
    [eapply sends_weaken; [|apply sends_ret]; lia|].
  apply (sends_bind _ 0); [apply sends_ingestEvents|]. intros pageStats.
  destruct (negb _); [eapply sends_weaken; [|apply sends_ret]; lia|].
  destruct (_ <? _); [eapply sends_weaken; [|apply sends_ret]; lia|].
  apply IH.
Qed.

Lemma sends_syncOlderLoop wallet startMs endMs pages : ∀ beforeLt anyEvents stats,
  sends_at_most wallet (3 * pages)
    (syncOlderLoop Address API_KEY wallet startMs endMs pages beforeLt anyEvents stats).
Proof.
  induction pages as [|pages IH]; intros beforeLt anyEvents stats.
  { simpl. apply sends_ret. }
  replace (3 * S pages)%nat with (3 + 3 * pages)%nat by lia.
  simpl syncOlderLoop. cbv zeta.
  apply sends_bind; [apply (sends_retry API_KEY (mkRequest wallet _ _ _ _ _))|].
  intros data.
  destruct (lenZ (default [] data) =? 0);
    [eapply sends_weaken; [|apply sends_ret]; lia|].
  apply (sends_bind _ 0); [apply sends_ingestEvents|]. intros pageStats.
  match goal with |- context [if ?b then _ else _] =>
    destruct b; [eapply sends_weaken; [|apply sends_ret]; lia|] end.
  destruct (_ <? _); [eapply sends_weaken; [|apply sends_ret]; lia|].
  destruct (negb _); [eapply sends_weaken; [|apply sends_ret]; lia|].
  apply IH.
Qed.

Lemma sends_syncNewEvents wallet startMs endMs :
  sends_at_most wallet 9 (syncNewEvents Address API_KEY wallet startMs endMs).
Proof.
  unfold syncNewEvents. apply (sends_bind _ 0 9); [auto with sends|]. intros db.
  cbv zeta. apply (sends_bind _ 9 0); [apply (sends_syncNewLoop _ _ _ 3)|].
  intros [anyEvents stats]. sends0.
Qed.

Lemma sends_syncOlderEvents wallet startMs endMs :
  sends_at_most wallet 18 (syncOlderEvents Address API_KEY wallet startMs endMs).
Proof.
  unfold syncOlderEvents. apply (sends_bind _ 0 18); [auto with sends|]. intros db.
  cbv zeta. destruct (negb _); [eapply sends_weaken; [|apply sends_ret]; lia|].
  apply (sends_bind _ 18 0); [apply (sends_syncOlderLoop _ _ _ 6)|].
  intros [anyEvents stats]. sends0.
Qed.

Lemma sends_cached wallet w0 c : sends_at_most wallet 0 (cached Address w0 c).
Proof. unfold cached. sends0. Qed.

Lemma sends_findTransferWithSync wallet c :
  sends_at_most wallet 27 (findTransferWithSync Address API_KEY wallet c).
Proof.
  unfold findTransferWithSync.
  apply (sends_bind _ 0 27); [apply sends_cached|]. intros hit.
  destruct hit; [eapply sends_weaken; [|apply sends_ret]; lia|].
  apply (sends_bind _ 0 27); [auto with sends|]. intros db.
  apply (sends_bind _ 0 27); [auto with sends|]. intros now. cbv zeta.
  match goal with |- context [if ?b then _ else _] =>
    destruct b; [eapply sends_weaken; [|apply sends_ret]; lia|] end.
  apply (sends_bind _ 9 18); [apply sends_syncNewEvents|]. intros _.
  apply (sends_bind _ 0 18); [apply sends_cached|]. intros hitNew.
  destruct hitNew; [eapply sends_weaken; [|apply sends_ret]; lia|].
  apply (sends_bind _ 0 18); [auto with sends|]. intros db'. cbv zeta.
  apply (sends_bind _ 18 0).
  { match goal with |- context [if ?b then _ else _] => destruct b end.
    - apply (sends_bind _ 18 0); [apply sends_syncOlderEvents | intros _; apply sends_ret].
    - eapply sends_weaken; [|apply sends_ret]; lia. }
  intros _. apply (sends_bind _ 0 0); [apply sends_cached|]. intros hitOld.
  destruct hitOld; apply sends_ret.
Qed.

Lemma one_wallet {A} wallet n (m : M A) :
  sends_at_most wallet n m → sends_for_one_wallet n m.
Proof. intros Hm w. exists wallet. apply Hm. Qed.

Lemma one_wallet_bind {A B} n (m : M A) (f : A -> M B) :
  sends_at_most None 0 m → (∀ a, sends_for_one_wallet n (f a)) →
  sends_for_one_wallet n (m ≫= f).
Proof.
  intros Hm Hf w. unfold mbind, M_bind.
  destruct (Hm w) as (l1 & Hl1 & Hn1 & _).
  destruct l1; [|simpl in Hn1; lia]. simpl in Hl1.
  destruct (m w) as [[a|e] w1]; simpl in *.
  - destruct (Hf a w1) as (wallet & l & Hl & Hn & Hw). exists wallet, l.
    by rewrite Hl, Hl1.
  - exists None, []. rewrite Hl1. split; [done|]. split; [simpl; lia | constructor].
Qed.

Lemma one_wallet_silent {A} n (m : M A) :
  sends_at_most None 0 m → sends_for_one_wallet n m.
Proof. intros Hm. apply (one_wallet None). eapply sends_weaken; [|exact Hm]. lia. Qed.

Lemma one_wallet_run_tool n body :
  sends_for_one_wallet n body → sends_for_one_wallet n (run_tool body).
Proof.
  intros Hb w. destruct (Hb w) as (wallet & l & H). exists wallet, l.
  unfold run_tool. by destruct (body w) as [[r|e] w'].
Qed.

Lemma one_wallet_guarded n toolName ctx body :
  sends_for_one_wallet n body → sends_for_one_wallet n (guarded toolName ctx body).
Proof.
  intros Hb. unfold guarded.
  destruct (assertAccess ctx toolName); [|apply one_wallet_silent; sends0].
  apply one_wallet_bind; [auto with sends|].
  intros [k|ms]; [exact Hb | apply one_wallet_silent; sends0].
Qed.

Lemma one_wallet_invCheck_body invoice_id :
  sends_for_one_wallet 27 (invCheck_body Address API_KEY invoice_id).
Proof.
  unfold invCheck_body. cbv zeta.
  destruct (negb _); [apply one_wallet_silent; sends0|].
  apply one_wallet_bind; [auto with sends|]. intros db.
  destruct (invoices db !! trimOr invoice_id) as [invoice|];
    [|apply one_wallet_silent; sends0].
  destruct (String.eqb _ _); [apply one_wallet_silent; sends0|].
  apply one_wallet_bind; [auto with sends|]. intros now.
  destruct (pastExpiry _ _); [apply one_wallet_silent; sends0|].
  destruct (_ && _); [apply one_wallet_silent; sends0|].
  apply one_wallet_bind; [auto with sends|]. intros amountNanoMin.
  apply one_wallet_bind; [auto with sends|]. intros now'.
  apply (one_wallet (Some (inv_recipient_wallet invoice))).
  apply (sends_bind _ 27 0); [apply sends_findTransferWithSync|].
  intros result. sends0.
Qed.

Lemma one_wallet_invConfirmVerification_body agent_id :
  sends_for_one_wallet 27 (invConfirmVerification_body Address API_KEY agent_id).
Proof.
  unfold invConfirmVerification_body. cbv zeta.
  destruct (negb _); [apply one_wallet_silent; sends0|].
  apply one_wallet_bind; [auto with sends|]. intros db.
  destruct (agents db !! trimOr agent_id) as [agent|];
    [|apply one_wallet_silent; sends0].
  destruct (String.eqb _ _); [apply one_wallet_silent; sends0|].
  apply one_wallet_bind; [auto with sends|]. intros now.
  destruct (pastExpiry _ _); [apply one_wallet_silent; sends0|].
  apply one_wallet_bind; [auto with sends|]. intros file.
  apply one_wallet_bind; [auto with sends|]. intros amountNanoMin.
  apply one_wallet_bind; [auto with sends|]. intros now'.
  apply (one_wallet (normalizeAddress Address (Some file))).
  apply (sends_bind _ 27 0); [apply sends_findTransferWithSync|].
  intros result. sends0.
Qed.

Lemma silent_invBeginVerification_body params :
  sends_at_most None 0 (invBeginVerification_body params).
Proof. unfold invBeginVerification_body. sends0. Qed.

Lemma silent_invCreate_body params : sends_at_most None 0 (invCreate_body Address params).
Proof. unfold invCreate_body, stmtInvoiceInsert. sends0. Qed.

Lemma silent_invReceipt_body invoice_id : sends_at_most None 0 (invReceipt_body invoice_id).
Proof. unfold invReceipt_body. sends0. Qed.

End NetworkUse.

(** X27. The network budget of the plugin.  [syncNewEvents] sends at most
    9 requests (3 pages, each tried up to 3 times), [syncOlderEvents] at
    most 18 (6 pages), [findTransferWithSync] at most 27, every one of them
    for the wallet it was called for; and one tool call sends at most 27
    requests, all for one wallet, and none at all unless it is [inv_check] or
    [inv_confirm_verification]. *)
Theorem network_budget Address API_KEY :
  (∀ wallet startMs endMs,
     sends_at_most wallet 9 (syncNewEvents Address API_KEY wallet startMs endMs) ∧
     sends_at_most wallet 18 (syncOlderEvents Address API_KEY wallet startMs endMs)) ∧
  (∀ wallet c, sends_at_most wallet 27 (findTransferWithSync Address API_KEY wallet c)) ∧
  (∀ c, sends_for_one_wallet
          (match c with
           | CallCheck _ _ | CallConfirmVerification _ _ => 27
           | _ => 0
           end)
          (execute Address API_KEY c)).
Proof.
  split; [|split].
  - intros wallet startMs endMs.
    split; [apply sends_syncNewEvents | apply sends_syncOlderEvents].
  - apply sends_findTransferWithSync.
  - intros c. destruct c; simpl; unfold invRegisterAgent, invBeginVerification,
      invConfirmVerification, invCreate, invCheck, invReceipt;
      apply one_wallet_run_tool, one_wallet_guarded.
    + apply one_wallet_silent, silent_invBeginVerification_body.
    + apply one_wallet_silent, silent_invBeginVerification_body.
    + apply one_wallet_invConfirmVerification_body.
    + apply one_wallet_silent, silent_invCreate_body.
    + apply one_wallet_invCheck_body.
    + apply one_wallet_silent, silent_invReceipt_body.
Qed.

(** ** Rate-limit configuration *)

(** X28. How the rate limit of a tool is resolved.  The window is never
    shorter than a second and the maximum never below one call, whatever is
    configured.  A per-tool entry of [config.invoices.rate_limits] other
    than 0 wins over every other source, and a window in
    [config.invoices.rate_limit_window_ms] other than 0 likewise, each
    clamped from below; a configured 0 counts as not configured; and with
    nothing configured the window is 60 seconds and the maximum the tool's
    default, 60 for a tool without one. *)
Theorem rate_limit_config_resolution ctx toolName :
  let cfg := getRateLimitConfig ctx toolName in
  1000 ≤ windowMs cfg ∧ 1 ≤ max cfg ∧
  (∀ n, ctx_rate_limits ctx !! toolName = Some n → n ≠ 0 → max cfg = Z.max 1 n) ∧
  (∀ ms, ctx_rate_limit_window_ms ctx = Some ms → ms ≠ 0 → windowMs cfg = Z.max 1000 ms) ∧
  (ctx_rate_limit_window_ms ctx = None ∨ ctx_rate_limit_window_ms ctx = Some 0 →
   ctx_rate_limit_max ctx = None ∨ ctx_rate_limit_max ctx = Some 0 →
   ctx_rate_limits ctx !! toolName = None ∨ ctx_rate_limits ctx !! toolName = Some 0 →
   config_file ctx = ∅ →
   cfg = mkRateCfg 60000 (default 60 (RATE_TOOL_DEFAULTS toolName))).
Proof.
  cbv zeta. split; [|split]; try apply getRateLimitConfig_bounds.
  assert (Htz : ∀ z, z ≠ 0 → JS.truthyZ z = true).
  { intros z Hz. unfold JS.truthyZ. by destruct (Z.eqb_spec z 0). }
  split; [|split].
  - intros n Hn Hne. unfold getRateLimitConfig. cbv zeta. simpl max.
    rewrite Hn.
    assert (Ho : ∀ d, orZ (Some n) d = Some n).
    { intros d. unfold orZ. cbn [JS.truthyOZ]. by rewrite (Htz n Hne). }
    by rewrite Ho.
  - intros ms Hms Hne. unfold getRateLimitConfig. cbv zeta. simpl windowMs.
    rewrite Hms.
    assert (Ho : ∀ d, orZ (Some ms) d = Some ms).
    { intros d. unfold orZ. cbn [JS.truthyOZ]. by rewrite (Htz ms Hne). }
    by rewrite Ho.
  - intros Hw Hm Ht Hfile. unfold getRateLimitConfig, getConfigNumber, getConfigValue.
    rewrite Hfile. cbv zeta. rewrite !lookup_empty.
    assert (Hd : ∀ o d, o = None ∨ o = Some 0 → orZ o d = d).
    { intros o d [-> | ->]; reflexivity. }
    rewrite !(Hd _ _ Hw), !(Hd _ _ Hm), !(Hd _ _ Ht).
    assert (Ho : ∀ d, orZ None d = d) by reflexivity. rewrite !Ho.
    unfold RATE_TOOL_DEFAULTS, RATE_DEFAULT_WINDOW_MS, RATE_DEFAULT_MAX.
    repeat (destruct (String.eqb toolName _); [reflexivity|]). reflexivity.
Qed.

Lemma rate_limit_config_resolution_witness :
  max (getRateLimitConfig ctx0 "inv_check") = Z.max 1 2 ∧
  getRateLimitConfig ctx_open "inv_check" = mkRateCfg 60000 20.
Proof.
  split.
  - apply (proj1 (proj2 (proj2 (rate_limit_config_resolution ctx0 "inv_check"))) 2);
      [reflexivity | lia].
  - apply (proj2 (proj2 (proj2 (proj2 (rate_limit_config_resolution ctx_open "inv_check")))));
      auto.
Defined.

(** ** Statistics of a page *)

Lemma ingestLoop_acc Address wallet nowIso events : ∀ rows a,
  (ingestLoop Address wallet nowIso events rows a).2
  = fold_left (λ a ev, accEvent ev a) events a.
Proof.
  induction events as [|ev events IH]; intros rows a; simpl; [reflexivity|]. apply IH.
Qed.

Lemma accEvent_keeps_ts ev a t :
  ts_bounds a t → ts_bounds (accEvent ev a) t.
Proof.
  intros (lo & hi & Hlo & Hhi & Hle). unfold ts_bounds, accEvent.
  destruct (ev_tsMs ev) as [t'|]; simpl.
  - destruct (toBigIntSafe (ev_ltVal ev)); simpl; rewrite Hlo, Hhi;
      exists (Z.min lo t'), (Z.max hi t'); repeat split; lia.
  - destruct (toBigIntSafe (ev_ltVal ev)); simpl; exists lo, hi; auto.
Qed.

Lemma accEvent_sets_ts ev a t : ev_tsMs ev = Some t → ts_bounds (accEvent ev a) t.
Proof.
  intros Ht. unfold ts_bounds, accEvent. rewrite Ht.
  destruct (toBigIntSafe (ev_ltVal ev)); simpl;
    destruct (minTs a), (maxTs a); eexists _, _; repeat split; lia.
Qed.

Lemma accEvent_keeps_lt ev a l :
  lt_bounds a l → lt_bounds (accEvent ev a) l.
Proof.
  intros (lo & hi & Hlo & Hhi & Hle). unfold lt_bounds, accEvent.
  destruct (ev_tsMs ev); destruct (toBigIntSafe (ev_ltVal ev)) as [l'|]; simpl;
    rewrite ?Hlo, ?Hhi; simpl.
  all: try (exists lo, hi; by auto).
  all: destruct (Z.ltb_spec lo l'), (Z.gtb_spec hi l'); eexists _, _; repeat split; lia.
Qed.

Lemma accEvent_sets_lt ev a l :
  toBigIntSafe (ev_ltVal ev) = Some l → lt_bounds (accEvent ev a) l.
Proof.
  intros Hl. unfold lt_bounds, accEvent. rewrite Hl.
  destruct (ev_tsMs ev); simpl; destruct (minLt a) as [x|], (maxLt a) as [y|]; simpl.
  all: try destruct (Z.ltb_spec x l); try destruct (Z.gtb_spec y l).
  all: eexists _, _; repeat split; lia.
Qed.

Lemma fold_acc_bounds (P : Acc -> Prop) events :
  (∀ ev a, P a → P (accEvent ev a)) →
  ∀ a, P a → P (fold_left (λ a ev, accEvent ev a) events a).
Proof.
  intros Hkeep. induction events as [|ev events IH]; intros a Ha; simpl; auto.
Qed.

Lemma fold_acc_covers (P : Acc -> Prop) (Q : Event -> Prop) events :
  (∀ ev a, P a → P (accEvent ev a)) →
  (∀ ev a, Q ev → P (accEvent ev a)) →
  ∀ a ev, ev ∈ events → Q ev → P (fold_left (λ a ev, accEvent ev a) events a).
Proof.
  intros Hkeep Hset. induction events as [|ev0 events IH]; intros a ev Hin HQ; simpl.
  { by apply elem_of_nil in Hin. }
  apply elem_of_cons in Hin as [-> | Hin].
  - apply fold_acc_bounds; auto.
  - by apply (IH _ ev).
Qed.

(** X29. The statistics [ingestEvents] returns bound the page it read:
    the time of every event that has one lies between [min_ts] and
    [max_ts], and the logical time of every event that has one lies between
    the numbers [min_lt] and [max_lt] are the decimal texts of. *)
Theorem ingestEvents_stats_bound_the_page Address wallet events w stats :
  (ingestEvents Address wallet events w).1 = Ok stats →
  (∀ ev t, ev ∈ events → ev_tsMs ev = Some t →
     ∃ lo hi, st_min_ts stats = Some lo ∧ st_max_ts stats = Some hi ∧ lo ≤ t ≤ hi) ∧
  (∀ ev l, ev ∈ events → toBigIntSafe (ev_ltVal ev) = Some l →
     ∃ lo hi, toBigIntSafeText (st_min_lt stats) = Some lo ∧
              toBigIntSafeText (st_max_lt stats) = Some hi ∧ lo ≤ l ≤ hi).
Proof.
  unfold ingestEvents, nowIso, isoOf, mbind, M_bind, Date_now, getDb. simpl.
  destruct (JS.toISOString (w_now w)) as [now|]; simpl; [|discriminate].
  pose proof (ingestLoop_acc Address wallet now events (transfers (w_db w))
                (mkAcc None None None None)) as Hacc.
  destruct (ingestLoop Address wallet now events _ _) as [rows a]. simpl in *.
  intros [= <-]. subst a. split.
  - intros ev t Hin Ht.
    apply (fold_acc_covers (λ a, ts_bounds a t) (λ ev, ev_tsMs ev = Some t) events
             (λ ev a, accEvent_keeps_ts ev a t)
             ltac:(intros; by apply accEvent_sets_ts) _ ev Hin Ht).
  - intros ev l Hin Hl.
    pose proof (fold_acc_covers (λ a, lt_bounds a l)
                  (λ ev, toBigIntSafe (ev_ltVal ev) = Some l) events
                  (λ ev a, accEvent_keeps_lt ev a l)
                  ltac:(intros; by apply accEvent_sets_lt)
                  (mkAcc None None None None) ev Hin Hl) as (lo & hi & Hlo & Hhi & Hle).
    exists lo, hi. unfold statsOf. simpl. rewrite Hlo, Hhi. simpl.
    unfold toBigIntSafe, JS.BigInt. rewrite !StringToBigInt_ofZ. auto.
Qed.

Lemma ingestEvents_stats_bound_the_page_witness :
  ∃ lo hi, Some 4000000 = Some lo ∧ Some 9500000 = Some hi ∧ lo ≤ 9500000 ≤ hi.
Proof.
  apply (proj1 (ingestEvents_stats_bound_the_page None (Some "w1")
                  [older_event; newer_event] (world emptyDB 10000 [])
                  (mkStats (Some "40") (Some "110") (Some 4000000) (Some 9500000))
                  ltac:(vm_compute; reflexivity)) newer_event 9500000).
  - right. left.
  - reflexivity.
Defined.

(** ** Syncs that find nothing *)

Lemma tonapiFetchWithRetry_first_ok API_KEY rq w l evs rest :
  w_net w = mkResponse l (ReplyEvents evs) :: rest →
  Z.of_N l ≤ FETCH_TIMEOUT_MS →
  ∃ w1, tonapiFetchWithRetry API_KEY rq w = (Ok evs, w1) ∧ w_db w1 = w_db w ∧
        w_requests w1 = rq :: w_requests w ∧ w_net w1 = rest.
Proof.
  intros Hnet Hl. unfold tonapiFetchWithRetry. simpl. unfold try_catch, tonapiFetch.
  rewrite Hnet. cbv zeta. simpl latency. simpl reply.
  destruct (Z.ltb_spec FETCH_TIMEOUT_MS (Z.of_N l)); [lia|].
  eexists. split; [reflexivity|]. simpl. auto.
Qed.

(** X30. A sync that finds nothing leaves no trace.  When the first page
    the indexer returns is empty, [syncNewEvents] returns 0 after a single
    request and leaves the database as it was: the wallet's watermark row is
    not written, so [last_sync_at] is not set and the throttle of
    [findTransferWithSync], which reads it, is not armed for the next call.
    And for a wallet without a stored low watermark [syncOlderEvents]
    returns 0 at once, sending nothing and changing nothing. *)
Theorem sync_without_events_leaves_no_trace Address API_KEY wallet startMs endMs w :
  (∀ l evs rest,
     w_net w = mkResponse l (ReplyEvents evs) :: rest →
     Z.of_N l ≤ FETCH_TIMEOUT_MS → default [] evs = [] →
     let r := syncNewEvents Address API_KEY wallet startMs endMs w in
     r.1 = Ok 0 ∧ w_db r.2 = w_db w ∧ length (w_requests r.2) = S (length (w_requests w)) ∧
     ∀ now, sync_throttled (w_db r.2) wallet now = sync_throttled (w_db w) wallet now) ∧
  (JS.truthy (getWalletSync (w_db w) wallet ≫= min_lt) = false →
   syncOlderEvents Address API_KEY wallet startMs endMs w = (Ok 0, w)).
Proof.
  split.
  - intros l evs rest Hnet Hl Hempty. cbv zeta. unfold syncNewEvents.
    rewrite bind_getDb. cbv zeta.
    set (afterLt := getWalletSync (w_db w) wallet ≫= max_lt).
    destruct (tonapiFetchWithRetry_first_ok API_KEY
                (mkRequest wallet (if JS.truthy afterLt then "asc" else "desc")
                   (if JS.truthy afterLt then afterLt else None) None
                   (date_param startMs) (date_param endMs)) w l evs rest Hnet Hl)
      as (w1 & Hrun & Hdb & Hrq & _).
    assert (Hloop : syncNewLoop Address API_KEY wallet startMs endMs EVENT_MAX_PAGES_NEW
                      afterLt 0 emptyStats w = (Ok (0, emptyStats), w1)).
    { unfold EVENT_MAX_PAGES_NEW. simpl syncNewLoop. cbv zeta.
      rewrite (bind_ok _ _ _ _ _ Hrun). by rewrite Hempty. }
    rewrite (bind_ok _ _ _ _ _ Hloop). simpl.
    rewrite Hdb, Hrq. simpl. repeat split; try done.
  - intros Hlow. unfold syncOlderEvents. rewrite bind_getDb. cbv zeta.
    by rewrite Hlow.
Qed.

Lemma sync_without_events_leaves_no_trace_witness :
  let w := world synced 5000 [mkResponse 5 (ReplyEvents (Some []))] in
  let r := syncNewEvents None None (Some "w1") (Some 1000) (Some 900000) w in
  r.1 = Ok 0 ∧ w_db r.2 = w_db w ∧ length (w_requests r.2) = S (length (w_requests w)) ∧
  ∀ now, sync_throttled (w_db r.2) (Some "w1") now = sync_throttled (w_db w) (Some "w1") now.
Proof.
  intros w.
  apply (proj1 (sync_without_events_leaves_no_trace None None (Some "w1") (Some 1000)
                  (Some 900000) w) 5%N (Some []) []); [reflexivity | | reflexivity].
  unfold FETCH_TIMEOUT_MS. lia.
Defined.
